(** * pdgstrs.c: the distributed triangular solve of SuperLU_DIST

    A shallow embedding of [SRC/pdgstrs.c]: the two redistribution
    routines [pdReDistribute_B_to_X] and [pdReDistribute_X_to_B], the
    diagonal-inverse precomputation [pdCompute_Diag_Inv], and the control
    skeleton of [pdgstrs] (argument check, counter set-up, the
    message-driven forward sweep, the [brecv] pre-pass and the backward
    sweep).

    Conventions.
    - [int_t]/[int] values are integers of [Z]; C's [/] and [%] are
      [Z.quot] and [Z.rem].  Signed overflow is undefined in C and is not
      modelled: every quantity here is an index or a count.
    - A C array is a total map from index to element ([array]); a read or
      a write outside the allocated extent is undefined in C, and the
      theorems only speak about in-range entries.
    - Integer arrays that the solve allocates, aliases through [Llu] and
      frees live in a store of blocks ([mem]) addressed by a block id.
    - [double] payloads are never inspected by the control flow; where
      they are only moved (the redistribution) the element type is a
      parameter [V].
    - Calls into MPI and into the tree library are recorded in a trace of
      [event]s. *)

From Stdlib Require Import String ZArith List Lia Bool Arith FinFun.
Import ListNotations.
Open Scope Z_scope.

(* ================================================================== *)
(** * Arrays and loops *)
(* ================================================================== *)

Definition array (A : Type) : Type := Z -> A.

(** [a[i] = v] *)
Definition upd {A} (a : array A) (i : Z) (v : A) : array A :=
  fun j => if Z.eqb j i then v else a j.

(** A table given by its entries, for concrete inputs. *)
Definition tab {A} (d : A) (l : list A) : array A :=
  fun i => if i <? 0 then d else nth (Z.to_nat i) l d.

(** [a + off] : pointer arithmetic on an array base. *)
Definition slice {A} (a : array A) (off : Z) : array A :=
  fun i => a (off + i).

(** The indices [0, 1, ..., n-1] of [for (i = 0; i < n; ++i)]. *)
Definition range (n : Z) : list Z :=
  map Z.of_nat (seq 0 (Z.to_nat n)).

(** [for (i = 0; i < n; ++i) s = body i s] *)
Definition for_loop {S} (n : Z) (body : Z -> S -> S) (s : S) : S :=
  fold_left (fun s i => body i s) (range n) s.

(** A sequence of array writes, performed left to right. *)
Definition write_list {A} (ws : list (Z * A)) (a : array A) : array A :=
  fold_left (fun a w => upd a (fst w) (snd w)) ws a.

Lemma upd_same {A} (a : array A) i v : upd a i v i = v.
Proof. unfold upd. now rewrite Z.eqb_refl. Qed.

Lemma upd_other {A} (a : array A) i j v : j <> i -> upd a i v j = a j.
Proof. unfold upd. intros H. destruct (Z.eqb_spec j i); congruence. Qed.

Lemma range_In n i : In i (range n) <-> 0 <= i < n.
Proof.
  unfold range. rewrite in_map_iff. split.
  - intros [k [<- Hk]]. apply in_seq in Hk. lia.
  - intros H. exists (Z.to_nat i). split; [lia|]. apply in_seq. lia.
Qed.

Lemma range_nonpos n : n <= 0 -> range n = [].
Proof. intros H. unfold range. now replace (Z.to_nat n) with 0%nat by lia. Qed.

Lemma range_succ n : 0 <= n -> range (n + 1) = range n ++ [n].
Proof.
  intros H. unfold range.
  replace (Z.to_nat (n + 1)) with (S (Z.to_nat n)) by lia.
  rewrite seq_S, map_app. simpl. now rewrite Z2Nat.id by lia.
Qed.

Lemma range_length n : length (range n) = Z.to_nat n.
Proof. unfold range. now rewrite length_map, length_seq. Qed.

Lemma for_loop_nonpos {S} n (body : Z -> S -> S) s : n <= 0 -> for_loop n body s = s.
Proof. intros H. unfold for_loop. now rewrite range_nonpos. Qed.

Lemma for_loop_succ {S} n (body : Z -> S -> S) s :
  0 <= n -> for_loop (n + 1) body s = body n (for_loop n body s).
Proof.
  intros H. unfold for_loop. now rewrite range_succ, fold_left_app by lia.
Qed.

(** The loop-invariant rule for [for_loop]. *)
Lemma for_loop_inv {S} (Inv : Z -> S -> Prop) n (body : Z -> S -> S) s :
  0 <= n -> Inv 0 s ->
  (forall i t, 0 <= i < n -> Inv i t -> Inv (i + 1) (body i t)) ->
  Inv n (for_loop n body s).
Proof.
  intros Hn H0 Hstep.
  assert (G : forall k, 0 <= k -> k <= n -> Inv k (for_loop k body s)).
  { intros k Hk. pattern k. apply natlike_ind; [| |exact Hk].
    - intros _. now rewrite for_loop_nonpos by lia.
    - intros x Hx IH Hle. unfold Z.succ. rewrite for_loop_succ by lia.
      apply Hstep; [lia|]. apply IH. lia. }
  apply G; lia.
Qed.

Lemma write_list_app {A} (w1 w2 : list (Z * A)) a :
  write_list (w1 ++ w2) a = write_list w2 (write_list w1 a).
Proof. unfold write_list. now rewrite fold_left_app. Qed.

Lemma write_list_notin {A} (ws : list (Z * A)) a i :
  (forall v, ~ In (i, v) ws) -> write_list ws a i = a i.
Proof.
  revert a. induction ws as [|[j w] ws IH]; intros a H; simpl; [reflexivity|].
  rewrite IH.
  - apply upd_other. intros ->. apply (H w). now left.
  - intros v Hv. apply (H v). now right.
Qed.

(** If every write to cell [i] in the sequence stores [v], and there is
    one, the cell ends up holding [v]. *)
Lemma write_list_consistent {A} (ws : list (Z * A)) a i v :
  In (i, v) ws -> (forall v', In (i, v') ws -> v' = v) ->
  write_list ws a i = v.
Proof.
  revert a. induction ws as [|[j w] ws IH] using rev_ind; intros a Hin Hall.
  - destruct Hin.
  - rewrite write_list_app. simpl. unfold upd at 1. simpl.
    destruct (Z.eqb_spec i j) as [->|Hne].
    + apply Hall. apply in_or_app. right. now left.
    + apply IH.
      * apply in_app_or in Hin. destruct Hin as [Hin|[Heq|[]]]; [exact Hin|].
        inversion Heq; congruence.
      * intros v' Hv'. apply Hall. apply in_or_app. now left.
Qed.

Lemma for_loop_upd {A} n (f : Z -> Z) (g : Z -> A) (a : array A) :
  for_loop n (fun j a => upd a (f j) (g j)) a =
  write_list (map (fun j => (f j, g j)) (range n)) a.
Proof.
  unfold for_loop, write_list. generalize (range n). intros l. revert a.
  induction l as [|x l IH]; intros a; simpl; [reflexivity|]. apply IH.
Qed.

(** [for (i = lo; i < hi; ++i) s = body i s] *)
Definition for_range {S} (lo hi : Z) (body : Z -> S -> S) (s : S) : S :=
  for_loop (hi - lo) (fun t => body (lo + t)) s.

(* ================================================================== *)
(** * The store of integer blocks *)
(* ================================================================== *)

(** [cells m p] is the content of block [p]; [brk m] is the next block
    id the allocator hands out, so a block id below [brk m] has been
    handed out; [freed m] lists the blocks given back. *)
Record mem : Type := { cells : Z -> array Z; brk : Z; freed : list Z }.

Definition load (m : mem) (p i : Z) : Z := cells m p i.

Definition store (m : mem) (p i v : Z) : mem :=
  {| cells := fun q => if Z.eqb q p then upd (cells m q) i v else cells m q;
     brk := brk m; freed := freed m |}.

(** [intMalloc_dist] / [SUPERLU_MALLOC]: a fresh block of indeterminate
    content.  Allocation failure aborts the program ([ABORT]) and is not
    a state of the model. *)
Definition intMalloc_dist (m : mem) : Z * mem :=
  (brk m, {| cells := cells m; brk := brk m + 1; freed := freed m |}).

(** [intCalloc_dist]: a fresh zero-filled block. *)
Definition intCalloc_dist (m : mem) : Z * mem :=
  (brk m,
   {| cells := fun q => if Z.eqb q (brk m) then (fun _ => 0) else cells m q;
      brk := brk m + 1; freed := freed m |}).

(** [SUPERLU_FREE(p)] *)
Definition SUPERLU_FREE (m : mem) (p : Z) : mem :=
  {| cells := cells m; brk := brk m; freed := p :: freed m |}.

Lemma load_store_same m p i v : load (store m p i v) p i = v.
Proof. unfold load, store. simpl. rewrite Z.eqb_refl. apply upd_same. Qed.

Lemma load_store_other_block m p q i j v :
  q <> p -> load (store m p i v) q j = load m q j.
Proof. unfold load, store. simpl. intros H. destruct (Z.eqb_spec q p); congruence. Qed.

Lemma load_store_other_index m p i j v :
  j <> i -> load (store m p i v) p j = load m p j.
Proof.
  unfold load, store. simpl. intros H. rewrite Z.eqb_refl. now apply upd_other.
Qed.

Lemma load_store m p q i j v :
  load (store m p i v) q j = if (q =? p) && (j =? i) then v else load m q j.
Proof.
  unfold load, store, upd. simpl.
  destruct (Z.eqb_spec q p); simpl; [subst|reflexivity].
  destruct (Z.eqb_spec j i); reflexivity.
Qed.

Lemma brk_store m p i v : brk (store m p i v) = brk m.
Proof. reflexivity. Qed.

(* ================================================================== *)
(** * Grid, supernodes and the layout macros *)
(* ================================================================== *)

(** The 2D process mesh: [grid->nprow], [grid->npcol], [grid->iam]. *)
Record gridinfo_t : Type := { nprow : Z; npcol : Z; iam : Z }.

(** [Glu_persist->xsup], [Glu_persist->supno]. *)
Record Glu_persist_t : Type := { xsup : array Z; supno : array Z }.

(** Constants of the header superlu_defs.h, which is not part of the
    sources at hand; they are parameters of the model.  [XK_H] and
    [LSUM_H] are the header lengths in front of an X block and an lsum
    block, [Xk] and [LSUM] the two message tags of the backward sweep,
    [EMPTY] the mark of an unused entry, [BC_HEADER], [LB_DESCRIPTOR],
    [BR_HEADER] and [UB_DESCRIPTOR] the header lengths of the L and U
    index arrays. *)
Record superlu_defs : Type :=
  { XK_H : Z; LSUM_H : Z; Xk : Z; LSUM : Z; EMPTY : Z;
    BC_HEADER : Z; LB_DESCRIPTOR : Z; BR_HEADER : Z; UB_DESCRIPTOR : Z }.

(** Modelled from the spec: the macros [MYROW], [MYCOL], [PROW], [PCOL],
    [PNUM], [LBi], [LBj] and [CEILING] of superlu_defs.h are not under
    src/.  The spec gives the rank as MYROW * P_c + MYCOL, the owner of
    diagonal block k as PNUM(k mod P_r, k mod P_c) and block-cyclic
    ownership of block rows and block columns; the local number of a block
    is its quotient by the mesh dimension. *)
Definition MYROW (g : gridinfo_t) (iam : Z) : Z := Z.quot iam (npcol g).
Definition MYCOL (g : gridinfo_t) (iam : Z) : Z := Z.rem iam (npcol g).
Definition PROW (g : gridinfo_t) (bnum : Z) : Z := Z.rem bnum (nprow g).
Definition PCOL (g : gridinfo_t) (bnum : Z) : Z := Z.rem bnum (npcol g).
Definition PNUM (g : gridinfo_t) (i j : Z) : Z := i * npcol g + j.
Definition LBi (g : gridinfo_t) (bnum : Z) : Z := Z.quot bnum (nprow g).
Definition LBj (g : gridinfo_t) (bnum : Z) : Z := Z.quot bnum (npcol g).
Definition CEILING (a b : Z) : Z :=
  if Z.eqb (Z.rem a b) 0 then Z.quot a b else Z.quot a b + 1.

(** Modelled from the spec: the macros [BlockNum], [FstBlockC] and
    [SuperSize] of superlu_defs.h are not under src/.  Supernode k is the
    contiguous range [FST(k), FST(k) + NSUP(k)), read off [xsup]; the
    supernode containing an index is read off [supno]. *)
Definition BlockNum (G : Glu_persist_t) (i : Z) : Z := supno G i.
Definition FstBlockC (G : Glu_persist_t) (bnum : Z) : Z := xsup G bnum.
Definition SuperSize (G : Glu_persist_t) (bnum : Z) : Z :=
  xsup G (bnum + 1) - xsup G bnum.

(** Modelled from the spec: the macros [X_BLK] and [LSUM_BLK] of
    superlu_defs.h are not under src/.  Each local block row carries a
    header followed by NSUP(k) * NRHS values stored column-major; [ilsum]
    gives the starting position of each local block in a one-column array
    (see the sketch at the head of pdgstrs.c). *)
Definition X_BLK (D : superlu_defs) (ilsum : array Z) (nrhs : Z) (i : Z) : Z :=
  ilsum i * nrhs + (i + 1) * XK_H D.
Definition LSUM_BLK (D : superlu_defs) (ilsum : array Z) (nrhs : Z) (i : Z) : Z :=
  ilsum i * nrhs + (i + 1) * LSUM_H D.

(** [nsupers = supno[n-1] + 1] *)
Definition nsupers_of (G : Glu_persist_t) (n : Z) : Z := supno G (n - 1) + 1.

(* ================================================================== *)
(** * The trace of external calls *)
(* ================================================================== *)

(** Where the buffer handed to a tree forward lives. *)
Inductive bufsrc : Type :=
| InX (off : Z)          (* [&x[off]] *)
| InLsum (off : Z)       (* [&lsum[off]] *)
| InRecvBufFwd (off : Z) (* [&recvbuf_BC_fwd[off]] *)
| InRecvbuf (off : Z).   (* [&recvbuf[off]] *)

Inductive event : Type :=
| EvPrintf (what : string)
| EvBarrier                                   (* MPI_Barrier(grid->comm) *)
| EvPxerr (routine : string) (arg : Z)        (* pxerr_dist *)
| EvRecv (off : Z)                            (* MPI_Recv into recvbuf_BC_fwd + off *)
| EvRecvU                                     (* MPI_Recv into recvbuf *)
| EvSolve (k : Z)                             (* the dense diagonal solve of block k *)
| EvBcForward (lk : Z) (buf : bufsrc)         (* BcTree_forwardMessageSimple *)
| EvRdForward (lk : Z) (buf : bufsrc)         (* RdTree_forwardMessageSimple *)
| EvBcWait (lk : Z)                           (* BcTree_waitSendRequest *)
| EvRdWait (lk : Z)                           (* RdTree_waitSendRequest *)
| EvIsend (buf : bufsrc) (dest tag : Z)       (* MPI_Isend on grid->comm *)
| EvWait (req : Z)                            (* MPI_Wait(&send_req[req]) *)
| EvAllreduce.                                (* MPI_Allreduce on the row scope *)

(* ================================================================== *)
(** * pdgstrs: entry and argument check (lines 833-875) *)
(* ================================================================== *)

(** The part of the process state the control skeleton of [pdgstrs]
    reads and writes: the integer store, the caller's [*info], the
    pointers [Llu->frecv] and [Llu->brecv], the counter
    [Llu->SolveMsgSent], and the trace of external calls. *)
Record pdgstrs_state : Type :=
  { heap : mem;
    info : Z;
    Llu_frecv : Z;
    Llu_brecv : Z;
    Llu_SolveMsgSent : Z;
    trace : list event }.

Inductive entry_result : Type :=
| Returned (s : pdgstrs_state)   (* the [return] of line 874 *)
| Proceeds (s : pdgstrs_state).  (* control reaches line 877 *)

(** Lines 833-875.  [msgcnt] is allocated in the declarations, before
    the arguments are looked at.  The test [iam==0] of line 859 reads the
    local [iam] before its assignment at line 880, so its value is
    indeterminate: it is the input [iam_indet].  The timer reads leave
    no trace. *)
Definition pdgstrs_entry (iam_indet : Z) (n nrhs : Z) (s : pdgstrs_state)
  : entry_result :=
  let '(msgcnt, h) := intMalloc_dist (heap s) in
  let tr := trace s
            ++ (if iam_indet =? 0 then [EvPrintf "num_thread"] else [])
            ++ [EvBarrier] in
  let info0 := 0 in
  let info1 := if n <? 0 then -1 else if nrhs <? 0 then -9 else info0 in
  if negb (info1 =? 0) then
    Returned {| heap := h; info := info1;
                Llu_frecv := Llu_frecv s; Llu_brecv := Llu_brecv s;
                Llu_SolveMsgSent := Llu_SolveMsgSent s;
                trace := tr ++ [EvPxerr "PDGSTRS" (- info1)] |}
  else
    Proceeds {| heap := h; info := info1;
                Llu_frecv := Llu_frecv s; Llu_brecv := Llu_brecv s;
                Llu_SolveMsgSent := Llu_SolveMsgSent s;
                trace := tr |}.

(** "No allocation performed": the allocator's break has not moved. *)
Definition no_allocation (s : pdgstrs_state) (r : entry_result) : Prop :=
  match r with
  | Returned s' | Proceeds s' => brk (heap s') = brk (heap s)
  end.

Definition sample_state : pdgstrs_state :=
  {| heap := {| cells := fun _ _ => 0; brk := 10; freed := [] |};
     info := 0; Llu_frecv := 0; Llu_brecv := 0; Llu_SolveMsgSent := 0;
     trace := [] |}.

(** C2, counterexample: with [n = -1] the routine returns through the
    illegal-argument path with [*info = -1], yet one block ([msgcnt]) has
    been allocated by then. *)
Lemma C2_counterexample :
  exists s', pdgstrs_entry 1 (-1) 1 sample_state = Returned s'
             /\ info s' = -1
             /\ ~ no_allocation sample_state (Returned s').
Proof.
  eexists. split; [reflexivity|]. split; [reflexivity|].
  unfold no_allocation. simpl. lia.
Qed.

(** C2, as amended: [*info] is -1 when [n < 0], else -9 when [nrhs < 0],
    else 0.  In the two illegal cases the routine returns at once after
    the entry barrier and the [pxerr_dist] report; by then exactly one
    block ([msgcnt]) has been allocated, no cell of the store has been
    written and the [Llu] fields are untouched.  Otherwise control goes
    on with [*info = 0]. *)
Theorem C2_argument_check (iam_indet n nrhs : Z) (s : pdgstrs_state) :
  match pdgstrs_entry iam_indet n nrhs s with
  | Returned s' =>
      (n < 0 \/ nrhs < 0)
      /\ info s' = (if n <? 0 then -1 else -9)
      /\ brk (heap s') = brk (heap s) + 1
      /\ cells (heap s') = cells (heap s) /\ freed (heap s') = freed (heap s)
      /\ Llu_frecv s' = Llu_frecv s /\ Llu_brecv s' = Llu_brecv s
      /\ Llu_SolveMsgSent s' = Llu_SolveMsgSent s
      /\ trace s' = trace s
                    ++ (if iam_indet =? 0 then [EvPrintf "num_thread"] else [])
                    ++ [EvBarrier; EvPxerr "PDGSTRS" (- info s')]
  | Proceeds s' => 0 <= n /\ 0 <= nrhs /\ info s' = 0
  end.
Proof.
  unfold pdgstrs_entry. simpl.
  destruct (Z.ltb_spec n 0) as [Hn|Hn]; simpl.
  - repeat split; auto. rewrite <- !app_assoc. reflexivity.
  - destruct (Z.ltb_spec nrhs 0) as [Hr|Hr]; simpl.
    + repeat split; auto. rewrite <- !app_assoc. reflexivity.
    + repeat split; auto.
Qed.

(* ================================================================== *)
(** * pdCompute_Diag_Inv (lines 558-669) *)
(* ================================================================== *)

Section DiagInv.

(** The numerical type ([double]) and the constant [1.0]. *)
Variable V : Type.
Variable one : V.

(** LAPACK's [dtrtri_(uplo, diag, &n, A, &lda, &INFO)]: an external
    kernel.  It returns the new content of [A] and the value it leaves
    in [INFO]. *)
Variable dtrtri_ : string -> string -> Z -> array V -> Z -> array V * Z.

(** What the routine reads and writes: the flag [Llu->inv], the blocks
    behind [Llu->Linv_bc_ptr] and [Llu->Uinv_bc_ptr], the local [INFO]
    and the cell the argument [info] points to. *)
Record diag_state : Type :=
  { Llu_inv : Z;
    Linv_bc_ptr : Z -> array V;
    Uinv_bc_ptr : Z -> array V;
    INFO : Z;
    info_cell : Z }.

(** The factor data the routine only reads: [Llu->Lrowind_bc_ptr] and
    [Llu->Lnzval_bc_ptr]. *)
Record diag_factor : Type :=
  { dLrowind_bc_ptr : Z -> array Z;
    dLnzval_bc_ptr : Z -> array V }.

(** Lines 634-645: split the diagonal block of [lusup] into the
    unit-lower part (into [Linv]) and the upper part (into [Uinv]). *)
Definition split_diag_block (knsupc nsupr : Z) (lusup : array V)
    (LU : array V * array V) : array V * array V :=
  for_loop knsupc (fun j LU =>
    let Linv := upd (fst LU) (j * knsupc + j) one in
    let Linv := for_range (j + 1) knsupc
                  (fun i Linv => upd Linv (j * knsupc + i) (lusup (j * nsupr + i)))
                  Linv in
    let Uinv := for_range 0 (j + 1)
                  (fun i Uinv => upd Uinv (j * knsupc + i) (lusup (j * nsupr + i)))
                  (snd LU) in
    (Linv, Uinv)) LU.

(** Lines 619-658, one turn of the loop over [k], in the build with
    [USE_VENDOR_BLAS] (the other two builds [ABORT]). *)
Definition diag_inv_block (g : gridinfo_t) (G : Glu_persist_t) (F : diag_factor)
    (k : Z) (st : diag_state) : diag_state :=
  let myrow := MYROW g (iam g) in
  let mycol := MYCOL g (iam g) in
  let krow := PROW g k in
  if myrow =? krow then
    let kcol := PCOL g k in
    if mycol =? kcol then
      let lk := LBj g k in
      let lsub := dLrowind_bc_ptr F lk in
      let lusup := dLnzval_bc_ptr F lk in
      let nsupr := lsub 1 in
      let knsupc := SuperSize G k in
      let '(Linv, Uinv) :=
        split_diag_block knsupc nsupr lusup (Linv_bc_ptr st lk, Uinv_bc_ptr st lk) in
      let '(Linv, INFO1) := dtrtri_ "L" "U" knsupc Linv knsupc in
      let '(Uinv, INFO2) := dtrtri_ "U" "N" knsupc Uinv knsupc in
      {| Llu_inv := Llu_inv st;
         Linv_bc_ptr := fun q => if q =? lk then Linv else Linv_bc_ptr st q;
         Uinv_bc_ptr := fun q => if q =? lk then Uinv else Uinv_bc_ptr st q;
         INFO := INFO2;
         info_cell := info_cell st |}
    else st
  else st.

(** The whole routine.  The argument [info] is never assigned. *)
Definition pdCompute_Diag_Inv (n : Z) (g : gridinfo_t) (G : Glu_persist_t)
    (F : diag_factor) (st : diag_state) : diag_state :=
  let nsupers := nsupers_of G n in
  let st := {| Llu_inv := 1; Linv_bc_ptr := Linv_bc_ptr st;
               Uinv_bc_ptr := Uinv_bc_ptr st; INFO := INFO st;
               info_cell := info_cell st |} in
  for_loop nsupers (fun k st => diag_inv_block g G F k st) st.

Lemma diag_inv_block_info g G F k st :
  info_cell (diag_inv_block g G F k st) = info_cell st.
Proof.
  unfold diag_inv_block.
  destruct (_ =? _); [|reflexivity].
  destruct (_ =? _); [|reflexivity].
  destruct (split_diag_block _ _ _ _) as [L U].
  destruct (dtrtri_ "L" "U" _ L _) as [L' i1].
  destruct (dtrtri_ "U" "N" _ U _) as [U' i2]. reflexivity.
Qed.

(** Whatever the kernel reports, the caller's [*info] is left as it
    was. *)
Lemma pdCompute_Diag_Inv_info n g G F st :
  info_cell (pdCompute_Diag_Inv n g G F st) = info_cell st.
Proof.
  unfold pdCompute_Diag_Inv, for_loop.
  assert (H : forall l s,
             info_cell (fold_left (fun s i => diag_inv_block g G F i s) l s)
             = info_cell s).
  { induction l as [|k l IH]; intros s; simpl; [reflexivity|].
    rewrite IH. apply diag_inv_block_info. }
  rewrite H. reflexivity.
Qed.

End DiagInv.

Arguments Llu_inv {V}.
Arguments Linv_bc_ptr {V}.
Arguments Uinv_bc_ptr {V}.
Arguments INFO {V}.
Arguments info_cell {V}.
Arguments Build_diag_state {V}.
Arguments dLrowind_bc_ptr {V}.
Arguments dLnzval_bc_ptr {V}.
Arguments Build_diag_factor {V}.
Arguments pdCompute_Diag_Inv {V}.

(** The information path of LAPACK's [dtrtri]: for a non-unit triangle
    the first exactly-zero diagonal entry [A(i,i)] is reported as
    [INFO = i] (counting from 1) and [A] is returned as it was; otherwise
    [INFO = 0] and the inverse, computed by [invert], is returned. *)
Definition first_zero_diag (n : Z) (A : array Z) (lda : Z) : Z :=
  fold_right (fun i r => if A (i + i * lda) =? 0 then i + 1 else r) 0 (range n).

Definition dtrtri_info_path
    (invert : string -> string -> Z -> array Z -> Z -> array Z)
    (uplo diag : string) (n : Z) (A : array Z) (lda : Z) : array Z * Z :=
  if String.eqb diag "N" then
    let i := first_zero_diag n A lda in
    if i =? 0 then (invert uplo diag n A lda, 0) else (A, i)
  else (invert uplo diag n A lda, 0).

(** A 1 x 1 mesh holding one supernode of size 1 whose diagonal entry
    U(0,0) is zero. *)
Definition singular_grid : gridinfo_t := {| nprow := 1; npcol := 1; iam := 0 |}.
Definition singular_Glu : Glu_persist_t :=
  {| xsup := tab 0 [0; 1]; supno := tab 0 [0] |}.
Definition singular_factor : diag_factor Z :=
  {| dLrowind_bc_ptr := fun _ => tab 0 [1; 1; 0; 1; 0];
     dLnzval_bc_ptr := fun _ => tab 0 [0] |}.
Definition singular_start : diag_state Z :=
  {| Llu_inv := 0; Linv_bc_ptr := fun _ _ => 7; Uinv_bc_ptr := fun _ _ => 7;
     INFO := 0; info_cell := 0 |}.

(** C3, the code at a singular diagonal block: the kernel reports the
    zero pivot ([INFO = 1]), and the caller's [*info] still holds the 0
    it held on entry. *)
Theorem C3_singular_block_not_reported
    (invert : string -> string -> Z -> array Z -> Z -> array Z) :
  let st := pdCompute_Diag_Inv 1 (dtrtri_info_path invert) 1
              singular_grid singular_Glu singular_factor singular_start in
  INFO st = 1 /\ info_cell st = 0 /\ Llu_inv st = 1.
Proof.
  cbv zeta. split; [|split].
  - vm_compute. reflexivity.
  - rewrite pdCompute_Diag_Inv_info. reflexivity.
  - vm_compute. reflexivity.
Qed.

(* ================================================================== *)
(** * pdgstrs: the forward sweep (lines 1056-1660) *)
(* ================================================================== *)

Definition ps_load (ps : pdgstrs_state) (p i : Z) : Z := load (heap ps) p i.

Definition ps_store (ps : pdgstrs_state) (p i v : Z) : pdgstrs_state :=
  {| heap := store (heap ps) p i v; info := info ps;
     Llu_frecv := Llu_frecv ps; Llu_brecv := Llu_brecv ps;
     Llu_SolveMsgSent := Llu_SolveMsgSent ps; trace := trace ps |}.

Definition ps_log (ps : pdgstrs_state) (e : event) : pdgstrs_state :=
  {| heap := heap ps; info := info ps;
     Llu_frecv := Llu_frecv ps; Llu_brecv := Llu_brecv ps;
     Llu_SolveMsgSent := Llu_SolveMsgSent ps; trace := trace ps ++ [e] |}.

Definition ps_set_heap (ps : pdgstrs_state) (h : mem) : pdgstrs_state :=
  {| heap := h; info := info ps;
     Llu_frecv := Llu_frecv ps; Llu_brecv := Llu_brecv ps;
     Llu_SolveMsgSent := Llu_SolveMsgSent ps; trace := trace ps |}.

(** The handles of the tree library (TreeBcast / TreeReduce), which is
    not part of the sources at hand: what [BcTree_IsRoot],
    [BcTree_getDestCount], [RdTree_IsRoot] and [RdTree_GetDestCount]
    answer for a tree. *)
Record BcTree : Type := { bc_IsRoot : bool; bc_DestCount : Z }.
Record RdTree : Type := { rd_IsRoot : bool; rd_DestCount : Z }.

(** A C pointer that may be [NULL].  Dereferencing [NULL] is undefined
    in C; the accessors below answer for it as for an all-zero object. *)
Definition deref (p : option (array Z)) : array Z :=
  match p with Some a => a | None => fun _ => 0 end.
Definition BcTree_IsRoot (t : option BcTree) : bool :=
  match t with Some t => bc_IsRoot t | None => false end.
Definition BcTree_getDestCount (t : option BcTree) : Z :=
  match t with Some t => bc_DestCount t | None => 0 end.
Definition RdTree_IsRoot (t : option RdTree) : bool :=
  match t with Some t => rd_IsRoot t | None => false end.
Definition RdTree_GetDestCount (t : option RdTree) : Z :=
  match t with Some t => rd_DestCount t | None => 0 end.
Definition not_null {A} (p : option A) : bool :=
  match p with Some _ => true | None => false end.

(** The fields of [Llu] (LocalLU_t) that the control of the solve reads:
    the block ids of the counter templates [Llu->fmod], [Llu->bmod] and of
    [Llu->mod_bit], the expected message counts, the L index arrays, the
    trees, the U index arrays, the send lists of the backward sweep and
    [Llu->ilsum]. *)
Record LocalLU_t : Type :=
  { Llu_fmod : Z;
    Llu_bmod : Z;
    Llu_mod_bit : Z;
    Llu_nfrecvx : Z;
    Llu_nbrecvx : Z;
    Lrowind_bc_ptr : Z -> option (array Z);
    LBtree_ptr : Z -> option BcTree;
    LRtree_ptr : Z -> option RdTree;
    Ufstnz_br_ptr : Z -> option (array Z);
    bsendx_plist : Z -> Z -> Z;
    Llu_ilsum : array Z }.

(** A received message, as far as the control looks at it:
    [status.MPI_TAG] and the first word of the payload ([k = *recvbuf0]). *)
Record message : Type := { MPI_TAG : Z; hdr : Z }.

(** The local variables of [pdgstrs] that drive the forward service
    loop, on top of the process state.  [recvbuf0] is kept as its offset
    into [recvbuf_BC_fwd]. *)
Record lsolve_state : Type :=
  { nfrecvx : Z;
    nfrecvmod : Z;
    nfrecvx_buf : Z;
    recvbuf0 : Z;
    ps : pdgstrs_state }.

Definition with_ps (s : lsolve_state) (p : pdgstrs_state) : lsolve_state :=
  {| nfrecvx := nfrecvx s; nfrecvmod := nfrecvmod s;
     nfrecvx_buf := nfrecvx_buf s; recvbuf0 := recvbuf0 s; ps := p |}.

Inductive loop_status : Type :=
| Finished     (* the loop condition became false *)
| Blocked.     (* MPI_Recv waits for a message that never comes *)

Section ForwardSweep.

Variable D : superlu_defs.
Variable g : gridinfo_t.
Variable G : Glu_persist_t.
Variable Llu : LocalLU_t.
Variable nsupers : Z.
Variable nrhs : Z.
Variable maxrecvsz : Z.

(** The local pointers [fmod] and [frecv] of [pdgstrs], as block ids. *)
Variable fmod : Z.
Variable frecv : Z.

(** [dlsum_fmod_inv] lives in pdgstrs_lsum.c, which is not part of the
    sources at hand.  It is a parameter: called with the buffer holding
    X[k], [knsupc], [k], the pointer [fmod], [nb], [lptr] and [luptr], it
    transforms the process state (it is given [fmod] and [Llu], and none
    of the locals of [pdgstrs]). *)
Variable dlsum_fmod_inv :
  bufsrc -> Z -> Z -> Z -> Z -> Z -> Z -> pdgstrs_state -> pdgstrs_state.

(** Lines 1405-1453: a message of the X class. *)
Definition lsolve_recv_x (msg : message) (s : lsolve_state) : lsolve_state :=
  let k := hdr msg in
  let nfrecvx1 := nfrecvx s - 1 in
  let lk := LBj g (MPI_TAG msg) in
  let fwd := BcTree_getDestCount (LBtree_ptr Llu lk) >? 0 in
  let ps1 := if fwd then ps_log (ps s) (EvBcForward lk (InRecvBufFwd (recvbuf0 s)))
             else ps s in
  let nfrecvx_buf1 := if fwd then nfrecvx_buf s + 1 else nfrecvx_buf s in
  let lk := LBj g k in
  let ps2 :=
    match Lrowind_bc_ptr Llu lk with
    | Some lsub =>
        let nb := lsub 0 in
        let lptr := BC_HEADER D in
        let luptr := 0 in
        let knsupc := SuperSize G k in
        dlsum_fmod_inv (InRecvBufFwd (recvbuf0 s + XK_H D)) knsupc k fmod nb lptr luptr ps1
    | None => ps1
    end in
  let recvbuf01 :=
    if BcTree_getDestCount (LBtree_ptr Llu lk) >? 0
    then nfrecvx_buf1 * maxrecvsz else recvbuf0 s in
  {| nfrecvx := nfrecvx1; nfrecvmod := nfrecvmod s;
     nfrecvx_buf := nfrecvx_buf1; recvbuf0 := recvbuf01; ps := ps2 |}.

(** Lines 1460-1578: an LSUM message at the root of the reduction tree. *)
Definition lsolve_lsum_root (k lk : Z) (p : pdgstrs_state) : pdgstrs_state :=
  let ii := X_BLK D (Llu_ilsum Llu) nrhs lk in
  let knsupc := SuperSize G k in
  if (ps_load p frecv lk =? 0) && (ps_load p fmod lk =? 0) then
    let p := ps_store p fmod lk (-1) in
    let lk := LBj g k in
    let lsub := deref (Lrowind_bc_ptr Llu lk) in
    let p := ps_log p (EvSolve k) in
    let p := if not_null (LBtree_ptr Llu lk)
             then ps_log p (EvBcForward lk (InX (ii - XK_H D))) else p in
    let nb := lsub 0 - 1 in
    let lptr := BC_HEADER D + LB_DESCRIPTOR D + knsupc in
    let luptr := knsupc in
    dlsum_fmod_inv (InX ii) knsupc k fmod nb lptr luptr p
  else p.

(** Lines 1579-1592: an LSUM message at an inner node of the tree. *)
Definition lsolve_lsum_inner (k lk : Z) (p : pdgstrs_state) : pdgstrs_state :=
  let il := LSUM_BLK D (Llu_ilsum Llu) nrhs lk in
  if (ps_load p frecv lk =? 0) && (ps_load p fmod lk =? 0) then
    let p := ps_store p fmod lk (-1) in
    ps_log p (EvRdForward lk (InLsum (il - LSUM_H D)))
  else p.

(** Lines 1455-1599: a message of the LSUM class. *)
Definition lsolve_recv_lsum (msg : message) (s : lsolve_state) : lsolve_state :=
  let k := hdr msg in
  let nfrecvmod1 := nfrecvmod s - 1 in
  let lk := LBi g k in
  let p := ps_store (ps s) frecv lk (ps_load (ps s) frecv lk - 1) in
  let p := if RdTree_IsRoot (LRtree_ptr Llu lk)
           then lsolve_lsum_root k lk p
           else lsolve_lsum_inner k lk p in
  {| nfrecvx := nfrecvx s; nfrecvmod := nfrecvmod1;
     nfrecvx_buf := nfrecvx_buf s;
     recvbuf0 := nfrecvx_buf s * maxrecvsz; ps := p |}.

(** Lines 1369-1599: the body of the service loop once [MPI_Recv] has
    delivered [msg] into [recvbuf0]. *)
Definition lsolve_recv (msg : message) (s : lsolve_state) : lsolve_state :=
  if MPI_TAG msg <? nsupers then lsolve_recv_x msg s
  else if (nsupers <=? MPI_TAG msg) && (MPI_TAG msg <? nsupers * 2)
       then lsolve_recv_lsum msg s
       else s.

(** [while ( nfrecvx || nfrecvmod )] *)
Definition lsolve_pending (s : lsolve_state) : bool :=
  negb (nfrecvx s =? 0) || negb (nfrecvmod s =? 0).

(** Lines 1356-1600: the service loop, fed with the messages that
    [MPI_Recv] delivers, in their order of arrival.  The result holds the
    messages left undelivered. *)
Fixpoint lsolve_loop (msgs : list message) (s : lsolve_state)
  : loop_status * lsolve_state * list message :=
  if lsolve_pending s then
    match msgs with
    | [] => (Blocked, s, [])
    | m :: ms => lsolve_loop ms (lsolve_recv m s)
    end
  else (Finished, s, msgs).

(** The states in which the loop calls [MPI_Recv], each with the message
    it is then handed. *)
Fixpoint lsolve_receives (msgs : list message) (s : lsolve_state)
  : list (lsolve_state * message) :=
  if lsolve_pending s then
    match msgs with
    | [] => []
    | m :: ms => (s, m) :: lsolve_receives ms (lsolve_recv m s)
    end
  else [].

(** Lines 1645-1660: wait for the sends of every broadcast tree and of
    every reduction tree, then the barrier in front of the backward
    sweep. *)
Definition lsolve_wait_sends (p : pdgstrs_state) : pdgstrs_state :=
  let nsupers_j := CEILING nsupers (npcol g) in
  let nsupers_i := CEILING nsupers (nprow g) in
  let p := for_loop nsupers_j (fun lk p =>
             if not_null (LBtree_ptr Llu lk) then ps_log p (EvBcWait lk) else p) p in
  let p := for_loop nsupers_i (fun lk p =>
             if not_null (LRtree_ptr Llu lk) then ps_log p (EvRdWait lk) else p) p in
  ps_log p EvBarrier.

(** The two wire classes of the forward sweep. *)
Definition is_x_msg (m : message) : bool := MPI_TAG m <? nsupers.
Definition is_lsum_msg (m : message) : bool :=
  (nsupers <=? MPI_TAG m) && (MPI_TAG m <? nsupers * 2).

Definition count_x (msgs : list message) : Z :=
  Z.of_nat (length (filter is_x_msg msgs)).
Definition count_lsum (msgs : list message) : Z :=
  Z.of_nat (length (filter is_lsum_msg msgs)).

(** One iteration took exactly one of the two counters down by one. *)
Definition decrements_exactly_one (s s' : lsolve_state) : Prop :=
  (nfrecvx s' = nfrecvx s - 1 /\ nfrecvmod s' = nfrecvmod s)
  \/ (nfrecvx s' = nfrecvx s /\ nfrecvmod s' = nfrecvmod s - 1).

Lemma lsolve_recv_counters m s :
  nfrecvx (lsolve_recv m s) = (if is_x_msg m then nfrecvx s - 1 else nfrecvx s)
  /\ nfrecvmod (lsolve_recv m s)
     = (if negb (is_x_msg m) && is_lsum_msg m then nfrecvmod s - 1 else nfrecvmod s).
Proof.
  unfold lsolve_recv, is_x_msg, is_lsum_msg.
  destruct (MPI_TAG m <? nsupers); simpl; [split; reflexivity|].
  destruct ((nsupers <=? MPI_TAG m) && (MPI_TAG m <? nsupers * 2)); simpl;
    split; reflexivity.
Qed.

Lemma count_x_cons m ms :
  count_x (m :: ms) = (if is_x_msg m then 1 else 0) + count_x ms.
Proof.
  unfold count_x. cbn [filter]. destruct (is_x_msg m); cbn [length]; lia.
Qed.

Lemma count_lsum_cons m ms :
  count_lsum (m :: ms) = (if is_lsum_msg m then 1 else 0) + count_lsum ms.
Proof.
  unfold count_lsum. cbn [filter]. destruct (is_lsum_msg m); cbn [length]; lia.
Qed.

Lemma count_x_nonneg ms : 0 <= count_x ms.
Proof. unfold count_x. lia. Qed.

Lemma count_lsum_nonneg ms : 0 <= count_lsum ms.
Proof. unfold count_lsum. lia. Qed.

Lemma x_lsum_exclusive m : is_x_msg m = true -> is_lsum_msg m = false.
Proof.
  unfold is_x_msg, is_lsum_msg. intros H. apply Z.ltb_lt in H.
  destruct (Z.leb_spec nsupers (MPI_TAG m)); simpl; [lia|reflexivity].
Qed.

(** ** The service loop runs once per expected message *)

Definition wire_ok (m : message) : Prop := is_x_msg m || is_lsum_msg m = true.

Lemma lsolve_recv_wire_ok m s :
  wire_ok m -> decrements_exactly_one s (lsolve_recv m s).
Proof.
  unfold wire_ok, decrements_exactly_one. intros Hw.
  destruct (lsolve_recv_counters m s) as [Hx Hl]. rewrite Hx, Hl.
  destruct (is_x_msg m) eqn:Ex; simpl in *.
  - left. split; reflexivity.
  - rewrite Hw. right. split; reflexivity.
Qed.

Lemma lsolve_pending_true s :
  lsolve_pending s = true <-> nfrecvx s <> 0 \/ nfrecvmod s <> 0.
Proof.
  unfold lsolve_pending.
  destruct (Z.eqb_spec (nfrecvx s) 0), (Z.eqb_spec (nfrecvmod s) 0); simpl;
    split; intros H; try reflexivity; try discriminate; try tauto; try lia.
Qed.

Lemma lsolve_loop_run msgs : forall rest s,
  Forall wire_ok msgs ->
  count_x msgs = nfrecvx s -> count_lsum msgs = nfrecvmod s ->
  exists s', lsolve_loop (msgs ++ rest) s = (Finished, s', rest)
             /\ nfrecvx s' = 0 /\ nfrecvmod s' = 0
             /\ length (lsolve_receives (msgs ++ rest) s) = length msgs
             /\ forall t m, In (t, m) (lsolve_receives (msgs ++ rest) s) ->
                   (0 < nfrecvx t \/ 0 < nfrecvmod t)
                   /\ decrements_exactly_one t (lsolve_recv m t).
Proof.
  induction msgs as [|m ms IH]; intros rest s Hw Hx Hl.
  - assert (Hp : lsolve_pending s = false).
    { unfold lsolve_pending. rewrite <- Hx, <- Hl. reflexivity. }
    exists s. simpl.
    assert (Hr : lsolve_receives rest s = []).
    { destruct rest; simpl; now rewrite Hp. }
    rewrite Hr.
    split; [destruct rest; simpl; now rewrite Hp|].
    split; [now symmetry|]. split; [now symmetry|]. split; [reflexivity|].
    intros t m0 [].
  - inversion Hw as [|? ? Hm Hms]; subst.
    rewrite count_x_cons in Hx. rewrite count_lsum_cons in Hl.
    pose proof (count_x_nonneg ms). pose proof (count_lsum_nonneg ms).
    assert (Hp : lsolve_pending s = true).
    { apply lsolve_pending_true. unfold wire_ok in Hm.
      destruct (is_x_msg m); [left; lia|]. simpl in Hm. rewrite Hm in Hl.
      right; lia. }
    destruct (lsolve_recv_counters m s) as [Hx' Hl'].
    assert (Hx1 : count_x ms = nfrecvx (lsolve_recv m s)).
    { rewrite Hx'. destruct (is_x_msg m); lia. }
    assert (Hl1 : count_lsum ms = nfrecvmod (lsolve_recv m s)).
    { rewrite Hl'. destruct (is_x_msg m) eqn:Ex; simpl.
      - rewrite (x_lsum_exclusive _ Ex) in Hl. lia.
      - unfold wire_ok in Hm. rewrite Ex in Hm. simpl in Hm. rewrite Hm in *. lia. }
    destruct (IH rest _ Hms Hx1 Hl1) as [s' [Hrun [Hz0 [Hz1 [Hlen Hrec]]]]].
    exists s'. cbn [app lsolve_loop lsolve_receives]. rewrite Hp.
    split; [exact Hrun|]. split; [exact Hz0|]. split; [exact Hz1|].
    split; [cbn [length]; now rewrite Hlen|].
    intros t m0 [Heq|Hin]; [|now apply Hrec].
    inversion Heq; subst. split; [|now apply lsolve_recv_wire_ok].
    unfold wire_ok in Hm. destruct (is_x_msg m0); [left; lia|].
    simpl in Hm. rewrite Hm in Hl. right; lia.
Qed.

Lemma for_loop_log n (c : Z -> bool) (e : Z -> event) p :
  trace (for_loop n (fun lk p => if c lk then ps_log p (e lk) else p) p)
  = trace p ++ map e (filter c (range n)).
Proof.
  unfold for_loop. generalize (range n). intros l. revert p.
  induction l as [|x l IH]; intros p; simpl.
  - now rewrite app_nil_r.
  - rewrite IH. destruct (c x); simpl; [|reflexivity].
    now rewrite <- app_assoc.
Qed.

Lemma lsolve_wait_sends_trace p :
  trace (lsolve_wait_sends p)
  = trace p
    ++ map EvBcWait (filter (fun lk => not_null (LBtree_ptr Llu lk))
                            (range (CEILING nsupers (npcol g))))
    ++ map EvRdWait (filter (fun lk => not_null (LRtree_ptr Llu lk))
                            (range (CEILING nsupers (nprow g))))
    ++ [EvBarrier].
Proof.
  unfold lsolve_wait_sends. simpl. rewrite !for_loop_log.
  now rewrite <- !app_assoc.
Qed.


(** ** The forward receive buffer *)

(** An X message whose header word is its tag (the wire format of the
    broadcast: block number in both places). *)
Definition hdr_is_tag (m : message) : Prop :=
  is_x_msg m = true -> hdr m = MPI_TAG m.

Lemma lsolve_recv_buf m s :
  0 <= maxrecvsz -> 0 <= nfrecvx_buf s ->
  0 <= recvbuf0 s <= nfrecvx_buf s * maxrecvsz ->
  let s' := lsolve_recv m s in
  (nfrecvx_buf s' = nfrecvx_buf s + 1 /\ is_x_msg m = true
     /\ BcTree_getDestCount (LBtree_ptr Llu (LBj g (MPI_TAG m))) > 0
   \/ nfrecvx_buf s' = nfrecvx_buf s)
  /\ 0 <= recvbuf0 s' <= nfrecvx_buf s' * maxrecvsz
  /\ (hdr_is_tag m -> recvbuf0 s = nfrecvx_buf s * maxrecvsz ->
      recvbuf0 s' = nfrecvx_buf s' * maxrecvsz).
Proof.
  intros Hm Hb Hr. unfold lsolve_recv, hdr_is_tag, is_x_msg.
  destruct (MPI_TAG m <? nsupers) eqn:Ex.
  - unfold lsolve_recv_x. cbn [nfrecvx_buf recvbuf0].
    destruct (Z.gtb_spec (BcTree_getDestCount (LBtree_ptr Llu (LBj g (MPI_TAG m)))) 0)
      as [Hd|Hd].
    + split; [left; repeat split; lia|].
      split.
      * destruct (_ >? 0); nia.
      * intros Hh Heq. rewrite (Hh eq_refl).
        destruct (Z.gtb_spec (BcTree_getDestCount (LBtree_ptr Llu (LBj g (MPI_TAG m)))) 0);
          [reflexivity|lia].
    + split; [right; reflexivity|].
      split.
      * destruct (_ >? 0); nia.
      * intros Hh Heq. rewrite (Hh eq_refl).
        destruct (Z.gtb_spec (BcTree_getDestCount (LBtree_ptr Llu (LBj g (MPI_TAG m)))) 0);
          [lia|exact Heq].
  - destruct ((nsupers <=? MPI_TAG m) && (MPI_TAG m <? nsupers * 2)).
    + unfold lsolve_recv_lsum. cbn [nfrecvx_buf recvbuf0].
      split; [right; reflexivity|]. split; [nia|]. intros _ _. reflexivity.
    + split; [right; reflexivity|]. split; [exact Hr|]. intros _ H. exact H.
Qed.

Lemma lsolve_buf_invariant msgs : forall s N,
  0 <= maxrecvsz -> 0 <= nfrecvx_buf s ->
  nfrecvx_buf s + count_x msgs <= N ->
  0 <= recvbuf0 s <= nfrecvx_buf s * maxrecvsz ->
  (forall t m, In (t, m) (lsolve_receives msgs s) ->
     0 <= nfrecvx_buf t <= N
     /\ 0 <= recvbuf0 t <= nfrecvx_buf t * maxrecvsz
     /\ (nfrecvx_buf (lsolve_recv m t) = nfrecvx_buf t + 1 /\ is_x_msg m = true
          /\ BcTree_getDestCount (LBtree_ptr Llu (LBj g (MPI_TAG m))) > 0
         \/ nfrecvx_buf (lsolve_recv m t) = nfrecvx_buf t)
     /\ (Forall hdr_is_tag msgs -> recvbuf0 s = nfrecvx_buf s * maxrecvsz ->
         recvbuf0 t = nfrecvx_buf t * maxrecvsz))
  /\ (forall st s' rest, lsolve_loop msgs s = (st, s', rest) ->
        0 <= nfrecvx_buf s' <= N).
Proof.
  induction msgs as [|m ms IH]; intros s N Hm Hb Hc Hr.
  - split.
    + simpl. destruct (lsolve_pending s); intros t m [].
    + simpl. pose proof (count_x_nonneg []).
      destruct (lsolve_pending s); intros st s' rest Heq; inversion Heq; subst; lia.
  - rewrite count_x_cons in Hc. pose proof (count_x_nonneg ms) as Hnn.
    destruct (lsolve_recv_buf m s Hm Hb Hr) as [Hstep [Hr' Hex]].
    cbv zeta in Hstep, Hr', Hex.
    assert (Hb' : 0 <= nfrecvx_buf (lsolve_recv m s)).
    { destruct Hstep as [[-> _]| ->]; lia. }
    assert (Hc' : nfrecvx_buf (lsolve_recv m s) + count_x ms <= N).
    { assert (0 <= (if is_x_msg m then 1 else 0)) by (destruct (is_x_msg m); lia).
      destruct Hstep as [[-> [Ex _]]| ->]; [rewrite Ex in Hc; lia|lia]. }
    destruct (IH _ N Hm Hb' Hc' Hr') as [IH1 IH2].
    split.
    + cbn [lsolve_receives]. destruct (lsolve_pending s); [|intros t m0 []].
      intros t m0 [Heq|Hin].
      * inversion Heq; subst.
        assert (0 <= (if is_x_msg m0 then 1 else 0)) by (destruct (is_x_msg m0); lia).
        split; [lia|].
        split; [exact Hr|]. split; [exact Hstep|]. intros _ Hq. exact Hq.
      * destruct (IH1 _ _ Hin) as [A [B [C E]]].
        split; [exact A|]. split; [exact B|]. split; [exact C|].
        intros HF Heq. inversion HF; subst. apply E; [assumption|].
        now apply Hex.
    + cbn [lsolve_loop]. destruct (lsolve_pending s).
      * intros st s' rest Heq. eapply IH2; eassumption.
      * intros st s' rest Heq. inversion Heq; subst.
        assert (0 <= (if is_x_msg m then 1 else 0)) by (destruct (is_x_msg m); lia).
        lia.
Qed.


(** ** The counters fmod and frecv along the service loop *)

Lemma ps_load_store p b i v b' i' :
  ps_load (ps_store p b i v) b' i'
  = if (b' =? b) && (i' =? i) then v else ps_load p b' i'.
Proof. unfold ps_load, ps_store. simpl. apply load_store. Qed.

Lemma ps_load_log p e b i : ps_load (ps_log p e) b i = ps_load p b i.
Proof. reflexivity. Qed.

(** Any run of iterations of the loop body, whatever the loop
    condition: the states the service loop goes through are among
    these. *)
Definition lsolve_run (msgs : list message) (s : lsolve_state) : lsolve_state :=
  fold_left (fun s m => lsolve_recv m s) msgs s.

(** The LSUM messages among [msgs] that are for local block row [lk]. *)
Definition lsum_msgs_for (lk : Z) (msgs : list message) : Z :=
  Z.of_nat (length (filter (fun m => negb (is_x_msg m) && is_lsum_msg m
                                     && (LBi g (hdr m) =? lk)) msgs)).

(** The test of line 1469, evaluated as the code does, after the
    decrement of [frecv[lk]] of line 1458, at the root of the reduction
    tree: the diagonal solve of the block fires in this iteration. *)
Definition diag_solve_fires (m : message) (s : lsolve_state) : bool :=
  let lk := LBi g (hdr m) in
  let p := ps_store (ps s) frecv lk (ps_load (ps s) frecv lk - 1) in
  negb (is_x_msg m) && is_lsum_msg m
  && RdTree_IsRoot (LRtree_ptr Llu lk)
  && ((ps_load p frecv lk =? 0) && (ps_load p fmod lk =? 0)).

(** What is assumed of the absent [dlsum_fmod_inv]: of the integer
    store it writes only the block [fmod] it is handed, and it never
    raises an entry of it. *)
Definition dlsum_frame : Prop :=
  forall xk knsupc k nb lptr luptr p q i, q <> fmod ->
    ps_load (dlsum_fmod_inv xk knsupc k fmod nb lptr luptr p) q i = ps_load p q i.
Definition dlsum_nonincreasing : Prop :=
  forall xk knsupc k nb lptr luptr p i,
    ps_load (dlsum_fmod_inv xk knsupc k fmod nb lptr luptr p) fmod i
    <= ps_load p fmod i.

Section Counters.

Hypothesis fmod_frecv : fmod <> frecv.
Hypothesis Hframe : dlsum_frame.
Hypothesis Hmono : dlsum_nonincreasing.

Lemma lsolve_recv_x_counters m s i :
  ps_load (ps (lsolve_recv_x m s)) fmod i <= ps_load (ps s) fmod i
  /\ ps_load (ps (lsolve_recv_x m s)) frecv i = ps_load (ps s) frecv i.
Proof.
  unfold lsolve_recv_x. cbn [ps].
  destruct (BcTree_getDestCount (LBtree_ptr Llu (LBj g (MPI_TAG m))) >? 0);
    destruct (Lrowind_bc_ptr Llu (LBj g (hdr m)));
    (split;
     [ try (eapply Z.le_trans; [apply Hmono|]); rewrite ?ps_load_log; lia
     | try (rewrite Hframe by congruence); rewrite ?ps_load_log; reflexivity ]).
Qed.

Lemma lsolve_lsum_root_counters k lk p i :
  ps_load (lsolve_lsum_root k lk p) fmod i <= ps_load p fmod i
  /\ ps_load (lsolve_lsum_root k lk p) frecv i = ps_load p frecv i.
Proof.
  unfold lsolve_lsum_root.
  destruct (Z.eqb_spec (ps_load p frecv lk) 0) as [Hf|Hf]; simpl; [|split; lia].
  destruct (Z.eqb_spec (ps_load p fmod lk) 0) as [Hm|Hm]; simpl; [|split; lia].
  split.
  - eapply Z.le_trans; [apply Hmono|].
    destruct (not_null _); rewrite ?ps_load_log, ps_load_store, Z.eqb_refl; simpl;
      (destruct (Z.eqb_spec i lk); [subst; lia|lia]).
  - rewrite Hframe by congruence.
    destruct (not_null _); rewrite ?ps_load_log, ps_load_store;
      (destruct (Z.eqb_spec frecv fmod); [congruence|reflexivity]).
Qed.

Lemma lsolve_lsum_inner_counters k lk p i :
  ps_load (lsolve_lsum_inner k lk p) fmod i <= ps_load p fmod i
  /\ ps_load (lsolve_lsum_inner k lk p) frecv i = ps_load p frecv i.
Proof.
  unfold lsolve_lsum_inner.
  destruct (Z.eqb_spec (ps_load p frecv lk) 0) as [Hf|Hf]; simpl; [|split; lia].
  destruct (Z.eqb_spec (ps_load p fmod lk) 0) as [Hm|Hm]; simpl; [|split; lia].
  rewrite !ps_load_log, !ps_load_store, Z.eqb_refl. simpl.
  destruct (Z.eqb_spec frecv fmod); [congruence|]. simpl.
  split; [|reflexivity]. destruct (Z.eqb_spec i lk); [subst; lia|lia].
Qed.

Lemma lsolve_recv_lsum_counters m s i :
  ps_load (ps (lsolve_recv_lsum m s)) fmod i <= ps_load (ps s) fmod i
  /\ ps_load (ps (lsolve_recv_lsum m s)) frecv i
     = ps_load (ps s) frecv i - (if LBi g (hdr m) =? i then 1 else 0).
Proof.
  unfold lsolve_recv_lsum. cbn [ps].
  set (lk := LBi g (hdr m)).
  set (p0 := ps_store (ps s) frecv lk (ps_load (ps s) frecv lk - 1)).
  assert (E1 : ps_load p0 fmod i = ps_load (ps s) fmod i).
  { unfold p0. rewrite ps_load_store.
    destruct (Z.eqb_spec fmod frecv); [congruence|reflexivity]. }
  assert (E2 : ps_load p0 frecv i
               = ps_load (ps s) frecv i - (if lk =? i then 1 else 0)).
  { unfold p0. rewrite ps_load_store, Z.eqb_refl. simpl.
    rewrite (Z.eqb_sym lk i). destruct (Z.eqb_spec i lk); [subst; lia|lia]. }
  destruct (RdTree_IsRoot _).
  - destruct (lsolve_lsum_root_counters (hdr m) lk p0 i) as [A B]. split; lia.
  - destruct (lsolve_lsum_inner_counters (hdr m) lk p0 i) as [A B]. split; lia.
Qed.

Lemma lsolve_recv_step_counters m s i :
  ps_load (ps (lsolve_recv m s)) fmod i <= ps_load (ps s) fmod i
  /\ ps_load (ps (lsolve_recv m s)) frecv i
     = ps_load (ps s) frecv i
       - (if negb (is_x_msg m) && is_lsum_msg m && (LBi g (hdr m) =? i)
          then 1 else 0).
Proof.
  unfold lsolve_recv, is_x_msg, is_lsum_msg.
  destruct (MPI_TAG m <? nsupers); cbn [negb andb].
  - destruct (lsolve_recv_x_counters m s i). split; lia.
  - destruct ((nsupers <=? MPI_TAG m) && (MPI_TAG m <? nsupers * 2)); cbn [andb].
    + apply lsolve_recv_lsum_counters.
    + split; lia.
Qed.

Lemma lsolve_run_counters msgs : forall s i,
  ps_load (ps (lsolve_run msgs s)) fmod i <= ps_load (ps s) fmod i
  /\ ps_load (ps (lsolve_run msgs s)) frecv i
     = ps_load (ps s) frecv i - lsum_msgs_for i msgs.
Proof.
  induction msgs as [|m ms IH]; intros s i.
  - unfold lsum_msgs_for. simpl. split; lia.
  - cbn [lsolve_run fold_left]. fold (lsolve_run ms (lsolve_recv m s)).
    destruct (IH (lsolve_recv m s) i) as [A B].
    destruct (lsolve_recv_step_counters m s i) as [A' B'].
    split; [lia|]. rewrite B, B'. unfold lsum_msgs_for. cbn [filter].
    destruct (negb (is_x_msg m) && is_lsum_msg m && (LBi g (hdr m) =? i));
      cbn [length]; lia.
Qed.

Lemma diag_solve_fires_spec m s :
  diag_solve_fires m s = true <->
  is_x_msg m = false /\ is_lsum_msg m = true
  /\ RdTree_IsRoot (LRtree_ptr Llu (LBi g (hdr m))) = true
  /\ ps_load (ps s) frecv (LBi g (hdr m)) - 1 = 0
  /\ ps_load (ps s) fmod (LBi g (hdr m)) = 0.
Proof.
  unfold diag_solve_fires. rewrite !andb_true_iff, negb_true_iff.
  rewrite !ps_load_store, !Z.eqb_refl. simpl.
  destruct (Z.eqb_spec fmod frecv); [congruence|]. simpl.
  rewrite !Z.eqb_eq. tauto.
Qed.

Lemma diag_solve_fires_marks m s :
  diag_solve_fires m s = true ->
  ps_load (ps (lsolve_recv m s)) fmod (LBi g (hdr m)) <= -1
  /\ exists p1,
       In (EvSolve (hdr m)) (trace p1)
       /\ ps_load p1 fmod (LBi g (hdr m)) = -1
       /\ ps_load p1 frecv (LBi g (hdr m)) = 0
       /\ ps (lsolve_recv m s)
          = dlsum_fmod_inv
              (InX (X_BLK D (Llu_ilsum Llu) nrhs (LBi g (hdr m))))
              (SuperSize G (hdr m)) (hdr m) fmod
              (deref (Lrowind_bc_ptr Llu (LBj g (hdr m))) 0 - 1)
              (BC_HEADER D + LB_DESCRIPTOR D + SuperSize G (hdr m))
              (SuperSize G (hdr m)) p1.
Proof.
  intros Hf. pose proof Hf as Hf'. apply diag_solve_fires_spec in Hf'.
  destruct Hf' as [Ex [El [Hroot [Hfr Hfm]]]].
  unfold diag_solve_fires in Hf. rewrite !andb_true_iff in Hf.
  destruct Hf as [_ Hchk].
  assert (Hshape : exists p1,
       In (EvSolve (hdr m)) (trace p1)
       /\ ps_load p1 fmod (LBi g (hdr m)) = -1
       /\ ps_load p1 frecv (LBi g (hdr m)) = 0
       /\ ps (lsolve_recv m s)
          = dlsum_fmod_inv
              (InX (X_BLK D (Llu_ilsum Llu) nrhs (LBi g (hdr m))))
              (SuperSize G (hdr m)) (hdr m) fmod
              (deref (Lrowind_bc_ptr Llu (LBj g (hdr m))) 0 - 1)
              (BC_HEADER D + LB_DESCRIPTOR D + SuperSize G (hdr m))
              (SuperSize G (hdr m)) p1).
  { unfold lsolve_recv. unfold is_x_msg in Ex. rewrite Ex.
    unfold is_lsum_msg in El. rewrite El.
    unfold lsolve_recv_lsum. cbn [ps]. rewrite Hroot.
    unfold lsolve_lsum_root.
    destruct Hchk as [C1 C2]. rewrite C1, C2.
    cbn [andb].
    eexists. split; [|split; [|split; [|reflexivity]]].
    - destruct (not_null _); cbn [ps_log trace]; rewrite ?in_app_iff; simpl; tauto.
    - destruct (not_null _); rewrite ?ps_load_log, ps_load_store, !Z.eqb_refl;
        reflexivity.
    - destruct (not_null _); rewrite ?ps_load_log, !ps_load_store, !Z.eqb_refl;
        simpl; (destruct (Z.eqb_spec frecv fmod); [congruence|]); simpl; lia. }
  split; [|exact Hshape].
  destruct Hshape as [p1 [_ [Hm1 [_ Heq]]]]. rewrite Heq.
  eapply Z.le_trans; [apply Hmono|]. lia.
Qed.

End Counters.


(** ** A model of dlsum_fmod_inv *)

(** Modelled from the spec: [dlsum_fmod_inv] of pdgstrs_lsum.c is not
    under src/.  For each local block row i of the panel of k it applies
    the update to lsum and decrements FMOD[li]; an update that completes
    a block (FMOD[li] and FRECV[li] both zero) sets FMOD[li] to -1 and,
    on the diagonal process, solves the block, starts its broadcast and
    performs its own panel updates in turn; elsewhere it sends the
    partial sum up the reduction tree (see also the sketch at the head of
    pdgstrs.c).  The panel is walked through the index array [lsub]:
    each block is described by its global number and its row count,
    followed by its row indices.  [fuel] bounds the depth of the
    recursion, which follows the elimination order; with none left the
    state is returned as it is. *)
Fixpoint dlsum_fmod_inv_model (fuel : nat) (xk : bufsrc)
    (knsupc k fmodp nb lptr luptr : Z) (p : pdgstrs_state) : pdgstrs_state :=
  match fuel with
  | O => p
  | S fuel' =>
      let lsub := deref (Lrowind_bc_ptr Llu (LBj g k)) in
      snd (for_loop nb (fun _ (st : Z * pdgstrs_state) =>
        let lptr := fst st in
        let p := snd st in
        let ik := lsub lptr in
        let nbrow := lsub (lptr + 1) in
        let lk := LBi g ik in
        let iknsupc := SuperSize G ik in
        let il := LSUM_BLK D (Llu_ilsum Llu) nrhs lk in
        let p := ps_store p fmodp lk (ps_load p fmodp lk - 1) in
        let p :=
          if ps_load p fmodp lk =? 0 then
            let ikcol := PCOL g ik in
            let pn := PNUM g (MYROW g (iam g)) ikcol in
            if negb (iam g =? pn) then
              if ps_load p (Llu_frecv p) lk =? 0 then
                let p := ps_store p fmodp lk (-1) in
                ps_log p (EvRdForward lk (InLsum (il - LSUM_H D)))
              else p
            else
              let ii := X_BLK D (Llu_ilsum Llu) nrhs lk in
              if ps_load p (Llu_frecv p) lk =? 0 then
                let p := ps_store p fmodp lk (-1) in
                let p := ps_log p (EvSolve ik) in
                let lk1 := LBj g ik in
                let lsub1 := deref (Lrowind_bc_ptr Llu lk1) in
                let p := if not_null (LBtree_ptr Llu lk1)
                         then ps_log p (EvBcForward lk1 (InX (ii - XK_H D)))
                         else p in
                dlsum_fmod_inv_model fuel' (InX ii) iknsupc ik fmodp
                  (lsub1 0 - 1) (BC_HEADER D + LB_DESCRIPTOR D + iknsupc)
                  iknsupc p
              else p
          else p in
        (lptr + LB_DESCRIPTOR D + nbrow, p)) (lptr, p))
  end.

Lemma dlsum_fmod_inv_model_counters fuel :
  forall xk knsupc k fmodp nb lptr luptr p,
  (forall q i, q <> fmodp ->
     ps_load (dlsum_fmod_inv_model fuel xk knsupc k fmodp nb lptr luptr p) q i
     = ps_load p q i)
  /\ (forall i,
        ps_load (dlsum_fmod_inv_model fuel xk knsupc k fmodp nb lptr luptr p) fmodp i
        <= ps_load p fmodp i).
Proof.
  induction fuel as [|fuel IH]; intros xk knsupc k fmodp nb lptr luptr p.
  - simpl. split; intros; lia.
  - cbn [dlsum_fmod_inv_model]. unfold for_loop.
    generalize (range nb). intros l. generalize lptr. revert p.
    induction l as [|x l IHl]; intros p lp.
    + simpl. split; intros; lia.
    + cbn [fold_left].
      match goal with
      | |- context [fold_left ?f l (?a, ?b)] =>
          destruct (IHl b a) as [F M]; set (p' := b) in *
      end.
      assert (Step :
        (forall q i, q <> fmodp -> ps_load p' q i = ps_load p q i)
        /\ (forall i, ps_load p' fmodp i <= ps_load p fmodp i)).
      { unfold p'. cbn [fst snd].
        set (ik := deref (Lrowind_bc_ptr Llu (LBj g k)) lp).
        set (lk := LBi g ik).
        set (p0 := ps_store p fmodp lk (ps_load p fmodp lk - 1)).
        assert (F0 : forall q i, q <> fmodp -> ps_load p0 q i = ps_load p q i).
        { intros q i Hq. unfold p0. rewrite ps_load_store.
          destruct (Z.eqb_spec q fmodp); [congruence|reflexivity]. }
        assert (M0 : forall i, ps_load p0 fmodp i <= ps_load p fmodp i).
        { intros i. unfold p0. rewrite ps_load_store, Z.eqb_refl. simpl.
          destruct (Z.eqb_spec i lk); [subst; lia|lia]. }
        destruct (Z.eqb_spec (ps_load p0 fmodp lk) 0) as [Hz|Hz]; [|split; assumption].
        assert (F1 : forall q i, q <> fmodp ->
                  ps_load (ps_store p0 fmodp lk (-1)) q i = ps_load p q i).
        { intros q i Hq. rewrite ps_load_store.
          destruct (Z.eqb_spec q fmodp); [congruence|]. now apply F0. }
        assert (M1 : forall i,
                  ps_load (ps_store p0 fmodp lk (-1)) fmodp i <= ps_load p fmodp i).
        { intros i. rewrite ps_load_store, Z.eqb_refl. simpl.
          destruct (Z.eqb_spec i lk); [subst; specialize (M0 lk); lia|apply M0]. }
        destruct (negb (iam g =? PNUM g (MYROW g (iam g)) (PCOL g ik))).
        - destruct (ps_load p0 (Llu_frecv p0) lk =? 0); [|split; assumption].
          split; intros; rewrite ps_load_log; auto.
        - destruct (ps_load p0 (Llu_frecv p0) lk =? 0); [|split; assumption].
          match goal with
          | |- context [dlsum_fmod_inv_model fuel ?a ?b ?c ?d ?e ?f ?h ?pp] =>
              destruct (IH a b c d e f h pp) as [F2 M2]; set (p2 := pp) in *
          end.
          assert (E2 : forall q i,
                    ps_load p2 q i = ps_load (ps_store p0 fmodp lk (-1)) q i).
          { intros q i. unfold p2. destruct (not_null _); reflexivity. }
          split.
          + intros q i Hq. rewrite F2 by assumption. rewrite E2. now apply F1.
          + intros i. eapply Z.le_trans; [apply M2|]. rewrite E2. apply M1. }
      destruct Step as [Fs Ms]. split.
      * intros q i Hq. rewrite F by assumption. now apply Fs.
      * intros i. eapply Z.le_trans; [apply M|]. apply Ms.
Qed.

End ForwardSweep.

(* ================================================================== *)
(** * pdgstrs: the backward sweep (lines 1866-2132) *)
(* ================================================================== *)

Definition ps_next_req (p : pdgstrs_state) : pdgstrs_state :=
  {| heap := heap p; info := info p;
     Llu_frecv := Llu_frecv p; Llu_brecv := Llu_brecv p;
     Llu_SolveMsgSent := Llu_SolveMsgSent p + 1; trace := trace p |}.

(** The local variables of [pdgstrs] that drive the backward sweep. *)
Record usolve_state : Type :=
  { nbrecvx : Z;
    nbrecvmod : Z;
    nroot : Z;
    ups : pdgstrs_state }.

Section BackwardSweep.

Variable D : superlu_defs.
Variable g : gridinfo_t.
Variable G : Glu_persist_t.
Variable Llu : LocalLU_t.
Variable nsupers : Z.
Variable nrhs : Z.

(** The local pointers [bmod], [brecv] and [Urbs], as block ids. *)
Variable bmod : Z.
Variable brecv : Z.
Variable Urbs : Z.

(** [dlsum_bmod_inv] lives in pdgstrs_lsum.c, which is not part of the
    sources at hand.  It is a parameter: called with the buffer holding
    X[k], [k] and the pointers [bmod] and [Urbs], it transforms the
    process state. *)
Variable dlsum_bmod_inv : bufsrc -> Z -> Z -> Z -> pdgstrs_state -> pdgstrs_state.

(** Lines 1924-1959 and 2080-2111: send X[k] to the processes of the
    column that need it, each message with the tag [Xk]. *)
Definition bsend_x (lk kcol ii : Z) (p : pdgstrs_state) : pdgstrs_state :=
  for_loop (nprow g) (fun pr p =>
    if negb (bsendx_plist Llu lk pr =? EMPTY D) then
      let pi := PNUM g pr kcol in
      ps_next_req (ps_log p (EvIsend (InX (ii - XK_H D)) pi (Xk D)))
    else p) p.

(** The diagonal solve of block [k] in the backward sweep, with what
    follows it: lines 1873-1966 and 2031-2119. *)
Definition usolve_block (k lk : Z) (p : pdgstrs_state) : pdgstrs_state :=
  let p := ps_store p bmod lk (-1) in
  let ii := X_BLK D (Llu_ilsum Llu) nrhs lk in
  let lk := LBj g k in
  let p := ps_log p (EvSolve k) in
  let kcol := PCOL g k in
  let p := bsend_x lk kcol ii p in
  if negb (ps_load p Urbs lk =? 0)
  then dlsum_bmod_inv (InX ii) k bmod Urbs p
  else p.

(** Lines 1866-1969: solve the roots, from the last supernode down,
    as long as roots remain. *)
Definition usolve_roots (s : usolve_state) : usolve_state :=
  let myrow := MYROW g (iam g) in
  let mycol := MYCOL g (iam g) in
  for_loop nsupers (fun t s =>
    let k := nsupers - 1 - t in
    if negb (nroot s =? 0) then
      let krow := PROW g k in
      let kcol := PCOL g k in
      if (myrow =? krow) && (mycol =? kcol) then
        let lk := LBi g k in
        if (ps_load (ups s) brecv lk =? 0) && (ps_load (ups s) bmod lk =? 0) then
          {| nbrecvx := nbrecvx s; nbrecvmod := nbrecvmod s;
             nroot := nroot s - 1; ups := usolve_block k lk (ups s) |}
        else s
      else s
    else s) s.

(** Lines 1988-2130: the body of the backward service loop once
    [MPI_Recv] has delivered [msg]; the [switch] on the tag has the two
    cases [Xk] and [LSUM]. *)
Definition usolve_recv (msg : message) (s : usolve_state) : usolve_state :=
  let p := ps_log (ups s) EvRecvU in
  let k := hdr msg in
  if MPI_TAG msg =? Xk D then
    {| nbrecvx := nbrecvx s - 1; nbrecvmod := nbrecvmod s; nroot := nroot s;
       ups := dlsum_bmod_inv (InRecvbuf (XK_H D)) k bmod Urbs p |}
  else if MPI_TAG msg =? LSUM D then
    let lk := LBi g k in
    let p := ps_store p brecv lk (ps_load p brecv lk - 1) in
    let p := if (ps_load p brecv lk =? 0) && (ps_load p bmod lk =? 0)
             then usolve_block k lk p else p in
    {| nbrecvx := nbrecvx s; nbrecvmod := nbrecvmod s - 1; nroot := nroot s;
       ups := p |}
  else
    {| nbrecvx := nbrecvx s; nbrecvmod := nbrecvmod s; nroot := nroot s;
       ups := p |}.

(** [while ( nbrecvx || nbrecvmod )] *)
Definition usolve_pending (s : usolve_state) : bool :=
  negb (nbrecvx s =? 0) || negb (nbrecvmod s =? 0).

Fixpoint usolve_loop (msgs : list message) (s : usolve_state)
  : loop_status * usolve_state * list message :=
  if usolve_pending s then
    match msgs with
    | [] => (Blocked, s, [])
    | m :: ms => usolve_loop ms (usolve_recv m s)
    end
  else (Finished, s, msgs).

(** The sends of the backward sweep: tag [Xk], buffer at the header of
    the X block. *)
Lemma bsend_x_trace lk kcol ii p :
  trace (bsend_x lk kcol ii p)
  = trace p
    ++ map (fun pr => EvIsend (InX (ii - XK_H D)) (PNUM g pr kcol) (Xk D))
           (filter (fun pr => negb (bsendx_plist Llu lk pr =? EMPTY D))
                   (range (nprow g))).
Proof.
  unfold bsend_x, for_loop. generalize (range (nprow g)). intros l. revert p.
  induction l as [|x l IH]; intros p; simpl.
  - now rewrite app_nil_r.
  - rewrite IH. destruct (bsendx_plist Llu lk x =? EMPTY D); simpl; [reflexivity|].
    now rewrite <- app_assoc.
Qed.

Lemma bsend_x_load lk kcol ii p b i :
  ps_load (bsend_x lk kcol ii p) b i = ps_load p b i.
Proof.
  unfold bsend_x, for_loop. generalize (range (nprow g)). intros l. revert p.
  induction l as [|x l IH]; intros p; simpl; [reflexivity|].
  rewrite IH. destruct (negb _); reflexivity.
Qed.

End BackwardSweep.

(* ================================================================== *)
(** * Message classes of the two sweeps *)
(* ================================================================== *)

Section LsumHeaders.

Variable V : Type.
Variable of_int : Z -> V.

(** Lines 973-984: set up the headers in [lsum]. *)
Definition lsum_set_headers (D : superlu_defs) (g : gridinfo_t) (Llu : LocalLU_t)
    (nsupers nrhs : Z) (lsum : array V) : array V :=
  let myrow := MYROW g (iam g) in
  for_loop nsupers (fun k lsum =>
    let krow := PROW g k in
    if myrow =? krow then
      let lk := LBi g k in
      let il := LSUM_BLK D (Llu_ilsum Llu) nrhs lk in
      upd lsum (il - LSUM_H D) (of_int k)
    else lsum) lsum.

Lemma lsum_set_headers_spec D g Llu nsupers nrhs lsum k :
  0 <= k < nsupers -> MYROW g (iam g) = PROW g k ->
  (forall k', 0 <= k' < nsupers -> MYROW g (iam g) = PROW g k' ->
     LSUM_BLK D (Llu_ilsum Llu) nrhs (LBi g k') = LSUM_BLK D (Llu_ilsum Llu) nrhs (LBi g k) ->
     k' = k) ->
  lsum_set_headers D g Llu nsupers nrhs lsum
    (LSUM_BLK D (Llu_ilsum Llu) nrhs (LBi g k) - LSUM_H D) = of_int k.
Proof.
  intros Hk Hrow Hinj. unfold lsum_set_headers.
  set (a := LSUM_BLK D (Llu_ilsum Llu) nrhs (LBi g k) - LSUM_H D).
  apply (for_loop_inv
    (fun n (l : array V) => k < n -> l a = of_int k)); try lia.
  intros i t Hi IH Hlt.
  destruct (Z.eqb_spec (MYROW g (iam g)) (PROW g i)) as [Hr|Hr].
  - destruct (Z.eq_dec i k) as [->|Hne]; [apply upd_same|].
    rewrite upd_other; [apply IH; lia|].
    unfold a. intros Heq. apply Hne. apply Hinj; [lia|assumption|lia].
  - apply IH. destruct (Z.eq_dec i k); [subst; congruence|lia].
Qed.

End LsumHeaders.

Arguments lsum_set_headers {V}.

Section MessageClasses.

Variable D : superlu_defs.
Variable g : gridinfo_t.
Variable G : Glu_persist_t.
Variable Llu : LocalLU_t.
Variables nsupers nrhs maxrecvsz : Z.
Variables fmod frecv bmod brecv Urbs : Z.
Variable dlsum_fmod_inv :
  bufsrc -> Z -> Z -> Z -> Z -> Z -> Z -> pdgstrs_state -> pdgstrs_state.
Variable dlsum_bmod_inv : bufsrc -> Z -> Z -> Z -> pdgstrs_state -> pdgstrs_state.
Variable V : Type.
Variable of_int : Z -> V.

Local Abbreviation recvL :=
  (lsolve_recv D g G Llu nsupers nrhs maxrecvsz fmod frecv dlsum_fmod_inv).
Local Abbreviation recvL_x := (lsolve_recv_x D g G Llu maxrecvsz fmod dlsum_fmod_inv).
Local Abbreviation recvL_lsum :=
  (lsolve_recv_lsum D g G Llu nrhs maxrecvsz fmod frecv dlsum_fmod_inv).
Local Abbreviation recvU := (usolve_recv D g Llu nrhs bmod brecv Urbs dlsum_bmod_inv).


End MessageClasses.

(* ================================================================== *)
(** * Two small forward sweeps *)
(* ================================================================== *)

(** The values superlu_defs.h gives the constants in SuperLU_DIST. *)
Definition D0 : superlu_defs :=
  {| XK_H := 2; LSUM_H := 2; Xk := 21; LSUM := 23; EMPTY := -1;
     BC_HEADER := 2; LB_DESCRIPTOR := 2; BR_HEADER := 3; UB_DESCRIPTOR := 2 |}.

Definition mk_mem (blocks : list (list Z)) : mem :=
  {| cells := fun p => tab 0 (nth (Z.to_nat p) blocks []);
     brk := Z.of_nat (length blocks); freed := [] |}.

Definition mk_state (m : mem) (frecvp : Z) : pdgstrs_state :=
  {| heap := m; info := 0; Llu_frecv := frecvp; Llu_brecv := 0;
     Llu_SolveMsgSent := 0; trace := [] |}.

(** Process 1 of a 3 x 1 mesh, three supernodes of size 1, one right-hand
    side.  It holds L(1,0) and the diagonal block L(1,1); it expects X[0]
    from process 0, passes it on to process 2, and then solves block 1.
    Blocks 5 and 6 of the store are the per-call [fmod] and [frecv]. *)
Definition fwd_grid : gridinfo_t := {| nprow := 3; npcol := 1; iam := 1 |}.
Definition fwd_Glu : Glu_persist_t :=
  {| xsup := tab 0 [0; 1; 2; 3]; supno := tab 0 [0; 1; 2] |}.
Definition fwd_Llu : LocalLU_t :=
  {| Llu_fmod := 1; Llu_bmod := 2; Llu_mod_bit := 3;
     Llu_nfrecvx := 1; Llu_nbrecvx := 0;
     Lrowind_bc_ptr := fun lk =>
       if lk =? 0 then Some (tab 0 [1; 1; 1; 1; 1])
       else if lk =? 1 then Some (tab 0 [1; 1; 1; 1; 1]) else None;
     LBtree_ptr := fun lk =>
       if lk =? 0 then Some {| bc_IsRoot := false; bc_DestCount := 1 |}
       else if lk =? 1 then Some {| bc_IsRoot := true; bc_DestCount := 1 |}
       else None;
     LRtree_ptr := fun _ => None;
     Ufstnz_br_ptr := fun _ => None;
     bsendx_plist := fun _ _ => -1;
     Llu_ilsum := tab 0 [0; 1] |}.
Definition fwd_mem : mem := mk_mem [[]; [1]; [0]; [0]; []; [1]; [0]].
Definition fwd_start : lsolve_state :=
  {| nfrecvx := 1; nfrecvmod := 0; nfrecvx_buf := 0; recvbuf0 := 0;
     ps := mk_state fwd_mem 6 |}.
Definition fwd_msgs : list message := [ {| MPI_TAG := 0; hdr := 0 |} ].
Definition fwd_dlsum := dlsum_fmod_inv_model D0 fwd_grid fwd_Glu fwd_Llu 1 3.

(** Process 1 of a 1 x 2 mesh, two supernodes of size 1.  It owns the
    diagonal block L(1,1) and is the root of the reduction tree of block
    row 1, with process 0 as its only child. *)
Definition red_grid : gridinfo_t := {| nprow := 1; npcol := 2; iam := 1 |}.
Definition red_Glu : Glu_persist_t :=
  {| xsup := tab 0 [0; 1; 2]; supno := tab 0 [0; 1] |}.
Definition red_Llu : LocalLU_t :=
  {| Llu_fmod := 1; Llu_bmod := 2; Llu_mod_bit := 3;
     Llu_nfrecvx := 0; Llu_nbrecvx := 0;
     Lrowind_bc_ptr := fun lk =>
       if lk =? 0 then Some (tab 0 [1; 1; 1; 1; 1]) else None;
     LBtree_ptr := fun _ => None;
     LRtree_ptr := fun lk =>
       if lk =? 1 then Some {| rd_IsRoot := true; rd_DestCount := 1 |} else None;
     Ufstnz_br_ptr := fun _ => None;
     bsendx_plist := fun _ _ => -1;
     Llu_ilsum := tab 0 [0; 1; 2] |}.
Definition red_mem : mem := mk_mem [[]; [0; 0]; [0; 0]; [0; 0]; []; [0; 0]; [0; 1]].
Definition red_start : lsolve_state :=
  {| nfrecvx := 0; nfrecvmod := 1; nfrecvx_buf := 0; recvbuf0 := 0;
     ps := mk_state red_mem 6 |}.
Definition red_msg : message := {| MPI_TAG := 3; hdr := 1 |}.
Definition red_dlsum := dlsum_fmod_inv_model D0 red_grid red_Glu red_Llu 1 2.


Local Abbreviation fwd_loop :=
  (lsolve_loop D0 fwd_grid fwd_Glu fwd_Llu 3 1 3 5 6 fwd_dlsum).
Local Abbreviation fwd_recv :=
  (lsolve_recv D0 fwd_grid fwd_Glu fwd_Llu 3 1 3 5 6 fwd_dlsum).
Local Abbreviation fwd_receives :=
  (lsolve_receives D0 fwd_grid fwd_Glu fwd_Llu 3 1 3 5 6 fwd_dlsum).
Local Abbreviation red_loop :=
  (lsolve_loop D0 red_grid red_Glu red_Llu 2 1 3 5 6 red_dlsum).
Local Abbreviation red_recv :=
  (lsolve_recv D0 red_grid red_Glu red_Llu 2 1 3 5 6 red_dlsum).
Local Abbreviation red_fires :=
  (diag_solve_fires red_grid red_Llu 2 5 6).



Lemma red_dlsum_frame : dlsum_frame 5 red_dlsum.
Proof.
  intros xk knsupc k nb lptr luptr p q i Hq.
  now apply (dlsum_fmod_inv_model_counters D0 red_grid red_Glu red_Llu 1 2).
Qed.

Lemma red_dlsum_nonincreasing : dlsum_nonincreasing 5 red_dlsum.
Proof.
  intros xk knsupc k nb lptr luptr p i.
  now apply (dlsum_fmod_inv_model_counters D0 red_grid red_Glu red_Llu 1 2).
Qed.



(** Process 1 of a 2 x 1 mesh, two supernodes of size 1: it owns the
    diagonal block of supernode 1, the root of the backward sweep, and
    process 0, which holds U(0,1), needs X[1]. *)
Definition bwd_grid : gridinfo_t := {| nprow := 2; npcol := 1; iam := 1 |}.
Definition bwd_Llu : LocalLU_t :=
  {| Llu_fmod := 1; Llu_bmod := 2; Llu_mod_bit := 3;
     Llu_nfrecvx := 1; Llu_nbrecvx := 0;
     Lrowind_bc_ptr := fun lk =>
       if lk =? 0 then Some (tab 0 [1; 1; 1; 1; 1])
       else if lk =? 1 then Some (tab 0 [1; 1; 1; 1; 1]) else None;
     LBtree_ptr := fun _ => None;
     LRtree_ptr := fun _ => None;
     Ufstnz_br_ptr := fun _ => None;
     bsendx_plist := fun lk pr => if (lk =? 1) && (pr =? 0) then 0 else -1;
     Llu_ilsum := tab 0 [0; 1] |}.
Definition bwd_mem : mem := mk_mem [[]; [1]; [0]; [0]; []; [0]; [0]; [0; 0]].
Definition bwd_dlsum (xk : bufsrc) (k bmod Urbs : Z) (p : pdgstrs_state) := p.


(* ================================================================== *)
(** * pdgstrs: counter set-up, the brecv pre-pass, and the whole call *)
(* ================================================================== *)

Definition ps_malloc (p : pdgstrs_state) : Z * pdgstrs_state :=
  let '(b, h) := intMalloc_dist (heap p) in (b, ps_set_heap p h).

Definition ps_calloc (p : pdgstrs_state) : Z * pdgstrs_state :=
  let '(b, h) := intCalloc_dist (heap p) in (b, ps_set_heap p h).

Definition ps_free (p : pdgstrs_state) (b : Z) : pdgstrs_state :=
  ps_set_heap p (SUPERLU_FREE (heap p) b).

Definition sumZ (l : list Z) (f : Z -> Z) : Z :=
  fold_right (fun x a => f x + a) 0 l.

Definition countZ (l : list Z) (c : Z -> bool) : Z :=
  Z.of_nat (length (filter c l)).

Section Pdgstrs.

Variable D : superlu_defs.
Variable g : gridinfo_t.
Variable G : Glu_persist_t.
Variable Llu : LocalLU_t.
Variable nsupers : Z.
Variable nrhs : Z.
Variable maxrecvsz : Z.
Variable dlsum_fmod_inv :
  bufsrc -> Z -> Z -> Z -> Z -> Z -> Z -> pdgstrs_state -> pdgstrs_state.
Variable dlsum_bmod_inv : bufsrc -> Z -> Z -> Z -> pdgstrs_state -> pdgstrs_state.

(** Lines 909-916: the per-call copy of [Llu->fmod], and [frecv]. *)
Definition alloc_fmod_frecv (p : pdgstrs_state) : Z * Z * pdgstrs_state :=
  let nlb := CEILING nsupers (nprow g) in
  let '(fmod, p) := ps_malloc p in
  let p := for_loop nlb (fun i p => ps_store p fmod i (ps_load p (Llu_fmod Llu) i)) p in
  let '(frecv, p) := ps_calloc p in
  let p := {| heap := heap p; info := info p;
              Llu_frecv := frecv; Llu_brecv := Llu_brecv p;
              Llu_SolveMsgSent := Llu_SolveMsgSent p; trace := trace p |} in
  (fmod, frecv, p).

(** Lines 1112-1139: [frecv] from the reduction trees, the count
    [nfrecvmod], and the leaves, collected in [leafsups]. *)
Definition collect_leaves (fmod frecv LRTree_active leafsups : Z)
    (p : pdgstrs_state) : Z * Z * pdgstrs_state :=
  let myrow := MYROW g (iam g) in
  let mycol := MYCOL g (iam g) in
  let nsupers_i := CEILING nsupers (nprow g) in
  for_loop nsupers_i (fun lk (st : Z * Z * pdgstrs_state) =>
    let '(nfrecvmod, nleaf, p) := st in
    if not_null (LRtree_ptr Llu lk) then
      let p := ps_store p frecv lk (RdTree_GetDestCount (LRtree_ptr Llu lk)) in
      (nfrecvmod + ps_load p frecv lk, nleaf, p)
    else
      let gb := myrow + lk * nprow g in
      if gb <? nsupers then
        let kcol := PCOL g gb in
        if mycol =? kcol then
          let p := ps_store p LRTree_active lk 2 in
          if ps_load p fmod lk =? 0 then
            (nfrecvmod, nleaf + 1, ps_store p leafsups nleaf gb)
          else (nfrecvmod, nleaf, p)
        else (nfrecvmod, nleaf, p)
      else (nfrecvmod, nleaf, p)) (0, 0, p).

(** Lines 1188-1343: solve the leaves. *)
Definition solve_leaves (fmod leafsups nleaf : Z) (p : pdgstrs_state)
  : pdgstrs_state :=
  for_loop nleaf (fun jj p =>
    let k := ps_load p leafsups jj in
    let knsupc := SuperSize G k in
    let lk := LBi g k in
    let p := ps_store p fmod lk (-1) in
    let ii := X_BLK D (Llu_ilsum Llu) nrhs lk in
    let lk := LBj g k in
    let lsub := deref (Lrowind_bc_ptr Llu lk) in
    let p := ps_log p (EvSolve k) in
    let p := if not_null (LBtree_ptr Llu lk)
             then let lib := LBi g k in
                  let ii := X_BLK D (Llu_ilsum Llu) nrhs lib in
                  ps_log p (EvBcForward lk (InX (ii - XK_H D)))
             else p in
    let nb := lsub 0 - 1 in
    let lptr := BC_HEADER D + LB_DESCRIPTOR D + knsupc in
    let luptr := knsupc in
    dlsum_fmod_inv (InX ii) knsupc k fmod nb lptr luptr p) p.

(** Lines 1682-1695: the indicator bits [mod_bit]. *)
Definition set_mod_bit (bmod : Z) (p : pdgstrs_state) : pdgstrs_state :=
  let myrow := MYROW g (iam g) in
  let mycol := MYCOL g (iam g) in
  let nlb := CEILING nsupers (nprow g) in
  let mod_bit := Llu_mod_bit Llu in
  let p := for_loop nlb (fun k p => ps_store p mod_bit k 0) p in
  for_loop nsupers (fun k p =>
    let krow := PROW g k in
    if myrow =? krow then
      let lk := LBi g k in
      let kcol := PCOL g k in
      if negb (mycol =? kcol) && negb (ps_load p bmod lk =? 0)
      then ps_store p mod_bit lk 1
      else p
    else p) p.

(** Line 1700: [MPI_Allreduce(mod_bit, brecv, nlb, mpi_int_t, MPI_SUM,
    scp->comm)].  [peers] are the send buffers of the other processes of
    the row scope; the process's own is [mod_bit]. *)
Definition allreduce_brecv (brecv : Z) (peers : list (array Z))
    (p : pdgstrs_state) : pdgstrs_state :=
  let nlb := CEILING nsupers (nprow g) in
  let mod_bit := Llu_mod_bit Llu in
  let p := ps_log p EvAllreduce in
  for_loop nlb (fun i p =>
    ps_store p brecv i (ps_load p mod_bit i + sumZ (map (fun a => a i) peers) (fun v => v)))
    p.

(** Lines 1704-1718: [nbrecvmod] and [nroot] on the diagonal process. *)
Definition count_brecv (bmod brecv : Z) (p : pdgstrs_state) : Z * Z :=
  let myrow := MYROW g (iam g) in
  let mycol := MYCOL g (iam g) in
  for_loop nsupers (fun k (st : Z * Z) =>
    let '(nbrecvmod, nroot) := st in
    let krow := PROW g k in
    if myrow =? krow then
      let lk := LBi g k in
      let kcol := PCOL g k in
      if mycol =? kcol then
        (nbrecvmod + ps_load p brecv lk,
         if (ps_load p brecv lk =? 0) && (ps_load p bmod lk =? 0)
         then nroot + 1 else nroot)
      else st
    else st) (0, 0).

(** Lines 1682-1718 together. *)
Definition brecv_prepass (bmod brecv : Z) (peers : list (array Z))
    (p : pdgstrs_state) : Z * Z * pdgstrs_state :=
  let p := set_mod_bit bmod p in
  let p := allreduce_brecv brecv peers p in
  let '(nbrecvmod, nroot) := count_brecv bmod brecv p in
  (nbrecvmod, nroot, p).

End Pdgstrs.

(** ** The brecv pre-pass over a process row *)

Lemma sumZ_app l1 l2 f : sumZ (l1 ++ l2) f = sumZ l1 f + sumZ l2 f.
Proof. unfold sumZ. induction l1 as [|x l IH]; simpl; lia. Qed.

Lemma sumZ_map {A} (l : list A) (h : A -> Z) :
  sumZ (map h l) (fun v => v) = fold_right (fun x a => h x + a) 0 l.
Proof. unfold sumZ. induction l as [|x l IH]; simpl; lia. Qed.

Lemma sumZ_ext l f f' :
  (forall x, In x l -> f x = f' x) -> sumZ l f = sumZ l f'.
Proof.
  unfold sumZ. induction l as [|x l IH]; intros H; simpl; [reflexivity|].
  rewrite H by now left. rewrite IH; [reflexivity|]. intros y Hy. apply H. now right.
Qed.

Lemma sumZ_indicator l (c : Z -> bool) :
  sumZ l (fun x => if c x then 1 else 0) = countZ l c.
Proof.
  unfold sumZ, countZ. induction l as [|x l IH]; [reflexivity|].
  cbn [fold_right filter]. destruct (c x); cbn [length]; lia.
Qed.

Lemma sumZ_pick l f c :
  NoDup l -> In c l ->
  sumZ l f = f c + sumZ (filter (fun c' => negb (c' =? c)) l) f.
Proof.
  unfold sumZ. induction l as [|x l IH]; intros Hnd Hin; [destruct Hin|].
  inversion Hnd as [|? ? Hx Hl]; subst. cbn [fold_right filter].
  destruct Hin as [->|Hin].
  - rewrite Z.eqb_refl. cbn [negb]. f_equal.
    clear IH Hnd Hl. induction l as [|y l IH]; [reflexivity|].
    cbn [fold_right filter].
    destruct (Z.eqb_spec y c) as [->|Hne]; cbn [negb].
    + exfalso. apply Hx. now left.
    + cbn [fold_right]. f_equal. apply IH. intros H. apply Hx. now right.
  - destruct (Z.eqb_spec x c) as [->|Hne]; [contradiction|]. cbn [negb fold_right].
    rewrite (IH Hl Hin). lia.
Qed.

Lemma sumZ_nil f : sumZ [] f = 0.
Proof. reflexivity. Qed.

Lemma sumZ_single x f : sumZ [x] f = f x.
Proof. unfold sumZ. simpl. lia. Qed.

Lemma countZ_nil c : countZ [] c = 0.
Proof. reflexivity. Qed.

Lemma countZ_single x c : countZ [x] c = if c x then 1 else 0.
Proof. unfold countZ. cbn [filter]. destruct (c x); reflexivity. Qed.

Lemma range_NoDup n : NoDup (range n).
Proof.
  unfold range. apply Injective_map_NoDup; [|apply seq_NoDup].
  intros x y H. lia.
Qed.

Lemma countZ_app l1 l2 c : countZ (l1 ++ l2) c = countZ l1 c + countZ l2 c.
Proof. unfold countZ. rewrite filter_app, length_app. lia. Qed.

Lemma quot_lt_CEILING k n b :
  0 < b -> 0 <= k < n -> Z.quot k b < CEILING n b.
Proof.
  intros Hb Hk. unfold CEILING.
  pose proof (Z.quot_rem' n b) as E.
  pose proof (Z.rem_bound_pos n b ltac:(lia) Hb) as R.
  destruct (Z.eqb_spec (Z.rem n b) 0) as [Hz|Hz].
  - apply Z.quot_lt_upper_bound; lia.
  - apply Z.quot_lt_upper_bound; [lia|lia|]. nia.
Qed.

Lemma block_of_local g k k' :
  0 < nprow g -> 0 <= k -> 0 <= k' ->
  PROW g k = PROW g k' -> LBi g k = LBi g k' -> k = k'.
Proof.
  unfold PROW, LBi. intros Hp Hk Hk' Hr Hq.
  rewrite (Z.quot_rem' k (nprow g)), (Z.quot_rem' k' (nprow g)). congruence.
Qed.

Section BrecvRow.

(** The mesh, and the processes of process row [myrow], one per column:
    their states at the pre-pass, their [Llu] and their pointers [bmod]
    and [brecv]. *)
Variable g0 : gridinfo_t.
Variable nsupers : Z.
Variable myrow : Z.
Variable st : Z -> pdgstrs_state.
Variable LluC : Z -> LocalLU_t.
Variable bmodC : Z -> Z.
Variable brecvC : Z -> Z.

Definition row_grid (c : Z) : gridinfo_t :=
  {| nprow := nprow g0; npcol := npcol g0; iam := PNUM g0 myrow c |}.

(** The send buffer process [c] hands to the reduction. *)
Definition mod_bit_of (c : Z) : array Z :=
  fun i => ps_load (set_mod_bit (row_grid c) (LluC c) nsupers (bmodC c) (st c))
                   (Llu_mod_bit (LluC c)) i.

Definition row_peers (c : Z) : list (array Z) :=
  map mod_bit_of (filter (fun c' => negb (c' =? c)) (range (npcol g0))).

(** Block k has its diagonal on the process in column [c] of the row. *)
Definition diag_here (c : Z) (k : Z) : bool :=
  (PROW g0 k =? myrow) && (PCOL g0 k =? c).

Hypothesis Hpr : 0 < nprow g0.
Hypothesis Hpc : 0 < npcol g0.
Hypothesis Hrow : 0 <= myrow.

Lemma row_grid_MYROW c : 0 <= c < npcol g0 -> MYROW (row_grid c) (iam (row_grid c)) = myrow.
Proof.
  intros Hc. unfold MYROW, row_grid, PNUM. simpl.
  rewrite Z.quot_div_nonneg by nia.
  rewrite Z.div_add_l by lia. rewrite Z.div_small by lia. lia.
Qed.

Lemma row_grid_MYCOL c : 0 <= c < npcol g0 -> MYCOL (row_grid c) (iam (row_grid c)) = c.
Proof.
  intros Hc. unfold MYCOL, row_grid, PNUM. simpl.
  rewrite Z.rem_mod_nonneg by nia.
  rewrite Z.add_comm, Z.mod_add by lia. apply Z.mod_small. lia.
Qed.

Lemma set_mod_bit_bmod c b i :
  b <> Llu_mod_bit (LluC c) ->
  ps_load (set_mod_bit (row_grid c) (LluC c) nsupers (bmodC c) (st c)) b i
  = ps_load (st c) b i.
Proof.
  intros Hb. unfold set_mod_bit.
  set (nlb := CEILING nsupers (nprow (row_grid c))).
  match goal with |- ps_load (for_loop _ ?body2 (for_loop _ ?body1 _)) _ _ = _ =>
    assert (H1 : ps_load (for_loop nlb body1 (st c)) b i = ps_load (st c) b i);
    [|assert (H2 : forall p, ps_load (for_loop nsupers body2 p) b i = ps_load p b i)]
  end.
  - unfold for_loop. generalize (range nlb). intros l. generalize (st c).
    induction l as [|x l IH]; intros p; simpl; [reflexivity|].
    rewrite IH, ps_load_store. destruct (Z.eqb_spec b (Llu_mod_bit (LluC c))); [congruence|reflexivity].
  - intros p. unfold for_loop. generalize (range nsupers). intros l. revert p.
    induction l as [|x l IH]; intros p; simpl; [reflexivity|].
    rewrite IH. destruct (_ =? _); [|reflexivity].
    destruct (negb _ && negb _); [|reflexivity].
    rewrite ps_load_store. destruct (Z.eqb_spec b (Llu_mod_bit (LluC c))); [congruence|reflexivity].
  - rewrite H2. exact H1.
Qed.

(** Each process off the diagonal contributes bit 1 exactly for the
    block rows whose [bmod] count is nonzero; the diagonal process
    contributes 0. *)
Lemma mod_bit_of_spec c k :
  0 <= c < npcol g0 -> Llu_mod_bit (LluC c) <> bmodC c ->
  0 <= k < nsupers -> PROW g0 k = myrow ->
  mod_bit_of c (LBi g0 k)
  = if negb (c =? PCOL g0 k) && negb (ps_load (st c) (bmodC c) (LBi g0 k) =? 0)
    then 1 else 0.
Proof.
  intros Hc Hmb Hk Hprow. unfold mod_bit_of, set_mod_bit.
  rewrite (row_grid_MYROW c Hc), (row_grid_MYCOL c Hc).
  change (nprow (row_grid c)) with (nprow g0).
  set (mb := Llu_mod_bit (LluC c)) in *. set (lk0 := LBi g0 k) in *.
  set (p1 := for_loop (CEILING nsupers (nprow g0)) _ (st c)).
  assert (Hlk0 : 0 <= lk0 < CEILING nsupers (nprow g0)).
  { split; [apply Z.quot_pos; lia|apply quot_lt_CEILING; lia]. }
  assert (Z1 : ps_load p1 mb lk0 = 0).
  { unfold p1.
    apply (for_loop_inv (fun n p => lk0 < n -> ps_load p mb lk0 = 0)); try lia.
    intros i t Hi IH Hlt. rewrite ps_load_store, Z.eqb_refl. simpl.
    destruct (Z.eqb_spec lk0 i); [reflexivity|]. apply IH. lia. }
  assert (B1 : forall p i, (forall j, ps_load p (bmodC c) j = ps_load (st c) (bmodC c) j) ->
             forall j', ps_load (ps_store p mb i 1) (bmodC c) j' = ps_load (st c) (bmodC c) j').
  { intros p i Hp j'. rewrite ps_load_store.
    destruct (Z.eqb_spec (bmodC c) mb); [congruence|]. apply Hp. }
  assert (B0 : forall j, ps_load p1 (bmodC c) j = ps_load (st c) (bmodC c) j).
  { intros j. unfold p1, for_loop. generalize (range (CEILING nsupers (nprow g0))).
    intros l.
    assert (Hgen : forall q0, ps_load (fold_left (fun s i => ps_store s mb i 0) l q0) (bmodC c) j
                        = ps_load q0 (bmodC c) j).
    { induction l as [|x l IH]; intros q0; simpl; [reflexivity|].
      rewrite IH, ps_load_store. destruct (Z.eqb_spec (bmodC c) mb); [congruence|reflexivity]. }
    apply Hgen. }
  pose (Inv := fun (n : Z) (p : pdgstrs_state) =>
    (forall j, ps_load p (bmodC c) j = ps_load (st c) (bmodC c) j)
    /\ ps_load p mb lk0
       = if (k <? n) && (negb (c =? PCOL g0 k)
                         && negb (ps_load (st c) (bmodC c) lk0 =? 0))
         then 1 else 0).
  assert (HI : Inv nsupers
    (for_loop nsupers (fun k1 p =>
       if myrow =? PROW (row_grid c) k1 then
         if negb (c =? PCOL (row_grid c) k1)
            && negb (ps_load p (bmodC c) (LBi (row_grid c) k1) =? 0)
         then ps_store p mb (LBi (row_grid c) k1) 1 else p
       else p) p1)).
  { apply for_loop_inv; [lia| |].
    - split; [exact B0|]. destruct (Z.ltb_spec k 0); [lia|]. exact Z1.
    - intros i t Hi [Hb Hm].
      change (PROW (row_grid c) i) with (PROW g0 i).
      change (PCOL (row_grid c) i) with (PCOL g0 i).
      change (LBi (row_grid c) i) with (LBi g0 i).
      destruct (Z.eqb_spec myrow (PROW g0 i)) as [Hr|Hr].
      + rewrite Hb.
        destruct (Z.eq_dec i k) as [->|Hne].
        * fold lk0.
          destruct (negb (c =? PCOL g0 k) && negb (ps_load (st c) (bmodC c) lk0 =? 0)) eqn:E.
          -- split; [now apply B1|]. rewrite ps_load_store, !Z.eqb_refl. simpl.
             destruct (Z.ltb_spec k (k + 1)); [reflexivity|lia].
          -- split; [exact Hb|]. rewrite Hm.
             destruct (k <? k); destruct (k <? k + 1); reflexivity.
        * assert (Hlk : LBi g0 i <> lk0).
          { intros Heq. apply Hne. apply (block_of_local g0); lia. }
          assert (Hsame : (k <? i + 1) = (k <? i)).
          { destruct (Z.ltb_spec k (i + 1)), (Z.ltb_spec k i); try reflexivity; lia. }
          destruct (negb (c =? PCOL g0 i) && negb (ps_load (st c) (bmodC c) (LBi g0 i) =? 0)).
          -- split; [now apply B1|]. rewrite ps_load_store.
             destruct (Z.eqb_spec lk0 (LBi g0 i)); [congruence|].
             rewrite andb_false_r. rewrite Hsame. exact Hm.
          -- split; [exact Hb|]. rewrite Hsame. exact Hm.
      + split; [exact Hb|].
        assert (Hsame : (k <? i + 1) = (k <? i)).
        { destruct (Z.eq_dec i k); [subst; congruence|].
          destruct (Z.ltb_spec k (i + 1)), (Z.ltb_spec k i); try reflexivity; lia. }
        rewrite Hsame. exact Hm. }
  destruct HI as [_ HI]. rewrite HI.
  destruct (Z.ltb_spec k nsupers); [reflexivity|lia].
Qed.

Lemma allreduce_brecv_spec (g : gridinfo_t) (Llu : LocalLU_t) brecv peers p :
  let q := allreduce_brecv g Llu nsupers brecv peers p in
  (forall i, 0 <= i < CEILING nsupers (nprow g) ->
     ps_load q brecv i
     = ps_load p (Llu_mod_bit Llu) i + sumZ (map (fun a => a i) peers) (fun v => v))
  /\ (forall b j, b <> brecv -> ps_load q b j = ps_load p b j).
Proof.
  cbv zeta. unfold allreduce_brecv.
  set (nlb := CEILING nsupers (nprow g)). set (mb := Llu_mod_bit Llu).
  pose (Inv := fun (n : Z) (t : pdgstrs_state) =>
    (forall i, 0 <= i < n ->
       ps_load t brecv i = ps_load p mb i + sumZ (map (fun a => a i) peers) (fun v => v))
    /\ (forall b j, b <> brecv \/ n <= j -> ps_load t b j = ps_load p b j)).
  destruct (Z.le_gt_cases 0 nlb) as [Hn|Hn].
  - assert (HI : Inv nlb (for_loop nlb (fun i t =>
        ps_store t brecv i (ps_load t mb i + sumZ (map (fun a => a i) peers) (fun v => v)))
        (ps_log p EvAllreduce))).
    { apply for_loop_inv; [exact Hn| |].
      - split; [intros i Hi; lia|]. intros b j _. reflexivity.
      - intros i t Hi [H1 H2]. split.
        + intros i' Hi'. rewrite ps_load_store, Z.eqb_refl. simpl.
          destruct (Z.eqb_spec i' i) as [->|Hne].
          * rewrite (H2 mb i) by (right; lia). reflexivity.
          * apply H1. lia.
        + intros b j Hbj. rewrite ps_load_store.
          destruct (Z.eqb_spec b brecv) as [->|Hb]; simpl.
          * destruct (Z.eqb_spec j i); [lia|]. apply H2. right. lia.
          * apply H2. now left. }
    destruct HI as [H1 H2]. split; [exact H1|].
    intros b j Hb. apply H2. now left.
  - rewrite for_loop_nonpos by lia. split; [intros i Hi; lia|]. reflexivity.
Qed.

Lemma count_brecv_spec (g : gridinfo_t) bmod brecv p :
  count_brecv g nsupers bmod brecv p
  = (sumZ (filter (fun k => (MYROW g (iam g) =? PROW g k)
                            && (MYCOL g (iam g) =? PCOL g k)) (range nsupers))
          (fun k => ps_load p brecv (LBi g k)),
     countZ (filter (fun k => (MYROW g (iam g) =? PROW g k)
                              && (MYCOL g (iam g) =? PCOL g k)) (range nsupers))
            (fun k => (ps_load p brecv (LBi g k) =? 0)
                      && (ps_load p bmod (LBi g k) =? 0))).
Proof.
  unfold count_brecv.
  set (dg := fun k => (MYROW g (iam g) =? PROW g k) && (MYCOL g (iam g) =? PCOL g k)).
  destruct (Z.le_gt_cases 0 nsupers) as [Hn|Hn].
  - apply (for_loop_inv (fun n (r : Z * Z) =>
      r = (sumZ (filter dg (range n)) (fun k => ps_load p brecv (LBi g k)),
           countZ (filter dg (range n))
             (fun k => (ps_load p brecv (LBi g k) =? 0)
                       && (ps_load p bmod (LBi g k) =? 0))))); [exact Hn|reflexivity|].
    intros i [a b] Hi IH. inversion IH; subst. clear IH.
    rewrite range_succ by lia. rewrite filter_app, sumZ_app, countZ_app.
    cbn [filter].
    assert (Edg : dg i = (MYROW g (iam g) =? PROW g i) && (MYCOL g (iam g) =? PCOL g i))
      by reflexivity.
    rewrite Edg.
    destruct (MYROW g (iam g) =? PROW g i); cbn [andb];
      [destruct (MYCOL g (iam g) =? PCOL g i)|];
      rewrite ?sumZ_single, ?countZ_single, ?sumZ_nil, ?countZ_nil;
      [destruct ((ps_load p brecv (LBi g i) =? 0) && (ps_load p bmod (LBi g i) =? 0))|..];
      f_equal; lia.
  - rewrite for_loop_nonpos by lia. rewrite range_nonpos by lia. reflexivity.
Qed.

(** C8: on the diagonal process of a block row, after the pre-pass,
    [brecv[lk]] is the number of processes of the row scope, off the
    diagonal, whose [bmod[lk]] is nonzero: each of them contributes the
    bit 1, the others 0, and one sum-reduction adds the bits up.
    [nbrecvmod] is the sum of [brecv[lk]] over the blocks with their
    diagonal here, and [nroot] counts those of them with [brecv[lk] = 0]
    and [bmod[lk] = 0].  The pre-pass leaves [bmod] as it was. *)
Theorem C8_brecv_prepass (mycol : Z) :
  0 <= mycol < npcol g0 ->
  (forall c, 0 <= c < npcol g0 -> Llu_mod_bit (LluC c) <> bmodC c) ->
  brecvC mycol <> bmodC mycol ->
  let r := brecv_prepass (row_grid mycol) (LluC mycol) nsupers
             (bmodC mycol) (brecvC mycol) (row_peers mycol) (st mycol) in
  let p' := snd r in
  (forall c k, 0 <= c < npcol g0 -> 0 <= k < nsupers -> PROW g0 k = myrow ->
     mod_bit_of c (LBi g0 k)
     = if negb (c =? PCOL g0 k) && negb (ps_load (st c) (bmodC c) (LBi g0 k) =? 0)
       then 1 else 0)
  /\ (forall k, 0 <= k < nsupers -> diag_here mycol k = true ->
        ps_load p' (brecvC mycol) (LBi g0 k)
        = countZ (range (npcol g0))
            (fun c => negb (c =? mycol)
                      && negb (ps_load (st c) (bmodC c) (LBi g0 k) =? 0)))
  /\ fst (fst r)
     = sumZ (filter (diag_here mycol) (range nsupers))
            (fun k => ps_load p' (brecvC mycol) (LBi g0 k))
  /\ snd (fst r)
     = countZ (filter (diag_here mycol) (range nsupers))
              (fun k => (ps_load p' (brecvC mycol) (LBi g0 k) =? 0)
                        && (ps_load p' (bmodC mycol) (LBi g0 k) =? 0))
  /\ (forall i, ps_load p' (bmodC mycol) i = ps_load (st mycol) (bmodC mycol) i).
Proof.
  intros Hc Hmb Hbr. cbv zeta.
  unfold brecv_prepass.
  rewrite count_brecv_spec.
  rewrite (row_grid_MYROW mycol Hc), (row_grid_MYCOL mycol Hc).
  cbn [fst snd].
  set (p1 := set_mod_bit (row_grid mycol) (LluC mycol) nsupers (bmodC mycol) (st mycol)).
  destruct (allreduce_brecv_spec (row_grid mycol) (LluC mycol) (brecvC mycol)
              (row_peers mycol) p1) as [A1 A2].
  cbv zeta in A1, A2.
  set (p2 := allreduce_brecv (row_grid mycol) (LluC mycol) nsupers (brecvC mycol)
               (row_peers mycol) p1) in *.
  assert (Hfilter : filter (fun k => (myrow =? PROW (row_grid mycol) k)
                                     && (mycol =? PCOL (row_grid mycol) k)) (range nsupers)
                    = filter (diag_here mycol) (range nsupers)).
  { apply filter_ext. intros k. unfold diag_here.
    change (PROW (row_grid mycol) k) with (PROW g0 k).
    change (PCOL (row_grid mycol) k) with (PCOL g0 k).
    now rewrite (Z.eqb_sym myrow), (Z.eqb_sym mycol). }
  rewrite Hfilter.
  split; [intros c k Hcc Hk Hr; apply mod_bit_of_spec; auto|].
  split; [|split; [reflexivity|split; [reflexivity|]]].
  - intros k Hk Hd. unfold diag_here in Hd. apply andb_true_iff in Hd.
    destruct Hd as [Hr Hcol]. apply Z.eqb_eq in Hr. apply Z.eqb_eq in Hcol.
    change (LBi g0 k) with (LBi (row_grid mycol) k).
    rewrite A1.
    2:{ change (nprow (row_grid mycol)) with (nprow g0).
        change (LBi (row_grid mycol) k) with (Z.quot k (nprow g0)).
        split; [apply Z.quot_pos; lia|apply quot_lt_CEILING; lia]. }
    unfold row_peers. rewrite map_map, sumZ_map.
    change (LBi (row_grid mycol) k) with (LBi g0 k).
    change (ps_load p1 (Llu_mod_bit (LluC mycol)) (LBi g0 k))
      with (mod_bit_of mycol (LBi g0 k)).
    change (fold_right (fun x a => mod_bit_of x (LBi g0 k) + a) 0
              (filter (fun c' => negb (c' =? mycol)) (range (npcol g0))))
      with (sumZ (filter (fun c' => negb (c' =? mycol)) (range (npcol g0)))
                 (fun x => mod_bit_of x (LBi g0 k))).
    rewrite <- (sumZ_pick (range (npcol g0)) (fun x => mod_bit_of x (LBi g0 k)) mycol
                  (range_NoDup _)) by (apply range_In; exact Hc).
    rewrite <- sumZ_indicator. apply sumZ_ext. intros c Hin. apply range_In in Hin.
    rewrite mod_bit_of_spec by auto. rewrite Hcol. reflexivity.
  - intros i. rewrite A2 by auto. unfold p1. apply set_mod_bit_bmod.
    intros Heq. apply (Hmb mycol Hc). now symmetry.
Qed.

End BrecvRow.

(** The process row 0 of a 1 x 2 mesh with two supernodes: process 1
    holds U(0,1), so its [bmod[0]] is 1; process 0 owns the diagonal of
    block 0.  Blocks 3, 5 and 6 of each store are [mod_bit], [bmod] and
    [brecv]. *)
Definition row_g0 : gridinfo_t := {| nprow := 1; npcol := 2; iam := 0 |}.
Definition row_st (c : Z) : pdgstrs_state :=
  mk_state (mk_mem [[]; [0; 0]; [0; 0]; [7; 7]; []; if c =? 1 then [1; 0] else [0; 0]; [9; 9]]) 0.
Definition row_Llu (c : Z) : LocalLU_t := red_Llu.
Definition row_bmod (c : Z) : Z := 5.
Definition row_brecv (c : Z) : Z := 6.

(** C8 on that row, seen from process 0: [brecv[0] = 1], [nbrecvmod = 1]
    and no root. *)
Lemma C8_witness :
  ps_load (snd (brecv_prepass (row_grid row_g0 0 0) (row_Llu 0) 2 (row_bmod 0)
                  (row_brecv 0)
                  (row_peers row_g0 2 0 row_st row_Llu row_bmod 0) (row_st 0)))
          (row_brecv 0) (LBi row_g0 0)
  = countZ (range (npcol row_g0))
      (fun c => negb (c =? 0)
                && negb (ps_load (row_st c) (row_bmod c) (LBi row_g0 0) =? 0))
  /\ countZ (range (npcol row_g0))
       (fun c => negb (c =? 0)
                 && negb (ps_load (row_st c) (row_bmod c) (LBi row_g0 0) =? 0)) = 1.
Proof.
  split; [|reflexivity].
  assert (H1 : 0 < nprow row_g0) by (simpl; lia).
  assert (H2 : 0 < npcol row_g0) by (simpl; lia).
  assert (H3 : 0 <= 0) by lia.
  assert (H4 : 0 <= 0 < npcol row_g0) by (simpl; lia).
  assert (H5 : forall c, 0 <= c < npcol row_g0 ->
                 Llu_mod_bit (row_Llu c) <> row_bmod c)
    by (intros c _; discriminate).
  assert (H6 : row_brecv 0 <> row_bmod 0) by discriminate.
  pose proof (C8_brecv_prepass row_g0 2 0 row_st row_Llu row_bmod row_brecv
                H1 H2 H3 0 H4 H5 H6) as H.
  cbv zeta in H. destruct H as [_ [H _]].
  apply H; [lia|reflexivity].
Defined.

(* ================================================================== *)
(** * pdgstrs: the whole call, on the integer store *)
(* ================================================================== *)

Definition ps_set_frecv (p : pdgstrs_state) (b : Z) : pdgstrs_state :=
  {| heap := heap p; info := info p; Llu_frecv := b; Llu_brecv := Llu_brecv p;
     Llu_SolveMsgSent := Llu_SolveMsgSent p; trace := trace p |}.

Definition ps_set_brecv (p : pdgstrs_state) (b : Z) : pdgstrs_state :=
  {| heap := heap p; info := info p; Llu_frecv := Llu_frecv p; Llu_brecv := b;
     Llu_SolveMsgSent := Llu_SolveMsgSent p; trace := trace p |}.

Definition ps_set_sent (p : pdgstrs_state) (v : Z) : pdgstrs_state :=
  {| heap := heap p; info := info p; Llu_frecv := Llu_frecv p;
     Llu_brecv := Llu_brecv p; Llu_SolveMsgSent := v; trace := trace p |}.

Section WholeCall.

Variable D : superlu_defs.
Variable g : gridinfo_t.
Variable G : Glu_persist_t.
Variable Llu : LocalLU_t.
(** [sp_ienv_dist(3)], the maximal supernode size. *)
Variable sp_ienv3 : Z.
Variable dlsum_fmod_inv :
  bufsrc -> Z -> Z -> Z -> Z -> Z -> Z -> pdgstrs_state -> pdgstrs_state.
Variable dlsum_bmod_inv : bufsrc -> Z -> Z -> Z -> pdgstrs_state -> pdgstrs_state.

(** Lines 1670-1677: the per-call copy of [Llu->bmod], and [brecv]. *)
Definition alloc_bmod_brecv (nsupers : Z) (p : pdgstrs_state)
  : Z * Z * pdgstrs_state :=
  let nlb := CEILING nsupers (nprow g) in
  let '(bmod, p) := ps_malloc p in
  let p := for_loop nlb (fun i p => ps_store p bmod i (ps_load p (Llu_bmod Llu) i)) p in
  let '(brecv, p) := ps_malloc p in
  (bmod, brecv, ps_set_brecv p brecv).

(** Lines 1773-1787: count the row blocks in each block column of U. *)
Definition count_Urbs (nsupers Urbs : Z) (p : pdgstrs_state) : pdgstrs_state :=
  let nlb := CEILING nsupers (nprow g) in
  for_loop nlb (fun lk p =>
    match Ufstnz_br_ptr Llu lk with
    | Some usub =>
        snd (for_loop (usub 0) (fun _ (st : Z * pdgstrs_state) =>
               let i := fst st in
               let p := snd st in
               let k := usub i in
               let p := ps_store p Urbs (LBj g k) (ps_load p Urbs (LBj g k) + 1) in
               (i + UB_DESCRIPTOR D + SuperSize G k, p)) (BR_HEADER D, p))
    | None => p
    end) p.

(** Lines 2180-2202: give the per-call storage back, wait for the sends
    of the backward sweep, and the closing barrier. *)
Definition release_all (Urbs bmod brecv : Z) (p : pdgstrs_state) : pdgstrs_state :=
  let p := ps_free p Urbs in
  let p := ps_free p bmod in
  let p := ps_free p brecv in
  let p := for_loop (Llu_SolveMsgSent p) (fun i p => ps_log p (EvWait i)) p in
  ps_log p EvBarrier.

(** The call [pdgstrs(n, ..., nrhs, ...)] on the integer store.
    [msgsF] and [msgsB] are the messages [MPI_Recv] delivers during the
    forward and the backward sweep (the barrier of line 1660 separates
    the two), [peers] the buffers the other processes of the row scope
    hand to the reduction of line 1700.  The double arrays ([lsum], [x],
    the receive buffers) and the two redistributions are dealt with
    elsewhere; of the redistributions, which write the buffers they
    allocate and the two pointer arrays of [gstrs_comm], only the
    allocation and release of the integer buffer shows here.  Two index
    maps that only the helpers in pdgstrs_lsum.c read,
    [Llu->Lrowind_bc_2_lsum] (lines 988-1047) and the vertical lists
    [Ucb_indptr]/[Ucb_valptr] (lines 1789-1816), are built in blocks
    allocated for them and are left out. *)
Definition pdgstrs (iam_indet n nrhs : Z) (msgsF msgsB : list message)
    (peers : list (array Z)) (s : pdgstrs_state) : loop_status * pdgstrs_state :=
  match pdgstrs_entry iam_indet n nrhs s with
  | Returned s' => (Finished, s')
  | Proceeds p =>
      let nsupers := nsupers_of G n in
      let maxrecvsz := sp_ienv3 * nrhs + Z.max (XK_H D) (LSUM_H D) in
      let p := ps_set_sent p 0 in
      let '(fmod, frecv, p) := alloc_fmod_frecv g Llu nsupers p in
      let '(ipiv, p) := ps_calloc p in
      let '(send_ibuf, p) := ps_malloc p in
      let p := ps_free p send_ibuf in
      let '(LBTree_active, p) := ps_calloc p in
      let '(LBTree_finish, p) := ps_calloc p in
      let '(LRTree_active, p) := ps_calloc p in
      let '(LRTree_finish, p) := ps_calloc p in
      let '(leafsups, p) := ps_calloc p in
      let '(nfrecvmod0, nleaf, p) :=
        collect_leaves g Llu nsupers fmod frecv LRTree_active leafsups p in
      let p := solve_leaves D g G Llu nrhs dlsum_fmod_inv fmod leafsups nleaf p in
      let s0 := {| nfrecvx := Llu_nfrecvx Llu; nfrecvmod := nfrecvmod0;
                   nfrecvx_buf := 0; recvbuf0 := 0; ps := p |} in
      match lsolve_loop D g G Llu nsupers nrhs maxrecvsz fmod frecv
              dlsum_fmod_inv msgsF s0 with
      | (Blocked, s1, _) => (Blocked, ps s1)
      | (Finished, s1, _) =>
          let p := ps s1 in
          let p := ps_free p fmod in
          let p := ps_free p frecv in
          let p := lsolve_wait_sends g Llu nsupers p in
          let '(bmod, brecv, p) := alloc_bmod_brecv nsupers p in
          let '(nbrecvmod0, nroot0, p) :=
            brecv_prepass g Llu nsupers bmod brecv peers p in
          let '(Urbs, p) := ps_calloc p in
          let p := count_Urbs nsupers Urbs p in
          let u0 := {| nbrecvx := Llu_nbrecvx Llu; nbrecvmod := nbrecvmod0;
                       nroot := nroot0; ups := p |} in
          let u1 := usolve_roots D g Llu nsupers nrhs bmod brecv Urbs
                      dlsum_bmod_inv u0 in
          match usolve_loop D g Llu nrhs bmod brecv Urbs dlsum_bmod_inv msgsB u1 with
          | (Blocked, u2, _) => (Blocked, ups u2)
          | (Finished, u2, _) =>
              let p := ups u2 in
              let '(send_ibuf, p) := ps_malloc p in
              let p := ps_free p send_ibuf in
              (Finished, release_all Urbs bmod brecv p)
          end
      end
  end.

(** ** What a call leaves untouched *)

(** From [p] to [p'] the allocator only moved forward, no block below
    [b] other than [mb] was written, and nothing freed was taken back. *)
Definition keeps (b mb : Z) (p p' : pdgstrs_state) : Prop :=
  brk (heap p) <= brk (heap p')
  /\ (forall q i, q < b -> q <> mb -> ps_load p' q i = ps_load p q i)
  /\ (forall x, In x (freed (heap p)) -> In x (freed (heap p'))).

(** What is assumed of a helper of pdgstrs_lsum.c that is handed the
    counter block [blk]: on the integer store it writes that block only,
    and it neither moves the allocator back nor un-frees a block. *)
Definition helper_ok (f : pdgstrs_state -> pdgstrs_state) (blk : Z) : Prop :=
  forall p,
    brk (heap p) <= brk (heap (f p))
    /\ (forall q i, q <> blk -> ps_load (f p) q i = ps_load p q i)
    /\ (forall x, In x (freed (heap p)) -> In x (freed (heap (f p)))).

Lemma keeps_refl b mb p : keeps b mb p p.
Proof. unfold keeps. repeat split; auto; lia. Qed.

Lemma keeps_trans b mb p1 p2 p3 :
  keeps b mb p1 p2 -> keeps b mb p2 p3 -> keeps b mb p1 p3.
Proof.
  intros [A1 [A2 A3]] [B1 [B2 B3]]. repeat split.
  - lia.
  - intros q i Hq Hm. rewrite B2, A2; auto.
  - auto.
Qed.

Lemma keeps_same_heap b mb p p' : heap p' = heap p -> keeps b mb p p'.
Proof.
  intros H. unfold keeps, ps_load. rewrite H. repeat split; auto; lia.
Qed.

Lemma keeps_store b mb p t i v :
  b <= t \/ t = mb -> keeps b mb p (ps_store p t i v).
Proof.
  intros Ht. repeat split; simpl; auto; try lia.
  intros q j Hq Hm. rewrite ps_load_store.
  destruct (Z.eqb_spec q t); [lia|reflexivity].
Qed.

Lemma keeps_log b mb p e : keeps b mb p (ps_log p e).
Proof. now apply keeps_same_heap. Qed.

Lemma keeps_free b mb p t : keeps b mb p (ps_free p t).
Proof. repeat split; simpl; auto; try lia. Qed.

Lemma ps_free_freed p t : In t (freed (heap (ps_free p t))).
Proof. simpl. now left. Qed.

Lemma keeps_malloc b mb p :
  fst (ps_malloc p) = brk (heap p) /\ keeps b mb p (snd (ps_malloc p)).
Proof. split; [reflexivity|]. repeat split; simpl; auto; lia. Qed.

Lemma keeps_calloc b mb p :
  b <= brk (heap p) ->
  fst (ps_calloc p) = brk (heap p) /\ keeps b mb p (snd (ps_calloc p)).
Proof.
  intros Hb. split; [reflexivity|]. repeat split; simpl; auto; try lia.
  intros q i Hq Hm. unfold ps_load, load. simpl.
  destruct (Z.eqb_spec q (brk (heap p))); [lia|reflexivity].
Qed.

Lemma keeps_helper b mb f blk p :
  helper_ok f blk -> b <= blk -> keeps b mb p (f p).
Proof.
  intros H Hb. destruct (H p) as [A [B C]]. repeat split; auto.
  intros q i Hq Hm. apply B. lia.
Qed.

Lemma keeps_brk b mb p p' : keeps b mb p p' -> b <= brk (heap p) -> b <= brk (heap p').
Proof. intros [A _] H. lia. Qed.

Lemma keeps_fold {A} b mb (body : pdgstrs_state -> A -> pdgstrs_state) (l : list A) p :
  (forall t x, b <= brk (heap t) -> keeps b mb t (body t x)) ->
  b <= brk (heap p) ->
  keeps b mb p (fold_left body l p).
Proof.
  intros Hstep. revert p. induction l as [|x l IH]; intros p Hb; simpl.
  - apply keeps_refl.
  - eapply keeps_trans; [apply Hstep; exact Hb|].
    apply IH. eapply keeps_brk; [apply Hstep|]; exact Hb.
Qed.

Lemma keeps_for_loop b mb n (body : Z -> pdgstrs_state -> pdgstrs_state) p :
  (forall i t, b <= brk (heap t) -> keeps b mb t (body i t)) ->
  b <= brk (heap p) ->
  keeps b mb p (for_loop n body p).
Proof.
  intros Hstep Hb. unfold for_loop. apply keeps_fold; [|exact Hb].
  intros t x Ht. now apply Hstep.
Qed.

Definition malloc_state (p : pdgstrs_state) : pdgstrs_state := snd (ps_malloc p).
Definition calloc_state (p : pdgstrs_state) : pdgstrs_state := snd (ps_calloc p).

Lemma ps_malloc_eq p : ps_malloc p = (brk (heap p), malloc_state p).
Proof. reflexivity. Qed.

Lemma ps_calloc_eq p : ps_calloc p = (brk (heap p), calloc_state p).
Proof. reflexivity. Qed.

Lemma malloc_state_brk p : brk (heap (malloc_state p)) = brk (heap p) + 1.
Proof. reflexivity. Qed.

Lemma calloc_state_brk p : brk (heap (calloc_state p)) = brk (heap p) + 1.
Proof. reflexivity. Qed.

Lemma malloc_state_load p q j : ps_load (malloc_state p) q j = ps_load p q j.
Proof. reflexivity. Qed.

Lemma calloc_state_load p q j :
  ps_load (calloc_state p) q j = if q =? brk (heap p) then 0 else ps_load p q j.
Proof.
  unfold calloc_state, ps_load, load. simpl. destruct (q =? brk (heap p)); reflexivity.
Qed.

Lemma keeps_malloc_state b mb p : keeps b mb p (malloc_state p).
Proof. apply keeps_malloc. Qed.

Lemma keeps_calloc_state b mb p : b <= brk (heap p) -> keeps b mb p (calloc_state p).
Proof. intros H. now apply keeps_calloc. Qed.

Section Frame.

Variables b mb : Z.
Hypothesis Hmb : mb = Llu_mod_bit Llu.
Hypothesis Hf : forall xk knsupc k fmod nb lptr luptr,
  helper_ok (dlsum_fmod_inv xk knsupc k fmod nb lptr luptr) fmod.
Hypothesis Hb : forall xk k bmod Urbs,
  helper_ok (dlsum_bmod_inv xk k bmod Urbs) bmod.

(** The copy loop of lines 913 and 1674. *)
Lemma copy_loop_spec (src dst n : Z) p :
  src <> dst ->
  let p' := for_loop n (fun i p => ps_store p dst i (ps_load p src i)) p in
  (forall i, 0 <= i < n -> ps_load p' dst i = ps_load p src i)
  /\ (forall q j, q <> dst -> ps_load p' q j = ps_load p q j).
Proof.
  intros Hne. cbv zeta.
  destruct (Z.le_gt_cases 0 n) as [Hn|Hn].
  - apply (for_loop_inv (fun m t =>
      (forall i, 0 <= i < m -> ps_load t dst i = ps_load p src i)
      /\ (forall q j, q <> dst -> ps_load t q j = ps_load p q j))); [exact Hn| |].
    + split; [intros i Hi; lia|reflexivity].
    + intros m t Hm [I1 I2]. split.
      * intros i Hi. rewrite ps_load_store, Z.eqb_refl. simpl.
        destruct (Z.eqb_spec i m) as [->|Hd]; [now apply I2|]. apply I1. lia.
      * intros q j Hq. rewrite ps_load_store.
        destruct (Z.eqb_spec q dst); [congruence|]. now apply I2.
  - rewrite for_loop_nonpos by lia. split; [intros i Hi; lia|reflexivity].
Qed.

Lemma copy_loop_keeps (src dst n : Z) p :
  b <= dst -> b <= brk (heap p) ->
  keeps b mb p (for_loop n (fun i p => ps_store p dst i (ps_load p src i)) p).
Proof.
  intros Hd Hp. apply keeps_for_loop; [|exact Hp].
  intros i t _. apply keeps_store. now left.
Qed.

Lemma alloc_fmod_frecv_keeps nsupers p :
  b <= brk (heap p) ->
  let r := alloc_fmod_frecv g Llu nsupers p in
  keeps b mb p (snd r) /\ fst (fst r) = brk (heap p) /\ b <= snd (fst r)
  /\ fst (fst r) <> snd (fst r)
  /\ (Llu_fmod Llu < brk (heap p) ->
      forall i, 0 <= i < CEILING nsupers (nprow g) ->
        ps_load (snd r) (fst (fst r)) i = ps_load p (Llu_fmod Llu) i).
Proof.
  intros Hp. cbv zeta. unfold alloc_fmod_frecv.
  rewrite ps_malloc_eq. cbv beta iota.
  set (p1 := malloc_state p).
  set (p2 := for_loop _ _ p1).
  rewrite ps_calloc_eq. cbv beta iota. cbn [fst snd].
  assert (K1 : keeps b mb p p1) by apply keeps_malloc_state.
  assert (Hp1 : b <= brk (heap p1)) by (eapply (keeps_brk b mb); eassumption).
  assert (K2 : keeps b mb p1 p2) by (apply copy_loop_keeps; [lia|exact Hp1]).
  assert (Hp2 : b <= brk (heap p2)) by (eapply (keeps_brk b mb); eassumption).
  assert (Hlt : brk (heap p) < brk (heap p2)).
  { destruct K2 as [Kb _]. unfold p1 in Kb. rewrite malloc_state_brk in Kb. lia. }
  split; [|split; [reflexivity|split; [lia|split; [lia|]]]].
  - eapply keeps_trans; [exact K1|]. eapply keeps_trans; [exact K2|].
    eapply keeps_trans; [apply keeps_calloc_state; exact Hp2|].
    now apply keeps_same_heap.
  - intros Hlf i Hi.
    change (ps_load (calloc_state p2) (brk (heap p)) i = ps_load p (Llu_fmod Llu) i).
    rewrite calloc_state_load.
    destruct (Z.eqb_spec (brk (heap p)) (brk (heap p2))); [lia|].
    destruct (copy_loop_spec (Llu_fmod Llu) (brk (heap p))
                (CEILING nsupers (nprow g)) p1 ltac:(lia)) as [C1 _].
    unfold p2. rewrite C1 by exact Hi. apply malloc_state_load.
Qed.

Lemma collect_leaves_keeps nsupers fmod frecv act leafsups p :
  b <= frecv -> b <= act -> b <= leafsups -> b <= brk (heap p) ->
  keeps b mb p (snd (collect_leaves g Llu nsupers fmod frecv act leafsups p)).
Proof.
  intros H1 H2 H3 Hp. unfold collect_leaves.
  destruct (Z.le_gt_cases 0 (CEILING nsupers (nprow g))) as [Hn|Hn].
  - apply (for_loop_inv (fun (n : Z) (st : Z * Z * pdgstrs_state) =>
      keeps b mb p (snd st))); [exact Hn|apply keeps_refl|].
    intros i [[a c] t] Hi K. cbn [snd] in K |- *.
    destruct (not_null (LRtree_ptr Llu i)).
    + cbn [snd]. eapply keeps_trans; [exact K|]. apply keeps_store. now left.
    + destruct (_ <? nsupers); [|exact K].
      destruct (_ =? _); [|exact K].
      destruct (_ =? 0); cbn [snd].
      * eapply keeps_trans; [exact K|].
        eapply keeps_trans; apply keeps_store; now left.
      * eapply keeps_trans; [exact K|]. apply keeps_store. now left.
  - rewrite for_loop_nonpos by lia. apply keeps_refl.
Qed.

Lemma solve_leaves_keeps nrhs fmod leafsups nleaf p :
  b <= fmod -> b <= brk (heap p) ->
  keeps b mb p (solve_leaves D g G Llu nrhs dlsum_fmod_inv fmod leafsups nleaf p).
Proof.
  intros H1 Hp. unfold solve_leaves. apply keeps_for_loop; [|exact Hp].
  intros i t _.
  eapply keeps_trans; [|eapply keeps_helper; [apply Hf|exact H1]].
  eapply keeps_trans; [apply keeps_store; left; exact H1|].
  eapply keeps_trans; [apply keeps_log|].
  destruct (not_null _); [apply keeps_log|apply keeps_refl].
Qed.

Lemma lsolve_recv_keeps nsupers nrhs maxrecvsz fmod frecv m s :
  b <= fmod -> b <= frecv ->
  keeps b mb (ps s)
    (ps (lsolve_recv D g G Llu nsupers nrhs maxrecvsz fmod frecv dlsum_fmod_inv m s)).
Proof.
  intros H1 H2. unfold lsolve_recv.
  destruct (_ <? nsupers).
  - unfold lsolve_recv_x. cbn [ps].
    assert (K1 : forall c e, keeps b mb (ps s) (if c : bool then ps_log (ps s) e else ps s)).
    { intros c e. destruct c; [apply keeps_log|apply keeps_refl]. }
    destruct (Lrowind_bc_ptr Llu _).
    + eapply keeps_trans; [apply K1|]. eapply keeps_helper; [apply Hf|exact H1].
    + apply K1.
  - destruct (_ && _); [|apply keeps_refl].
    unfold lsolve_recv_lsum. cbn [ps].
    eapply keeps_trans; [apply keeps_store; left; exact H2|].
    destruct (RdTree_IsRoot _).
    + unfold lsolve_lsum_root. destruct (_ && _); [|apply keeps_refl].
      eapply keeps_trans; [|eapply keeps_helper; [apply Hf|exact H1]].
      eapply keeps_trans; [apply keeps_store; left; exact H1|].
      eapply keeps_trans; [apply keeps_log|].
      destruct (not_null _); [apply keeps_log|apply keeps_refl].
    + unfold lsolve_lsum_inner. destruct (_ && _); [|apply keeps_refl].
      eapply keeps_trans; [apply keeps_store; left; exact H1|]. apply keeps_log.
Qed.

Lemma lsolve_loop_keeps nsupers nrhs maxrecvsz fmod frecv msgs :
  b <= fmod -> b <= frecv ->
  forall s,
  keeps b mb (ps s)
    (ps (snd (fst (lsolve_loop D g G Llu nsupers nrhs maxrecvsz fmod frecv
                     dlsum_fmod_inv msgs s)))).
Proof.
  intros H1 H2. induction msgs as [|m ms IH]; intros s; cbn [lsolve_loop].
  - destruct (lsolve_pending s); apply keeps_refl.
  - destruct (lsolve_pending s); [|apply keeps_refl].
    eapply keeps_trans; [apply (lsolve_recv_keeps nsupers nrhs maxrecvsz fmod frecv m s H1 H2)|].
    apply IH.
Qed.

Lemma lsolve_wait_sends_keeps nsupers p :
  keeps b mb p (lsolve_wait_sends g Llu nsupers p).
Proof.
  apply keeps_same_heap. unfold lsolve_wait_sends.
  assert (H : forall n (c : Z -> bool) (e : Z -> event) q,
             heap (for_loop n (fun lk p => if c lk then ps_log p (e lk) else p) q) = heap q).
  { intros n c e q. unfold for_loop. generalize (range n). intros l. revert q.
    induction l as [|x l IH]; intros q; simpl; [reflexivity|].
    rewrite IH. destruct (c x); reflexivity. }
  cbn [ps_log heap]. now rewrite !H.
Qed.

Lemma alloc_bmod_brecv_keeps nsupers p :
  b <= brk (heap p) ->
  let r := alloc_bmod_brecv nsupers p in
  keeps b mb p (snd r) /\ fst (fst r) = brk (heap p) /\ b <= snd (fst r)
  /\ fst (fst r) <> snd (fst r)
  /\ (Llu_bmod Llu < brk (heap p) ->
      forall i, 0 <= i < CEILING nsupers (nprow g) ->
        ps_load (snd r) (fst (fst r)) i = ps_load p (Llu_bmod Llu) i).
Proof.
  intros Hp. cbv zeta. unfold alloc_bmod_brecv.
  rewrite ps_malloc_eq. cbv beta iota.
  set (p1 := malloc_state p).
  set (p2 := for_loop _ _ p1).
  rewrite ps_malloc_eq. cbv beta iota. cbn [fst snd].
  assert (K1 : keeps b mb p p1) by apply keeps_malloc_state.
  assert (Hp1 : b <= brk (heap p1)) by (eapply (keeps_brk b mb); eassumption).
  assert (K2 : keeps b mb p1 p2) by (apply copy_loop_keeps; [lia|exact Hp1]).
  assert (Hp2 : b <= brk (heap p2)) by (eapply (keeps_brk b mb); eassumption).
  assert (Hlt : brk (heap p) < brk (heap p2)).
  { destruct K2 as [Kb _]. unfold p1 in Kb. rewrite malloc_state_brk in Kb. lia. }
  split; [|split; [reflexivity|split; [lia|split; [lia|]]]].
  - eapply keeps_trans; [exact K1|]. eapply keeps_trans; [exact K2|].
    eapply keeps_trans; [apply keeps_malloc_state|].
    now apply keeps_same_heap.
  - intros Hlf i Hi.
    change (ps_load (malloc_state p2) (brk (heap p)) i = ps_load p (Llu_bmod Llu) i).
    rewrite malloc_state_load.
    destruct (copy_loop_spec (Llu_bmod Llu) (brk (heap p))
                (CEILING nsupers (nprow g)) p1 ltac:(lia)) as [C1 _].
    unfold p2. rewrite C1 by exact Hi. apply malloc_state_load.
Qed.

Lemma brecv_prepass_keeps nsupers bmod brecv peers p :
  b <= brecv -> b <= brk (heap p) ->
  keeps b mb p (snd (brecv_prepass g Llu nsupers bmod brecv peers p)).
Proof.
  intros H1 Hp. rewrite Hmb. unfold brecv_prepass.
  destruct (count_brecv _ _ _ _ _) as [x y]. cbn [snd].
  assert (K1 : keeps b (Llu_mod_bit Llu) p (set_mod_bit g Llu nsupers bmod p)).
  { unfold set_mod_bit.
    eapply keeps_trans.
    - apply keeps_for_loop; [|exact Hp]. intros i t _. apply keeps_store. now right.
    - apply keeps_for_loop.
      + intros i t _. destruct (_ =? _); [|apply keeps_refl].
        destruct (_ && _); [|apply keeps_refl]. apply keeps_store. now right.
      + eapply (keeps_brk b (Llu_mod_bit Llu)); [|exact Hp]. apply keeps_for_loop; [|exact Hp].
        intros i t _. apply keeps_store. now right. }
  eapply keeps_trans; [exact K1|]. unfold allreduce_brecv.
  eapply keeps_trans; [apply keeps_log|].
  apply keeps_for_loop.
  - intros i t _. apply keeps_store. now left.
  - eapply (keeps_brk b (Llu_mod_bit Llu)); [apply keeps_log|]. eapply (keeps_brk b (Llu_mod_bit Llu)); eassumption.
Qed.

Lemma count_Urbs_keeps nsupers Urbs p :
  b <= Urbs -> b <= brk (heap p) ->
  keeps b mb p (count_Urbs nsupers Urbs p).
Proof.
  intros H1 Hp. unfold count_Urbs. apply keeps_for_loop; [|exact Hp].
  intros lk t Ht. destruct (Ufstnz_br_ptr Llu lk) as [usub|]; [|apply keeps_refl].
  destruct (Z.le_gt_cases 0 (usub 0)) as [Hn|Hn].
  - apply (for_loop_inv (fun (n : Z) (st : Z * pdgstrs_state) =>
      keeps b mb t (snd st))); [exact Hn|apply keeps_refl|].
    intros i [a q] Hi K. cbn [fst snd] in K |- *.
    eapply keeps_trans; [exact K|]. apply keeps_store. now left.
  - rewrite for_loop_nonpos by lia. apply keeps_refl.
Qed.

Lemma bsend_x_keeps lk kcol ii p : keeps b mb p (bsend_x D g Llu lk kcol ii p).
Proof.
  apply keeps_same_heap. unfold bsend_x, for_loop.
  generalize (range (nprow g)). intros l. revert p.
  induction l as [|x l IH]; intros p; simpl; [reflexivity|].
  rewrite IH. destruct (negb _); reflexivity.
Qed.

Lemma usolve_block_keeps nrhs bmod Urbs k lk p :
  b <= bmod ->
  keeps b mb p (usolve_block D g Llu nrhs bmod Urbs dlsum_bmod_inv k lk p).
Proof.
  intros H1. unfold usolve_block.
  set (q := bsend_x _ _ _ _ _ _ _).
  assert (K : keeps b mb p q).
  { unfold q. eapply keeps_trans; [apply keeps_store; left; exact H1|].
    eapply keeps_trans; [apply keeps_log|]. apply bsend_x_keeps. }
  destruct (negb _); [|exact K].
  eapply keeps_trans; [exact K|]. eapply keeps_helper; [apply Hb|exact H1].
Qed.

Lemma usolve_roots_keeps nsupers nrhs bmod brecv Urbs u :
  b <= bmod ->
  keeps b mb (ups u)
    (ups (usolve_roots D g Llu nsupers nrhs bmod brecv Urbs dlsum_bmod_inv u)).
Proof.
  intros H1. unfold usolve_roots.
  destruct (Z.le_gt_cases 0 nsupers) as [Hn|Hn].
  - apply (for_loop_inv (fun (n : Z) (s : usolve_state) => keeps b mb (ups u) (ups s)));
      [exact Hn|apply keeps_refl|].
    intros i t Hi K.
    destruct (negb _); [|exact K].
    destruct (_ && _); [|exact K].
    destruct (_ && _); [|exact K].
    cbn [ups]. eapply keeps_trans; [exact K|]. now apply usolve_block_keeps.
  - rewrite for_loop_nonpos by lia. apply keeps_refl.
Qed.

Lemma usolve_recv_keeps nrhs bmod brecv Urbs m u :
  b <= bmod -> b <= brecv ->
  keeps b mb (ups u)
    (ups (usolve_recv D g Llu nrhs bmod brecv Urbs dlsum_bmod_inv m u)).
Proof.
  intros H1 H2. unfold usolve_recv.
  destruct (_ =? Xk D); cbn [ups].
  - eapply keeps_trans; [apply keeps_log|]. eapply keeps_helper; [apply Hb|exact H1].
  - destruct (_ =? LSUM D); cbn [ups]; [|apply keeps_log].
    eapply keeps_trans; [apply keeps_log|].
    eapply keeps_trans; [apply keeps_store; left; exact H2|].
    destruct (_ && _); [|apply keeps_refl]. now apply usolve_block_keeps.
Qed.

Lemma usolve_loop_keeps nrhs bmod brecv Urbs msgs :
  b <= bmod -> b <= brecv ->
  forall u,
  keeps b mb (ups u)
    (ups (snd (fst (usolve_loop D g Llu nrhs bmod brecv Urbs dlsum_bmod_inv msgs u)))).
Proof.
  intros H1 H2. induction msgs as [|m ms IH]; intros u; cbn [usolve_loop].
  - destruct (usolve_pending u); apply keeps_refl.
  - destruct (usolve_pending u); [|apply keeps_refl].
    eapply keeps_trans; [apply (usolve_recv_keeps nrhs bmod brecv Urbs m u H1 H2)|].
    apply IH.
Qed.

Lemma release_all_keeps Urbs bmod brecv p :
  keeps b mb p (release_all Urbs bmod brecv p)
  /\ In bmod (freed (heap (release_all Urbs bmod brecv p))).
Proof.
  unfold release_all.
  set (p3 := ps_free (ps_free (ps_free p Urbs) bmod) brecv).
  assert (Hh : forall n q, heap (for_loop n (fun i p => ps_log p (EvWait i)) q) = heap q).
  { intros n q. unfold for_loop. generalize (range n). intros l. revert q.
    induction l as [|x l IH]; intros q; simpl; [reflexivity|]. now rewrite IH. }
  split.
  - eapply keeps_trans; [apply keeps_free|].
    eapply keeps_trans; [apply keeps_free|].
    eapply keeps_trans; [apply keeps_free|].
    apply keeps_same_heap. cbn [ps_log heap]. apply Hh.
  - cbn [ps_log heap]. rewrite Hh. simpl. tauto.
Qed.

End Frame.

Lemma pdgstrs_entry_keeps b mb iam_indet n nrhs s :
  match pdgstrs_entry iam_indet n nrhs s with
  | Returned s' => keeps b mb s s' /\ (n < 0 \/ nrhs < 0)
  | Proceeds s' => keeps b mb s s'
  end.
Proof.
  unfold pdgstrs_entry. cbn [intMalloc_dist].
  assert (K : forall i t,
    keeps b mb s {| heap := {| cells := cells (heap s); brk := brk (heap s) + 1;
                               freed := freed (heap s) |};
                    info := i; Llu_frecv := Llu_frecv s; Llu_brecv := Llu_brecv s;
                    Llu_SolveMsgSent := Llu_SolveMsgSent s; trace := t |}).
  { intros i t. repeat split; simpl; auto; lia. }
  destruct (Z.ltb_spec n 0); cbn [negb Z.eqb]; [split; [apply K|lia]|].
  destruct (Z.ltb_spec nrhs 0); cbn [negb Z.eqb]; [split; [apply K|lia]|apply K].
Qed.

Lemma pdgstrs_keeps iam_indet n nrhs msgsF msgsB peers s :
  (forall xk knsupc k fmod nb lptr luptr,
     helper_ok (dlsum_fmod_inv xk knsupc k fmod nb lptr luptr) fmod) ->
  (forall xk k bmod Urbs, helper_ok (dlsum_bmod_inv xk k bmod Urbs) bmod) ->
  let r := pdgstrs iam_indet n nrhs msgsF msgsB peers s in
  keeps (brk (heap s)) (Llu_mod_bit Llu) s (snd r)
  /\ (0 <= n -> 0 <= nrhs -> fst r = Finished ->
      exists fmod bmod,
        brk (heap s) <= fmod /\ brk (heap s) <= bmod
        /\ In fmod (freed (heap (snd r))) /\ In bmod (freed (heap (snd r)))).
Proof.
  intros Hf Hb. cbv zeta.
  set (b := brk (heap s)). set (mb := Llu_mod_bit Llu).
  assert (Hmb : mb = Llu_mod_bit Llu) by reflexivity.
  unfold pdgstrs.
  pose proof (pdgstrs_entry_keeps b mb iam_indet n nrhs s) as HE.
  destruct (pdgstrs_entry iam_indet n nrhs s) as [s'|p0].
  { destruct HE as [HE Hneg]. cbn [fst snd]. split; [exact HE|]. intros; lia. }
  set (nsupers := nsupers_of G n).
  set (maxrecvsz := sp_ienv3 * nrhs + Z.max (XK_H D) (LSUM_H D)).
  assert (B0 : b <= brk (heap p0)) by (eapply (keeps_brk b mb); [exact HE|unfold b; lia]).
  set (p1 := ps_set_sent p0 0).
  assert (K1 : keeps b mb s p1).
  { eapply keeps_trans; [exact HE|]. now apply keeps_same_heap. }
  assert (B1 : b <= brk (heap p1)) by exact B0.
  pose proof (alloc_fmod_frecv_keeps b mb nsupers p1 B1) as HA. cbv zeta in HA.
  destruct (alloc_fmod_frecv g Llu nsupers p1) as [[fmod frecv] p2].
  cbn [fst snd] in HA. destruct HA as [K2 [Efmod [Bfrecv [_ _]]]].
  assert (Bfmod : b <= fmod) by lia.
  assert (B2 : b <= brk (heap p2)) by (eapply (keeps_brk b mb); eassumption).
  rewrite (ps_calloc_eq p2). cbv beta iota.
  set (p3 := calloc_state p2).
  assert (K3 : keeps b mb p2 p3) by (now apply keeps_calloc_state).
  assert (B3 : b <= brk (heap p3)) by (eapply (keeps_brk b mb); eassumption).
  rewrite (ps_malloc_eq p3). cbv beta iota.
  set (p4 := ps_free (malloc_state p3) (brk (heap p3))).
  assert (K4 : keeps b mb p3 p4).
  { eapply keeps_trans; [apply keeps_malloc_state|apply keeps_free]. }
  assert (B4 : b <= brk (heap p4)) by (eapply (keeps_brk b mb); eassumption).
  rewrite (ps_calloc_eq p4). cbv beta iota. set (p5 := calloc_state p4).
  assert (K5 : keeps b mb p4 p5) by (now apply keeps_calloc_state).
  assert (B5 : b <= brk (heap p5)) by (eapply (keeps_brk b mb); eassumption).
  rewrite (ps_calloc_eq p5). cbv beta iota. set (p6 := calloc_state p5).
  assert (K6 : keeps b mb p5 p6) by (now apply keeps_calloc_state).
  assert (B6 : b <= brk (heap p6)) by (eapply (keeps_brk b mb); eassumption).
  rewrite (ps_calloc_eq p6). cbv beta iota. set (p7 := calloc_state p6).
  assert (K7 : keeps b mb p6 p7) by (now apply keeps_calloc_state).
  assert (B7 : b <= brk (heap p7)) by (eapply (keeps_brk b mb); eassumption).
  rewrite (ps_calloc_eq p7). cbv beta iota. set (p8 := calloc_state p7).
  assert (K8 : keeps b mb p7 p8) by (now apply keeps_calloc_state).
  assert (B8 : b <= brk (heap p8)) by (eapply (keeps_brk b mb); eassumption).
  rewrite (ps_calloc_eq p8). cbv beta iota. set (p9 := calloc_state p8).
  assert (K9 : keeps b mb p8 p9) by (now apply keeps_calloc_state).
  assert (B9 : b <= brk (heap p9)) by (eapply (keeps_brk b mb); eassumption).
  pose proof (collect_leaves_keeps b mb nsupers fmod frecv (brk (heap p6))
                (brk (heap p8)) p9 Bfrecv B6 B8 B9) as K10.
  destruct (collect_leaves g Llu nsupers fmod frecv (brk (heap p6)) (brk (heap p8)) p9)
    as [[nfrecvmod0 nleaf] p10].
  cbn [snd] in K10.
  assert (B10 : b <= brk (heap p10)) by (eapply (keeps_brk b mb); eassumption).
  set (p11 := solve_leaves D g G Llu nrhs dlsum_fmod_inv fmod (brk (heap p8)) nleaf p10).
  assert (K11 : keeps b mb p10 p11) by (apply solve_leaves_keeps; assumption).
  set (s0 := {| nfrecvx := Llu_nfrecvx Llu; nfrecvmod := nfrecvmod0;
                nfrecvx_buf := 0; recvbuf0 := 0; ps := p11 |}).
  pose proof (lsolve_loop_keeps b mb Hf nsupers nrhs maxrecvsz fmod frecv msgsF
                Bfmod Bfrecv s0) as K12.
  assert (K0 : keeps b mb s p11).
  { eapply keeps_trans; [exact K1|]. eapply keeps_trans; [exact K2|].
    eapply keeps_trans; [exact K3|]. eapply keeps_trans; [exact K4|].
    eapply keeps_trans; [exact K5|]. eapply keeps_trans; [exact K6|].
    eapply keeps_trans; [exact K7|]. eapply keeps_trans; [exact K8|].
    eapply keeps_trans; [exact K9|]. eapply keeps_trans; [exact K10|].
    exact K11. }
  destruct (lsolve_loop D g G Llu nsupers nrhs maxrecvsz fmod frecv dlsum_fmod_inv
              msgsF s0) as [[st1 s1] rest1].
  cbn [fst snd ps] in K12.
  assert (K13 : keeps b mb s (ps s1)) by (eapply keeps_trans; [exact K0|exact K12]).
  destruct st1; cbn [fst snd]; [|split; [exact K13|discriminate]].
  set (q1 := ps_free (ps_free (ps s1) fmod) frecv).
  assert (Ffmod : In fmod (freed (heap q1))) by (simpl; tauto).
  assert (Kq1 : keeps b mb s q1).
  { eapply keeps_trans; [exact K13|].
    eapply keeps_trans; apply keeps_free. }
  set (q2 := lsolve_wait_sends g Llu nsupers q1).
  assert (Kq2 : keeps b mb q1 q2) by apply lsolve_wait_sends_keeps.
  assert (Bq2 : b <= brk (heap q2)).
  { eapply (keeps_brk b mb); [eapply keeps_trans; [exact Kq1|exact Kq2]|unfold b; lia]. }
  pose proof (alloc_bmod_brecv_keeps b mb nsupers q2 Bq2) as HB. cbv zeta in HB.
  destruct (alloc_bmod_brecv nsupers q2) as [[bmod brecv] q3].
  cbn [fst snd] in HB. destruct HB as [Kq3 [Ebmod [Bbrecv [_ _]]]].
  assert (Bbmod : b <= bmod) by lia.
  assert (Bq3 : b <= brk (heap q3)) by (eapply (keeps_brk b mb); eassumption).
  pose proof (brecv_prepass_keeps b mb Hmb nsupers bmod brecv peers q3 Bbrecv Bq3) as Kq4.
  destruct (brecv_prepass g Llu nsupers bmod brecv peers q3) as [[nbrecvmod0 nroot0] q4].
  cbn [snd] in Kq4.
  assert (Bq4 : b <= brk (heap q4)) by (eapply (keeps_brk b mb); eassumption).
  rewrite (ps_calloc_eq q4). cbv beta iota. set (q5 := calloc_state q4).
  assert (Kq5 : keeps b mb q4 q5) by (now apply keeps_calloc_state).
  assert (Bq5 : b <= brk (heap q5)) by (eapply (keeps_brk b mb); eassumption).
  set (q6 := count_Urbs nsupers (brk (heap q4)) q5).
  assert (Kq6 : keeps b mb q5 q6) by (apply count_Urbs_keeps; assumption).
  set (u0 := {| nbrecvx := Llu_nbrecvx Llu; nbrecvmod := nbrecvmod0;
                nroot := nroot0; ups := q6 |}).
  set (u1 := usolve_roots D g Llu nsupers nrhs bmod brecv (brk (heap q4))
               dlsum_bmod_inv u0).
  assert (Ku1 : keeps b mb q6 (ups u1)).
  { apply (usolve_roots_keeps b mb Hb nsupers nrhs bmod brecv (brk (heap q4)) u0 Bbmod). }
  pose proof (usolve_loop_keeps b mb Hb nrhs bmod brecv (brk (heap q4)) msgsB
                Bbmod Bbrecv u1) as Ku2.
  assert (Kx1 : keeps b mb q1 (ups u1)).
  { eapply keeps_trans; [exact Kq2|]. eapply keeps_trans; [exact Kq3|].
    eapply keeps_trans; [exact Kq4|]. eapply keeps_trans; [exact Kq5|].
    eapply keeps_trans; [exact Kq6|]. exact Ku1. }
  assert (Kall : keeps b mb s (ups u1)).
  { eapply keeps_trans; [exact Kq1|exact Kx1]. }
  destruct (usolve_loop D g Llu nrhs bmod brecv (brk (heap q4)) dlsum_bmod_inv msgsB u1)
    as [[st2 u2] rest2].
  cbn [fst snd] in Ku2.
  assert (Ku3 : keeps b mb s (ups u2)) by (eapply keeps_trans; [exact Kall|exact Ku2]).
  destruct st2; cbn [fst snd]; [|split; [exact Ku3|discriminate]].
  rewrite (ps_malloc_eq (ups u2)). cbv beta iota. cbn [fst snd].
  set (q7 := ps_free (malloc_state (ups u2)) (brk (heap (ups u2)))).
  assert (Kq7 : keeps b mb (ups u2) q7).
  { eapply keeps_trans; [apply keeps_malloc_state|apply keeps_free]. }
  destruct (release_all_keeps b mb (brk (heap q4)) bmod brecv q7) as [Kr Fb].
  assert (Kfin : keeps b mb s (release_all (brk (heap q4)) bmod brecv q7)).
  { eapply keeps_trans; [exact Ku3|]. eapply keeps_trans; [exact Kq7|exact Kr]. }
  split; [exact Kfin|].
  intros _ _ _. exists fmod, bmod.
  split; [exact Bfmod|]. split; [exact Bbmod|]. split; [|exact Fb].
  assert (Kx : keeps b mb q1 (release_all (brk (heap q4)) bmod brecv q7)).
  { eapply keeps_trans; [exact Kx1|]. eapply keeps_trans; [exact Ku2|].
    eapply keeps_trans; [exact Kq7|exact Kr]. }
  destruct Kx as [_ [_ Kf]]. now apply Kf.
Qed.


End WholeCall.

(** The model of [dlsum_fmod_inv] only stores into the counter block it
    is handed and logs calls: it allocates and frees nothing. *)
Lemma dlsum_fmod_inv_model_alloc D g G Llu nrhs fuel :
  forall xk knsupc k fmodp nb lptr luptr p,
  brk (heap (dlsum_fmod_inv_model D g G Llu nrhs fuel xk knsupc k fmodp nb lptr luptr p))
  = brk (heap p)
  /\ freed (heap (dlsum_fmod_inv_model D g G Llu nrhs fuel xk knsupc k fmodp nb lptr luptr p))
     = freed (heap p).
Proof.
  induction fuel as [|fuel IH]; intros xk knsupc k fmodp nb lptr luptr p.
  - simpl. split; reflexivity.
  - cbn [dlsum_fmod_inv_model]. unfold for_loop.
    generalize (range nb). intros l. generalize lptr. revert p.
    induction l as [|x l IHl]; intros p lp.
    + simpl. split; reflexivity.
    + cbn [fold_left].
      match goal with
      | |- context [fold_left ?f l (?a, ?b)] =>
          destruct (IHl b a) as [F M]; set (p' := b) in *
      end.
      assert (Step : brk (heap p') = brk (heap p) /\ freed (heap p') = freed (heap p)).
      { unfold p'. cbn [fst snd].
        set (ik := deref (Lrowind_bc_ptr Llu (LBj g k)) lp).
        set (lk := LBi g ik).
        set (p0 := ps_store p fmodp lk (ps_load p fmodp lk - 1)).
        destruct (ps_load p0 fmodp lk =? 0); [|split; reflexivity].
        destruct (negb (iam g =? PNUM g (MYROW g (iam g)) (PCOL g ik))).
        - destruct (ps_load p0 (Llu_frecv p0) lk =? 0); split; reflexivity.
        - destruct (ps_load p0 (Llu_frecv p0) lk =? 0); [|split; reflexivity].
          match goal with
          | |- context [dlsum_fmod_inv_model D g G Llu nrhs fuel ?a ?b ?c ?d ?e ?f ?h ?pp] =>
              destruct (IH a b c d e f h pp) as [F2 M2]; set (p2 := pp) in *
          end.
          rewrite F2, M2. unfold p2. destruct (not_null _); split; reflexivity. }
      destruct Step as [Fs Ms]. split; congruence.
Qed.

Lemma dlsum_fmod_inv_model_ok D g G Llu nrhs fuel xk knsupc k fmodp nb lptr luptr :
  helper_ok (dlsum_fmod_inv_model D g G Llu nrhs fuel xk knsupc k fmodp nb lptr luptr) fmodp.
Proof.
  intros p.
  destruct (dlsum_fmod_inv_model_alloc D g G Llu nrhs fuel xk knsupc k fmodp nb lptr luptr p)
    as [A B].
  destruct (dlsum_fmod_inv_model_counters D g G Llu nrhs fuel xk knsupc k fmodp nb lptr luptr p)
    as [C _].
  split; [lia|]. split; [exact C|]. intros x Hx. now rewrite B.
Qed.

(** Process 1 of the 3 x 1 mesh above, at the start of a call: blocks 1,
    2 and 3 of its store are [Llu->fmod], [Llu->bmod] and [Llu->mod_bit]. *)
Definition call_start : pdgstrs_state := mk_state (mk_mem [[]; [1]; [0]; [0]]) 0.
Definition call_peers : list (array Z) := [tab 0 [0]].


(* ================================================================== *)
(** * The redistribution of the right-hand side (lines 149-554) *)
(* ================================================================== *)

(** [ScalePermstruct->perm_r], [ScalePermstruct->perm_c]. *)
Record ScalePermstruct_t : Type := { perm_r : array Z; perm_c : array Z }.

(** The parts of [SOLVEstruct] the redistribution reads: the row-to-process
    map, the diagonal processes, and the two tables
    [gstrs_comm->B_to_X_SendCnt] and [gstrs_comm->X_to_B_SendCnt], each
    of them eight arrays of [procs] entries laid one after the other
    ([SendCnt], [SendCnt_nrhs], [RecvCnt], [RecvCnt_nrhs], [sdispls],
    [sdispls_nrhs], [rdispls], [rdispls_nrhs]). *)
Record SOLVEstruct_t : Type :=
  { row_to_proc : array Z;
    num_diag_procs : Z;
    diag_procs : array Z;
    B_to_X_SendCnt : array Z;
    X_to_B_SendCnt : array Z }.

(** [for (k = lo; k < hi; k += step) s = body k s], for [0 < step]: the
    body runs for [k = lo, lo + step, ...] as long as [k < hi]. *)
Definition for_stride {S} (lo hi step : Z) (body : Z -> S -> S) (s : S) : S :=
  for_loop ((hi - lo + step - 1) / step) (fun t => body (lo + t * step)) s.

(** [MPI_Alltoallv] on [grid->comm], as process [me] sees it: from every
    process [q], the [sendcnts_q[me]] elements that start at
    [sdispls_q[me]] in the send buffer of [q] arrive at [rdispls_me[q]]
    in the receive buffer of [me].  (MPI asks that [recvcnts_me[q]] be
    [sendcnts_q[me]].) *)
Definition MPI_Alltoallv {A} (procs me : Z) (sendbuf : Z -> array A)
    (sendcnts sdispls : Z -> array Z) (rdispls : array Z)
    (recvbuf : array A) : array A :=
  for_loop procs (fun q rb =>
    for_loop (sendcnts q me) (fun t rb =>
      upd rb (rdispls q + t) (sendbuf q (sdispls q me + t))) rb) recvbuf.

Section Redistribution.

(** The element type of [B] and [x] ([double]), and the conversion of
    the assignment [x[l - XK_H] = k]. *)
Variable V : Type.
Variable of_int : Z -> V.
Variable D : superlu_defs.

(** [gstrs_comm->ptr_to_ibuf], [gstrs_comm->ptr_to_dbuf], and the block
    that [send_ibuf] and [send_dbuf] point into. *)
Record pack_state : Type :=
  { ptr_to_ibuf : array Z;
    ptr_to_dbuf : array Z;
    send_ibuf : array Z;
    send_dbuf : array V }.

(** Lines 215-216 and 425-426. *)
Definition set_ptrs (p vi vd : Z) (st : pack_state) : pack_state :=
  {| ptr_to_ibuf := upd (ptr_to_ibuf st) p vi;
     ptr_to_dbuf := upd (ptr_to_dbuf st) p vd;
     send_ibuf := send_ibuf st; send_dbuf := send_dbuf st |}.

(** Lines 224-231 and 446-453, the same in both routines: the row index
    [ii] and the [nrhs] values [src[base + j*stride]] go to the places
    kept for process [q]. *)
Definition pack_row (nrhs : Z) (src : array V) (q ii base stride : Z)
    (st : pack_state) : pack_state :=
  let jj := ptr_to_ibuf st q in
  let sib := upd (send_ibuf st) jj ii in
  let jj := ptr_to_dbuf st q in
  let sdb := snd (for_loop nrhs (fun j (c : Z * array V) =>
                    (fst c + 1, upd (snd c) (fst c) (src (base + j * stride))))
                  (jj, send_dbuf st)) in
  {| ptr_to_ibuf := upd (ptr_to_ibuf st) q (ptr_to_ibuf st q + 1);
     ptr_to_dbuf := upd (ptr_to_dbuf st) q (ptr_to_dbuf st q + nrhs);
     send_ibuf := sib; send_dbuf := sdb |}.

(** Lines 214-232 of [pdReDistribute_B_to_X]. *)
Definition B_to_X_pack (g : gridinfo_t) (G : Glu_persist_t)
    (P : ScalePermstruct_t) (S : SOLVEstruct_t) (B : array V)
    (m_loc nrhs ldb fst_row : Z) (st : pack_state) : pack_state :=
  let procs := nprow g * npcol g in
  let sdispls := slice (B_to_X_SendCnt S) (4 * procs) in
  let st := for_loop procs (fun p st => set_ptrs p (sdispls p) (sdispls p * nrhs) st) st in
  for_loop m_loc (fun i st =>
    let l := fst_row + i in
    let irow := perm_c P (perm_r P l) in
    let gbi := BlockNum G irow in
    let p := PNUM g (PROW g gbi) (PCOL g gbi) in
    pack_row nrhs B p irow i ldb st) st.

(** Lines 312-330 of [pdReDistribute_B_to_X]. *)
Definition B_to_X_unpack (g : gridinfo_t) (G : Glu_persist_t) (S : SOLVEstruct_t)
    (nrhs : Z) (ilsum : array Z) (recv_ibuf : array Z) (recv_dbuf : array V)
    (x : array V) : array V :=
  let procs := nprow g * npcol g in
  let RecvCnt := slice (B_to_X_SendCnt S) (2 * procs) in
  let rdispls_nrhs := slice (B_to_X_SendCnt S) (7 * procs) in
  snd (for_loop procs (fun p (st : Z * array V) =>
    let jj := rdispls_nrhs p in
    let r := for_loop (RecvCnt p) (fun i (st : Z * Z * array V) =>
      let ii := fst (fst st) in
      let jj := snd (fst st) in
      let x := snd st in
      let irow := recv_ibuf ii in
      let k := BlockNum G irow in
      let knsupc := SuperSize G k in
      let lk := LBi g k in
      let l := X_BLK D ilsum nrhs lk in
      let x := upd x (l - XK_H D) (of_int k) in
      let irow := irow - FstBlockC G k in
      let c := for_loop nrhs (fun j (c : Z * array V) =>
                 (fst c + 1, upd (snd c) (l + irow + j * knsupc) (recv_dbuf (fst c))))
               (jj, x) in
      (ii + 1, fst c, snd c)) (fst st, jj, snd st) in
    (fst (fst r), snd r)) (0, x)).

(** Lines 424-458 of [pdReDistribute_X_to_B]; [ii = irow], the branch
    of the [#if 0] that is compiled. *)
Definition X_to_B_pack (g : gridinfo_t) (G : Glu_persist_t) (S : SOLVEstruct_t)
    (n nrhs : Z) (ilsum : array Z) (x : array V) (st : pack_state) : pack_state :=
  let nsupers := nsupers_of G n in
  let procs := nprow g * npcol g in
  let sdispls := slice (X_to_B_SendCnt S) (4 * procs) in
  let sdispls_nrhs := slice (X_to_B_SendCnt S) (5 * procs) in
  let st := for_loop procs (fun p st => set_ptrs p (sdispls p) (sdispls_nrhs p) st) st in
  for_loop (num_diag_procs S) (fun p st =>
    let pkk := diag_procs S p in
    if iam g =? pkk then
      for_stride p nsupers (num_diag_procs S) (fun k st =>
        let knsupc := SuperSize G k in
        let lk := LBi g k in
        let irow := FstBlockC G k in
        let l := X_BLK D ilsum nrhs lk in
        snd (for_loop knsupc (fun i (c : Z * pack_state) =>
               let irow := fst c in
               let ii := irow in
               let q := row_to_proc S ii in
               (irow + 1, pack_row nrhs x q ii (l + i) knsupc (snd c)))
             (irow, st))) st
    else st) st.

(** Lines 534-540 of [pdReDistribute_X_to_B]. *)
Definition X_to_B_unpack (m_loc nrhs ldb fst_row : Z)
    (recv_ibuf : array Z) (recv_dbuf : array V) (B : array V) : array V :=
  snd (for_loop m_loc (fun i (c : Z * array V) =>
    let irow := recv_ibuf i in
    let irow := irow - fst_row in
    for_loop nrhs (fun j (c : Z * array V) =>
      (fst c + 1, upd (snd c) (irow + j * ldb) (recv_dbuf (fst c)))) c) (0, B)).

(** ** The routines on all the processes of the mesh *)

(** What the processes of the mesh hold when they enter a
    redistribution: the mesh, the supernode partition, the permutations
    and the row-to-process map (the same on every process), and for
    process [q] its share of rows [fst_row q, fst_row q + m_loc q), the
    leading dimension of its [B], its [ilsum] and its two tables. *)
Record world : Type :=
  { w_nprow : Z; w_npcol : Z;
    w_Glu : Glu_persist_t;
    w_perm : ScalePermstruct_t;
    w_n : Z; w_nrhs : Z;
    w_row_to_proc : array Z;
    w_num_diag_procs : Z;
    w_diag_procs : array Z;
    w_m_loc : Z -> Z; w_fst_row : Z -> Z; w_ldb : Z -> Z;
    w_ilsum : Z -> array Z;
    w_B_to_X_SendCnt : Z -> array Z;
    w_X_to_B_SendCnt : Z -> array Z }.

Definition w_procs (W : world) : Z := w_nprow W * w_npcol W.

Definition grid_of (W : world) (me : Z) : gridinfo_t :=
  {| nprow := w_nprow W; npcol := w_npcol W; iam := me |}.

Definition solve_of (W : world) (me : Z) : SOLVEstruct_t :=
  {| row_to_proc := w_row_to_proc W;
     num_diag_procs := w_num_diag_procs W;
     diag_procs := w_diag_procs W;
     B_to_X_SendCnt := w_B_to_X_SendCnt W me;
     X_to_B_SendCnt := w_X_to_B_SendCnt W me |}.

(** [pdReDistribute_B_to_X] called on every process: the [x] of process
    [me] on return.  [B q] and [x q] are the arrays of process [q],
    [scr q] its pointer arrays and freshly allocated buffers on entry;
    [recv_ibuf = send_ibuf + k] and [recv_dbuf = send_dbuf + k*nrhs]
    (lines 197-204). *)
Definition pdReDistribute_B_to_X (W : world) (B x : Z -> array V)
    (scr : Z -> pack_state) (me : Z) : array V :=
  let procs := w_procs W in
  let nrhs := w_nrhs W in
  let tbl := w_B_to_X_SendCnt W in
  let packed q :=
    B_to_X_pack (grid_of W q) (w_Glu W) (w_perm W) (solve_of W q) (B q)
      (w_m_loc W q) nrhs (w_ldb W q) (w_fst_row W q) (scr q) in
  let k := slice (tbl me) (4 * procs) (procs - 1) + tbl me (procs - 1) in
  let recv_ibuf :=
    MPI_Alltoallv procs me (fun q => send_ibuf (packed q))
      (fun q => tbl q) (fun q => slice (tbl q) (4 * procs))
      (slice (tbl me) (6 * procs)) (slice (send_ibuf (packed me)) k) in
  let recv_dbuf :=
    MPI_Alltoallv procs me (fun q => send_dbuf (packed q))
      (fun q => slice (tbl q) procs) (fun q => slice (tbl q) (5 * procs))
      (slice (tbl me) (7 * procs)) (slice (send_dbuf (packed me)) (k * nrhs)) in
  B_to_X_unpack (grid_of W me) (w_Glu W) (solve_of W me) nrhs (w_ilsum W me)
    recv_ibuf recv_dbuf (x me).

(** [pdReDistribute_X_to_B] called on every process: the [B] of process
    [me] on return. *)
Definition pdReDistribute_X_to_B (W : world) (B x : Z -> array V)
    (scr : Z -> pack_state) (me : Z) : array V :=
  let procs := w_procs W in
  let nrhs := w_nrhs W in
  let tbl := w_X_to_B_SendCnt W in
  let packed q :=
    X_to_B_pack (grid_of W q) (w_Glu W) (solve_of W q) (w_n W) nrhs
      (w_ilsum W q) (x q) (scr q) in
  let k := slice (tbl me) (4 * procs) (procs - 1) + tbl me (procs - 1) in
  let recv_ibuf :=
    MPI_Alltoallv procs me (fun q => send_ibuf (packed q))
      (fun q => tbl q) (fun q => slice (tbl q) (4 * procs))
      (slice (tbl me) (6 * procs)) (slice (send_ibuf (packed me)) k) in
  let recv_dbuf :=
    MPI_Alltoallv procs me (fun q => send_dbuf (packed q))
      (fun q => slice (tbl q) procs) (fun q => slice (tbl q) (5 * procs))
      (slice (tbl me) (7 * procs)) (slice (send_dbuf (packed me)) (k * nrhs)) in
  X_to_B_unpack (w_m_loc W me) nrhs (w_ldb W me) (w_fst_row W me)
    recv_ibuf recv_dbuf (B me).

End Redistribution.

(* ================================================================== *)
(** * Redistribution: what is packed, sent and received *)
(* ================================================================== *)

Lemma for_loop_cursor {A} n (dst : Z -> Z -> Z) (val : Z -> Z -> A) c0 (a0 : array A) :
  for_loop n (fun j (c : Z * array A) =>
                (fst c + 1, upd (snd c) (dst j (fst c)) (val j (fst c)))) (c0, a0)
  = (c0 + Z.max 0 n,
     write_list (map (fun j => (dst j (c0 + j), val j (c0 + j))) (range n)) a0).
Proof.
  destruct (Z.le_gt_cases n 0) as [Hn|Hn].
  - rewrite for_loop_nonpos, range_nonpos by lia. simpl.
    f_equal. lia.
  - replace (Z.max 0 n) with n by lia.
    assert (G : forall k, 0 <= k ->
      for_loop k (fun j (c : Z * array A) =>
                (fst c + 1, upd (snd c) (dst j (fst c)) (val j (fst c)))) (c0, a0)
      = (c0 + k,
         write_list (map (fun j => (dst j (c0 + j), val j (c0 + j))) (range k)) a0)).
    { intros k Hk. pattern k. apply natlike_ind; [| |exact Hk].
      - rewrite for_loop_nonpos, range_nonpos by lia. simpl. f_equal. lia.
      - intros y Hy IH. unfold Z.succ. rewrite for_loop_succ by lia. rewrite IH.
        cbn [fst snd]. rewrite range_succ by lia. rewrite map_app, write_list_app.
        simpl. f_equal. lia. }
    apply G. lia.
Qed.

Lemma for_loop_write_lists {A} n (ws : Z -> list (Z * A)) (a0 : array A) :
  for_loop n (fun i a => write_list (ws i) a) a0
  = write_list (flat_map ws (range n)) a0.
Proof.
  unfold for_loop. generalize (range n). intros l. revert a0.
  induction l as [|x l IH]; intros a0; [reflexivity|].
  cbn [fold_left flat_map]. rewrite write_list_app. apply IH.
Qed.

Lemma scaled_inj s s' n j j' :
  0 <= j < n -> 0 <= j' < n -> s * n + j = s' * n + j' -> s = s' /\ j = j'.
Proof.
  intros Hj Hj' E.
  assert (s = s') by nia. subst. split; [reflexivity|lia].
Qed.

(** Prefix sums: [psum f p = f 0 + ... + f (p-1)]. *)
Definition psum (f : array Z) (p : Z) : Z := sumZ (range p) f.

Lemma psum_0 f : psum f 0 = 0.
Proof. reflexivity. Qed.

Lemma psum_succ f p : 0 <= p -> psum f (p + 1) = psum f p + f p.
Proof.
  intros Hp. unfold psum. rewrite range_succ by lia.
  rewrite sumZ_app, sumZ_single. reflexivity.
Qed.

Lemma psum_mono f n p p' :
  (forall i, 0 <= i < n -> 0 <= f i) -> 0 <= p -> p <= p' -> p' <= n ->
  psum f p <= psum f p'.
Proof.
  intros Hf Hp Hle Hn.
  assert (G : forall d, 0 <= d -> p + d <= n -> psum f p <= psum f (p + d)).
  { intros d Hd. pattern d. apply natlike_ind; [| |exact Hd].
    - intros _. rewrite Z.add_0_r. lia.
    - intros y Hy IH Hb. replace (p + Z.succ y) with (p + y + 1) by lia.
      rewrite psum_succ by lia. specialize (Hf (p + y)). lia. }
  replace p' with (p + (p' - p)) by lia. apply G; lia.
Qed.

Lemma psum_disjoint f n p p' :
  (forall i, 0 <= i < n -> 0 <= f i) -> 0 <= p -> p < p' -> p' <= n ->
  psum f p + f p <= psum f p'.
Proof.
  intros Hf Hp Hlt Hn. rewrite <- psum_succ by lia.
  apply (psum_mono f n); [exact Hf|lia|lia|lia].
Qed.

Lemma psum_find f n i :
  (forall p, 0 <= p < n -> 0 <= f p) -> 0 <= n -> 0 <= i < psum f n ->
  exists p, 0 <= p < n /\ psum f p <= i < psum f p + f p.
Proof.
  intros Hf Hn. revert Hf. pattern n. apply natlike_ind; [| |exact Hn].
  - intros _ H. rewrite psum_0 in H. lia.
  - intros y Hy IH Hf H. unfold Z.succ in *. rewrite psum_succ in H by lia.
    destruct (Z.lt_ge_cases i (psum f y)) as [Hlt|Hge].
    + destruct IH as [p [Hp1 Hp2]]; [intros; apply Hf; lia|lia|].
      exists p. split; [lia|exact Hp2].
    + exists y. split; lia.
Qed.

(** A row as the pack loops see it: the process it goes to, its index,
    and where its values sit in the source array ([base + j*stride]). *)
Record packed_row : Type :=
  { it_dest : Z; it_idx : Z; it_base : Z; it_stride : Z }.

Definition no_row : packed_row :=
  {| it_dest := 0; it_idx := 0; it_base := 0; it_stride := 0 |}.

Definition to_dest (d : Z) (its : list packed_row) : list packed_row :=
  filter (fun it => it_dest it =? d) its.

Definition cnt_dest (d : Z) (its : list packed_row) : Z :=
  Z.of_nat (length (to_dest d its)).

Lemma to_dest_app d l1 l2 : to_dest d (l1 ++ l2) = to_dest d l1 ++ to_dest d l2.
Proof. apply filter_app. Qed.

Lemma cnt_dest_app d l1 l2 : cnt_dest d (l1 ++ l2) = cnt_dest d l1 + cnt_dest d l2.
Proof. unfold cnt_dest. rewrite to_dest_app, length_app. lia. Qed.

Lemma cnt_dest_nonneg d l : 0 <= cnt_dest d l.
Proof. unfold cnt_dest. lia. Qed.

Lemma cnt_dest_single d it :
  cnt_dest d [it] = if it_dest it =? d then 1 else 0.
Proof. unfold cnt_dest, to_dest. cbn [filter]. destruct (_ =? _); reflexivity. Qed.

Lemma to_dest_nth d its r :
  0 <= r < cnt_dest d its ->
  In (nth (Z.to_nat r) (to_dest d its) no_row) its
  /\ it_dest (nth (Z.to_nat r) (to_dest d its) no_row) = d.
Proof.
  intros Hr.
  assert (Hin : In (nth (Z.to_nat r) (to_dest d its) no_row) (to_dest d its)).
  { apply nth_In. unfold cnt_dest in Hr. lia. }
  unfold to_dest in Hin at 2. apply filter_In in Hin. destruct Hin as [H1 H2].
  split; [exact H1|]. now apply Z.eqb_eq.
Qed.

Lemma to_dest_find d its it :
  In it its -> it_dest it = d ->
  exists r, 0 <= r < cnt_dest d its /\ nth (Z.to_nat r) (to_dest d its) no_row = it.
Proof.
  intros Hin Hd.
  assert (H : In it (to_dest d its)).
  { unfold to_dest. apply filter_In. split; [exact Hin|]. now apply Z.eqb_eq. }
  destruct (In_nth _ _ no_row H) as [k [Hk1 Hk2]].
  exists (Z.of_nat k). unfold cnt_dest. rewrite Nat2Z.id. split; [lia|exact Hk2].
Qed.

Section Exchange.

Variable V : Type.

Definition pack_item (nrhs : Z) (src : array V) (it : packed_row)
    (st : pack_state V) : pack_state V :=
  pack_row V nrhs src (it_dest it) (it_idx it) (it_base it) (it_stride it) st.

Definition pack_all (nrhs : Z) (src : array V) (its : list packed_row)
    (st : pack_state V) : pack_state V :=
  fold_left (fun st it => pack_item nrhs src it st) its st.

Lemma pack_row_dbuf nrhs (src : array V) q ii base stride st :
  send_dbuf V (pack_row V nrhs src q ii base stride st)
  = write_list (map (fun j => (ptr_to_dbuf V st q + j, src (base + j * stride)))
                    (range nrhs)) (send_dbuf V st).
Proof.
  unfold pack_row. cbn [send_dbuf].
  rewrite (for_loop_cursor nrhs (fun _ c => c) (fun j _ => src (base + j * stride))).
  reflexivity.
Qed.

Lemma pack_all_spec nrhs src procs (sd cap : array Z) its st :
  0 <= nrhs ->
  (forall it, In it its -> 0 <= it_dest it < procs) ->
  (forall d, 0 <= d < procs -> cnt_dest d its <= cap d) ->
  (forall d d', 0 <= d < d' -> d' < procs -> sd d + cap d <= sd d') ->
  (forall d, 0 <= d < procs ->
     ptr_to_ibuf V st d = sd d /\ ptr_to_dbuf V st d = sd d * nrhs) ->
  (forall d, 0 <= d < procs ->
     ptr_to_ibuf V (pack_all nrhs src its st) d = sd d + cnt_dest d its
     /\ ptr_to_dbuf V (pack_all nrhs src its st) d = (sd d + cnt_dest d its) * nrhs)
  /\ (forall d r, 0 <= d < procs -> 0 <= r < cnt_dest d its ->
        send_ibuf V (pack_all nrhs src its st) (sd d + r)
        = it_idx (nth (Z.to_nat r) (to_dest d its) no_row)
        /\ forall j, 0 <= j < nrhs ->
             send_dbuf V (pack_all nrhs src its st) ((sd d + r) * nrhs + j)
             = src (it_base (nth (Z.to_nat r) (to_dest d its) no_row)
                    + j * it_stride (nth (Z.to_nat r) (to_dest d its) no_row))).
Proof.
  intros Hn Hdest Hcap Hdisj Hinit.
  induction its as [|it its IH] using rev_ind.
  - simpl. split.
    + intros d Hd. destruct (Hinit d Hd) as [A B].
      change (cnt_dest d []) with 0. rewrite A, B. split; f_equal; lia.
    + intros d r Hd Hr. change (cnt_dest d []) with 0 in Hr. lia.
  - assert (Hdest' : forall i, In i its -> 0 <= it_dest i < procs).
    { intros i Hi. apply Hdest. apply in_or_app. now left. }
    assert (Hcap' : forall d, 0 <= d < procs -> cnt_dest d its <= cap d).
    { intros d Hd. specialize (Hcap d Hd). rewrite cnt_dest_app in Hcap.
      pose proof (cnt_dest_nonneg d [it]). lia. }
    destruct (IH Hdest' Hcap') as [IHp IHb]. clear IH.
    assert (Hd0 : 0 <= it_dest it < procs).
    { apply Hdest. apply in_or_app. right. now left. }
    unfold pack_all. rewrite fold_left_app. cbn [fold_left].
    fold (pack_all nrhs src its st).
    set (st1 := pack_all nrhs src its st) in *.
    set (d0 := it_dest it) in *.
    destruct (IHp d0 Hd0) as [Pi Pd].
    assert (Hc0 : cnt_dest d0 its + 1 <= cap d0).
    { specialize (Hcap d0 Hd0). rewrite cnt_dest_app, cnt_dest_single in Hcap.
      fold d0 in Hcap. rewrite Z.eqb_refl in Hcap. exact Hcap. }
    unfold pack_item. fold d0. rewrite pack_row_dbuf.
    unfold pack_row. cbn [ptr_to_ibuf ptr_to_dbuf send_ibuf].
    split.
    + intros d Hd. rewrite cnt_dest_app, cnt_dest_single. fold d0.
      destruct (IHp d Hd) as [Qi Qd]. unfold upd.
      destruct (Z.eqb_spec d d0) as [->|Hne].
      * rewrite Z.eqb_refl. rewrite Pi, Pd. split; lia.
      * destruct (Z.eqb_spec d0 d); [congruence|]. rewrite Qi, Qd. split; f_equal; lia.
    + intros d r Hd Hr. rewrite cnt_dest_app, cnt_dest_single in Hr. fold d0 in Hr.
      rewrite to_dest_app.
      destruct (Z.eq_dec d d0) as [Ed|Ed];
        [destruct (Z.eq_dec r (cnt_dest d0 its)) as [Er|Er]|].
      * (* the row just packed *)
        subst d r.
        assert (Enth : nth (Z.to_nat (cnt_dest d0 its))
                         (to_dest d0 its ++ to_dest d0 [it]) no_row = it).
        { unfold cnt_dest. rewrite Nat2Z.id. rewrite app_nth2 by lia.
          rewrite Nat.sub_diag. unfold to_dest. cbn [filter]. fold d0.
          rewrite Z.eqb_refl. reflexivity. }
        rewrite Enth. split.
        -- rewrite Pi. apply upd_same.
        -- intros j Hj. apply write_list_consistent.
           ++ apply in_map_iff. exists j. split; [|now apply range_In].
              f_equal. rewrite Pd. reflexivity.
           ++ intros v' Hv'. apply in_map_iff in Hv'. destruct Hv' as [j' [Hv' Hj']].
              inversion Hv' as [[E1 E2]]. rewrite Pd in E1.
              assert (j' = j) by lia. subst j'. reflexivity.
      * (* an earlier row for the same process *)
        subst d. rewrite Z.eqb_refl in Hr.
        assert (Hr' : 0 <= r < cnt_dest d0 its) by lia.
        rewrite app_nth1 by (unfold cnt_dest in Hr'; lia).
        destruct (IHb d0 r Hd Hr') as [Bi Bd]. split.
        -- rewrite upd_other; [exact Bi|]. rewrite Pi. lia.
        -- intros j Hj. rewrite write_list_notin; [now apply Bd|].
           intros v Hv. apply in_map_iff in Hv. destruct Hv as [j' [Hv Hj']].
           inversion Hv as [[E1 E2]]. rewrite Pd in E1. apply range_In in Hj'.
           destruct (scaled_inj _ _ nrhs j' j Hj' Hj E1) as [Es _]. lia.
      * (* a row for another process *)
        destruct (Z.eqb_spec d0 d) as [Heq|_]; [congruence|].
        assert (Hr' : 0 <= r < cnt_dest d its) by lia.
        rewrite app_nth1 by (unfold cnt_dest in Hr'; lia).
        destruct (IHb d r Hd Hr') as [Bi Bd].
        pose proof (Hcap' d Hd) as Hcd.
        pose proof (cnt_dest_nonneg d0 its) as Hnn.
        assert (Hslot : sd d + r <> sd d0 + cnt_dest d0 its).
        { destruct (Z.lt_total d d0) as [Hlt|[Heq|Hgt]]; [|congruence|].
          - pose proof (Hdisj d d0 ltac:(lia) ltac:(lia)). lia.
          - pose proof (Hdisj d0 d ltac:(lia) ltac:(lia)). lia. }
        split.
        -- rewrite upd_other; [exact Bi|]. rewrite Pi. exact Hslot.
        -- intros j Hj. rewrite write_list_notin; [now apply Bd|].
           intros v Hv. apply in_map_iff in Hv. destruct Hv as [j' [Hv Hj']].
           inversion Hv as [[E1 E2]]. rewrite Pd in E1. apply range_In in Hj'.
           destruct (scaled_inj _ _ nrhs j' j Hj' Hj E1) as [Es _]. lia.
Qed.

End Exchange.

Lemma for_loop_ext {S} n (f g : Z -> S -> S) s :
  (forall i t, f i t = g i t) -> for_loop n f s = for_loop n g s.
Proof.
  intros H. unfold for_loop. generalize (range n). intros l. revert s.
  induction l as [|x l IH]; intros s; [reflexivity|]. cbn [fold_left].
  rewrite H. apply IH.
Qed.

(** What [MPI_Alltoallv] leaves in the receive buffer, when the places
    kept for the senders do not overlap. *)
Lemma MPI_Alltoallv_spec {A} procs me (sendbuf : Z -> array A)
    (sendcnts sdispls : Z -> array Z) (rdispls : array Z) (recvbuf : array A) q t :
  (forall q q', 0 <= q < q' -> q' < procs ->
     rdispls q + sendcnts q me <= rdispls q') ->
  0 <= q < procs -> 0 <= t < sendcnts q me ->
  MPI_Alltoallv procs me sendbuf sendcnts sdispls rdispls recvbuf (rdispls q + t)
  = sendbuf q (sdispls q me + t).
Proof.
  intros Hdisj Hq Ht. unfold MPI_Alltoallv.
  rewrite (for_loop_ext procs _
    (fun q a => write_list
       (map (fun t => (rdispls q + t, sendbuf q (sdispls q me + t)))
            (range (sendcnts q me))) a))
    by (intros; apply for_loop_upd).
  rewrite for_loop_write_lists.
  apply write_list_consistent.
  - apply in_flat_map. exists q. split; [now apply range_In|].
    apply in_map_iff. exists t. split; [reflexivity|now apply range_In].
  - intros v' Hv'. apply in_flat_map in Hv'. destruct Hv' as [q' [Hq' Hv']].
    apply in_map_iff in Hv'. destruct Hv' as [t' [Hv' Ht']].
    apply range_In in Hq'. apply range_In in Ht'.
    inversion Hv' as [[E1 E2]].
    assert (q' = q).
    { destruct (Z.lt_total q' q) as [Hlt|[Heq|Hgt]]; [|exact Heq|].
      - pose proof (Hdisj q' q ltac:(lia) ltac:(lia)). lia.
      - pose proof (Hdisj q q' ltac:(lia) ltac:(lia)). lia. }
    subst q'. assert (t' = t) by lia. subst t'. reflexivity.
Qed.

Definition range_all (n : Z) (f : Z -> bool) : bool := forallb f (range n).

Lemma range_all_spec n f :
  range_all n f = true -> forall i, 0 <= i < n -> f i = true.
Proof.
  unfold range_all. intros H i Hi.
  rewrite forallb_forall in H. apply H. now apply range_In.
Qed.

(** The tables of [gstrs_comm] match the rows [rows q] that process [q]
    packs: [SendCnt_q[p]] counts the rows of [q] that go to [p],
    [RecvCnt_q[p]] is [SendCnt_p[q]], the displacements are the running
    sums of the counts, and the [_nrhs] arrays are the same scaled by
    [nrhs]. *)
Definition tables_ok (procs nrhs : Z) (rows : Z -> list packed_row)
    (tbl : Z -> array Z) : bool :=
  range_all procs (fun q => range_all procs (fun p =>
    (tbl q p =? cnt_dest p (rows q))
    && (slice (tbl q) procs p =? tbl q p * nrhs)
    && (slice (tbl q) (2 * procs) p =? tbl p q)
    && (slice (tbl q) (3 * procs) p =? slice (tbl q) (2 * procs) p * nrhs)
    && (slice (tbl q) (4 * procs) p =? psum (tbl q) p)
    && (slice (tbl q) (5 * procs) p =? slice (tbl q) (4 * procs) p * nrhs)
    && (slice (tbl q) (6 * procs) p =? psum (slice (tbl q) (2 * procs)) p)
    && (slice (tbl q) (7 * procs) p =? slice (tbl q) (6 * procs) p * nrhs))).

Lemma tables_ok_spec procs nrhs rows tbl :
  tables_ok procs nrhs rows tbl = true ->
  forall q p, 0 <= q < procs -> 0 <= p < procs ->
    tbl q p = cnt_dest p (rows q)
    /\ slice (tbl q) procs p = tbl q p * nrhs
    /\ slice (tbl q) (2 * procs) p = tbl p q
    /\ slice (tbl q) (4 * procs) p = psum (tbl q) p
    /\ slice (tbl q) (5 * procs) p = slice (tbl q) (4 * procs) p * nrhs
    /\ slice (tbl q) (6 * procs) p = psum (slice (tbl q) (2 * procs)) p
    /\ slice (tbl q) (7 * procs) p = slice (tbl q) (6 * procs) p * nrhs.
Proof.
  intros H q p Hq Hp. unfold tables_ok in H.
  pose proof (range_all_spec _ _ (range_all_spec _ _ H q Hq) p Hp) as E.
  cbv beta in E. rewrite !andb_true_iff in E. rewrite !Z.eqb_eq in E.
  intuition.
Qed.

Lemma init_ptrs_spec V procs (f h : Z -> Z) (st : pack_state V) :
  let st' := for_loop procs (fun p st => set_ptrs V p (f p) (h p) st) st in
  (forall d, 0 <= d < procs ->
     ptr_to_ibuf V st' d = f d /\ ptr_to_dbuf V st' d = h d)
  /\ send_ibuf V st' = send_ibuf V st /\ send_dbuf V st' = send_dbuf V st.
Proof.
  cbv zeta. destruct (Z.le_gt_cases procs 0) as [Hn|Hn].
  - rewrite for_loop_nonpos by lia. split; [intros; lia|split; reflexivity].
  - apply (for_loop_inv (fun k (t : pack_state V) =>
      (forall d, 0 <= d < k -> ptr_to_ibuf V t d = f d /\ ptr_to_dbuf V t d = h d)
      /\ send_ibuf V t = send_ibuf V st /\ send_dbuf V t = send_dbuf V st)).
    + lia.
    + split; [intros; lia|split; reflexivity].
    + intros i t Hi [A [B C]]. unfold set_ptrs. cbn [ptr_to_ibuf ptr_to_dbuf send_ibuf send_dbuf].
      split; [|split; assumption].
      intros d Hd. unfold upd. destruct (Z.eqb_spec d i) as [->|Hne]; [split; reflexivity|].
      apply A. lia.
Qed.

Lemma for_loop_map {S T} n (h : Z -> T) (F : T -> S -> S) s :
  for_loop n (fun i st => F (h i) st) s
  = fold_left (fun st it => F it st) (map h (range n)) s.
Proof.
  unfold for_loop. generalize (range n). intros l. revert s.
  induction l as [|x l IH]; intros s; [reflexivity|]. apply IH.
Qed.

Lemma for_loop_closed {S} n (body : Z -> S -> S) s (F : Z -> S) :
  0 <= n -> F 0 = s -> (forall i, 0 <= i < n -> body i (F i) = F (i + 1)) ->
  for_loop n body s = F n.
Proof.
  intros Hn H0 Hs.
  apply (for_loop_inv (fun i t => t = F i)); [exact Hn|now symmetry|].
  intros i t Hi ->. now apply Hs.
Qed.

Section Received.

Variable V : Type.
Variables procs nrhs : Z.
Variable rows : Z -> list packed_row.
Variable tbl : Z -> array Z.
Variable src : Z -> array V.
Variable packed : Z -> pack_state V.
Variable me : Z.
Variable rb0 : array Z.
Variable rd0 : array V.

Hypothesis Hnrhs : 0 <= nrhs.
Hypothesis Htbl : tables_ok procs nrhs rows tbl = true.
Hypothesis Hdest :
  forall q it, 0 <= q < procs -> In it (rows q) -> 0 <= it_dest it < procs.
Hypothesis Hpacked : forall q, 0 <= q < procs ->
  exists st0, packed q = pack_all V nrhs (src q) (rows q) st0
    /\ forall d, 0 <= d < procs ->
         ptr_to_ibuf V st0 d = slice (tbl q) (4 * procs) d
         /\ ptr_to_dbuf V st0 d = slice (tbl q) (4 * procs) d * nrhs.
Hypothesis Hme : 0 <= me < procs.

Definition recv_ibuf_of : array Z :=
  MPI_Alltoallv procs me (fun q => send_ibuf V (packed q))
    (fun q => tbl q) (fun q => slice (tbl q) (4 * procs))
    (slice (tbl me) (6 * procs)) rb0.

Definition recv_dbuf_of : array V :=
  MPI_Alltoallv procs me (fun q => send_dbuf V (packed q))
    (fun q => slice (tbl q) procs) (fun q => slice (tbl q) (5 * procs))
    (slice (tbl me) (7 * procs)) rd0.

(** [RecvCnt] and the running sums of it, on process [me]. *)
Definition RecvCnt_of : array Z := slice (tbl me) (2 * procs).

Lemma RecvCnt_of_spec q :
  0 <= q < procs -> RecvCnt_of q = cnt_dest me (rows q).
Proof.
  intros Hq. unfold RecvCnt_of.
  destruct (tables_ok_spec _ _ _ _ Htbl me q Hme Hq) as [_ [_ [E _]]].
  destruct (tables_ok_spec _ _ _ _ Htbl q me Hq Hme) as [E' _].
  congruence.
Qed.

Lemma RecvCnt_of_nonneg q : 0 <= q < procs -> 0 <= RecvCnt_of q.
Proof. intros Hq. rewrite RecvCnt_of_spec by exact Hq. apply cnt_dest_nonneg. Qed.

Lemma packed_spec q d r :
  0 <= q < procs -> 0 <= d < procs -> 0 <= r < cnt_dest d (rows q) ->
  send_ibuf V (packed q) (slice (tbl q) (4 * procs) d + r)
  = it_idx (nth (Z.to_nat r) (to_dest d (rows q)) no_row)
  /\ forall j, 0 <= j < nrhs ->
       send_dbuf V (packed q) ((slice (tbl q) (4 * procs) d + r) * nrhs + j)
       = src q (it_base (nth (Z.to_nat r) (to_dest d (rows q)) no_row)
                + j * it_stride (nth (Z.to_nat r) (to_dest d (rows q)) no_row)).
Proof.
  intros Hq Hd Hr. destruct (Hpacked q Hq) as [st0 [E Hinit]]. rewrite E.
  assert (Hsc : forall p, 0 <= p < procs -> tbl q p = cnt_dest p (rows q)).
  { intros p Hp. now destruct (tables_ok_spec _ _ _ _ Htbl q p Hq Hp) as [E1 _]. }
  assert (Hsd : forall p, 0 <= p < procs ->
                  slice (tbl q) (4 * procs) p = psum (tbl q) p).
  { intros p Hp.
    now destruct (tables_ok_spec _ _ _ _ Htbl q p Hq Hp) as [_ [_ [_ [E1 _]]]]. }
  destruct (pack_all_spec V nrhs (src q) procs (slice (tbl q) (4 * procs)) (tbl q)
              (rows q) st0) as [_ Hb].
  - exact Hnrhs.
  - intros it Hit. now apply (Hdest q).
  - intros p Hp. rewrite Hsc by exact Hp. lia.
  - intros p p' Hp Hp'. rewrite !Hsd by lia.
    apply (psum_disjoint (tbl q) procs); try lia.
    intros i Hi. rewrite Hsc by exact Hi. apply cnt_dest_nonneg.
  - exact Hinit.
  - now apply Hb.
Qed.

(** What process [me] finds in its receive buffers: from each process
    [q], in the order [q] packed them, the rows that [q] sent to [me]. *)
Lemma received_spec q r :
  0 <= q < procs -> 0 <= r < cnt_dest me (rows q) ->
  recv_ibuf_of (psum RecvCnt_of q + r)
  = it_idx (nth (Z.to_nat r) (to_dest me (rows q)) no_row)
  /\ forall j, 0 <= j < nrhs ->
       recv_dbuf_of ((psum RecvCnt_of q + r) * nrhs + j)
       = src q (it_base (nth (Z.to_nat r) (to_dest me (rows q)) no_row)
                + j * it_stride (nth (Z.to_nat r) (to_dest me (rows q)) no_row)).
Proof.
  intros Hq Hr.
  assert (Hrd : forall p, 0 <= p < procs ->
                  slice (tbl me) (6 * procs) p = psum RecvCnt_of p).
  { intros p Hp.
    now destruct (tables_ok_spec _ _ _ _ Htbl me p Hme Hp) as [_ [_ [_ [_ [_ [E1 _]]]]]]. }
  assert (Hrdn : forall p, 0 <= p < procs ->
                  slice (tbl me) (7 * procs) p = psum RecvCnt_of p * nrhs).
  { intros p Hp. rewrite <- Hrd by exact Hp.
    now destruct (tables_ok_spec _ _ _ _ Htbl me p Hme Hp) as [_ [_ [_ [_ [_ [_ E1]]]]]]. }
  assert (Hsc : forall p, 0 <= p < procs -> tbl p me = RecvCnt_of p).
  { intros p Hp. unfold RecvCnt_of.
    now destruct (tables_ok_spec _ _ _ _ Htbl me p Hme Hp) as [_ [_ [E1 _]]]. }
  assert (Hscn : forall p, 0 <= p < procs -> slice (tbl p) procs me = RecvCnt_of p * nrhs).
  { intros p Hp. rewrite <- Hsc by exact Hp.
    now destruct (tables_ok_spec _ _ _ _ Htbl p me Hp Hme) as [_ [E1 _]]. }
  assert (Hsdn : slice (tbl q) (5 * procs) me = slice (tbl q) (4 * procs) me * nrhs).
  { now destruct (tables_ok_spec _ _ _ _ Htbl q me Hq Hme) as [_ [_ [_ [_ [E1 _]]]]]. }
  assert (Hdisj : forall p p', 0 <= p < p' -> p' < procs ->
                    psum RecvCnt_of p + RecvCnt_of p <= psum RecvCnt_of p').
  { intros p p' Hp Hp'. apply (psum_disjoint RecvCnt_of procs); try lia.
    intros i Hi. now apply RecvCnt_of_nonneg. }
  destruct (packed_spec q me r Hq Hme Hr) as [Pi Pd].
  split.
  - rewrite <- Pi. unfold recv_ibuf_of. rewrite <- (Hrd q Hq).
    apply (MPI_Alltoallv_spec procs me (fun q => send_ibuf V (packed q))
             (fun q => tbl q) (fun q => slice (tbl q) (4 * procs))).
    + intros p p' Hp Hp'. rewrite !Hrd by lia. rewrite Hsc by lia. now apply Hdisj.
    + exact Hq.
    + rewrite Hsc, RecvCnt_of_spec by exact Hq. exact Hr.
  - intros j Hj. rewrite <- (Pd j Hj). unfold recv_dbuf_of.
    replace ((psum RecvCnt_of q + r) * nrhs + j)
      with (slice (tbl me) (7 * procs) q + (r * nrhs + j))
      by (rewrite Hrdn by exact Hq; lia).
    replace ((slice (tbl q) (4 * procs) me + r) * nrhs + j)
      with (slice (tbl q) (5 * procs) me + (r * nrhs + j))
      by (rewrite Hsdn; lia).
    apply (MPI_Alltoallv_spec procs me (fun q => send_dbuf V (packed q))
             (fun q => slice (tbl q) procs) (fun q => slice (tbl q) (5 * procs))).
    + intros p p' Hp Hp'. rewrite !Hrdn by lia. rewrite Hscn by lia.
      specialize (Hdisj p p' Hp Hp'). nia.
    + exact Hq.
    + rewrite Hscn, RecvCnt_of_spec by exact Hq. nia.
Qed.

End Received.

(* ================================================================== *)
(** * pdReDistribute_B_to_X: where the rows of B land *)
(* ================================================================== *)

Section BtoX.

Variable V : Type.
Variable of_int : Z -> V.
Variable D : superlu_defs.
Variable W : world.

(** [perm_c[perm_r[l]]], line 221. *)
Definition perm_of (l : Z) : Z := perm_c (w_perm W) (perm_r (w_perm W) l).

(** The diagonal process of block [k], line 223. *)
Definition diag_owner (k : Z) : Z :=
  PNUM (grid_of W 0) (PROW (grid_of W 0) k) (PCOL (grid_of W 0) k).

(** The cell of [x] on process [p] for row [irow] and right-hand side
    [j] (line 326), and the header cell of block [k] (line 323). *)
Definition x_cell (p irow j : Z) : Z :=
  X_BLK D (w_ilsum W p) (w_nrhs W) (LBi (grid_of W p) (BlockNum (w_Glu W) irow))
  + (irow - FstBlockC (w_Glu W) (BlockNum (w_Glu W) irow))
  + j * SuperSize (w_Glu W) (BlockNum (w_Glu W) irow).

Definition x_head (p k : Z) : Z :=
  X_BLK D (w_ilsum W p) (w_nrhs W) (LBi (grid_of W p) k) - XK_H D.

(** The rows process [q] packs in the loop of lines 220-232, in order. *)
Definition B_to_X_rows (q : Z) : list packed_row :=
  map (fun i =>
         {| it_dest := diag_owner (BlockNum (w_Glu W) (perm_of (w_fst_row W q + i)));
            it_idx := perm_of (w_fst_row W q + i);
            it_base := i;
            it_stride := w_ldb W q |})
      (range (w_m_loc W q)).

(** On each process the cells of [x] are laid out without overlap: two
    (row, right-hand side) pairs of the rows it owns have different
    cells, no such cell is a header cell, and two blocks it owns have
    different header cells. *)
Definition x_layout_ok : bool :=
  range_all (w_n W) (fun r => range_all (w_n W) (fun r' =>
    let k := BlockNum (w_Glu W) r in
    let k' := BlockNum (w_Glu W) r' in
    let p := diag_owner k in
    implb (p =? diag_owner k')
      (implb (x_head p k =? x_head p k') (k =? k')
       && range_all (w_nrhs W) (fun j =>
            negb (x_cell p r j =? x_head p k')
            && range_all (w_nrhs W) (fun j' =>
                 implb (x_cell p r j =? x_cell p r' j') ((r =? r') && (j =? j'))))))).

(** The set-up [pdReDistribute_B_to_X] relies on: a mesh, every local
    row a row of the matrix that [row_to_proc] gives to its process,
    [perm_c o perm_r] one-to-one from the rows into the rows, block
    numbers that are not negative, the tables of [pxgstrs_init] matching
    the rows, and an [x] without overlap. *)
Definition valid_B_to_X : bool :=
  (0 <? w_nprow W) && (0 <? w_npcol W) && (0 <=? w_nrhs W)
  && range_all (w_procs W) (fun q => range_all (w_m_loc W q) (fun i =>
       let l := w_fst_row W q + i in
       (0 <=? l) && (l <? w_n W) && (w_row_to_proc W l =? q)))
  && range_all (w_n W) (fun l =>
       (0 <=? perm_of l) && (perm_of l <? w_n W)
       && (0 <=? BlockNum (w_Glu W) (perm_of l))
       && range_all (w_n W) (fun l' => implb (perm_of l =? perm_of l') (l =? l')))
  && tables_ok (w_procs W) (w_nrhs W) B_to_X_rows (w_B_to_X_SendCnt W)
  && x_layout_ok.

Lemma B_to_X_pack_rows (B : array V) q st :
  B_to_X_pack V (grid_of W q) (w_Glu W) (w_perm W) (solve_of W q) B
    (w_m_loc W q) (w_nrhs W) (w_ldb W q) (w_fst_row W q) st
  = pack_all V (w_nrhs W) B (B_to_X_rows q)
      (for_loop (w_procs W) (fun p st =>
         set_ptrs V p (slice (w_B_to_X_SendCnt W q) (4 * w_procs W) p)
           (slice (w_B_to_X_SendCnt W q) (4 * w_procs W) p * w_nrhs W) st) st).
Proof.
  unfold B_to_X_pack, pack_all, B_to_X_rows. cbv zeta.
  exact (for_loop_map (w_m_loc W q)
    (fun i =>
         {| it_dest := diag_owner (BlockNum (w_Glu W) (perm_of (w_fst_row W q + i)));
            it_idx := perm_of (w_fst_row W q + i);
            it_base := i;
            it_stride := w_ldb W q |})
    (fun it st => pack_item V (w_nrhs W) B it st) _).
Qed.

(** The writes of one turn of the loop of lines 315-329, for the row at
    place [ii] of the receive buffers. *)
Definition X_writes (me : Z) (ri : array Z) (rdb : array V) (ii : Z) : list (Z * V) :=
  (x_head me (BlockNum (w_Glu W) (ri ii)), of_int (BlockNum (w_Glu W) (ri ii)))
  :: map (fun j => (x_cell me (ri ii) j, rdb (ii * w_nrhs W + j))) (range (w_nrhs W)).

Lemma B_to_X_unpack_writes me ri rdb x0 :
  let RC := slice (w_B_to_X_SendCnt W me) (2 * w_procs W) in
  0 <= w_procs W -> 0 <= w_nrhs W ->
  (forall p, 0 <= p < w_procs W -> 0 <= RC p) ->
  (forall p, 0 <= p < w_procs W ->
     slice (w_B_to_X_SendCnt W me) (7 * w_procs W) p = psum RC p * w_nrhs W) ->
  B_to_X_unpack V of_int D (grid_of W me) (w_Glu W) (solve_of W me) (w_nrhs W)
    (w_ilsum W me) ri rdb x0
  = write_list
      (flat_map (fun p => flat_map (fun i => X_writes me ri rdb (psum RC p + i))
                            (range (RC p)))
                (range (w_procs W))) x0.
Proof.
  intros RC Hp Hn Hrc Hrd. unfold B_to_X_unpack. cbv zeta.
  change (nprow (grid_of W me) * npcol (grid_of W me)) with (w_procs W).
  change (B_to_X_SendCnt (solve_of W me)) with (w_B_to_X_SendCnt W me).
  fold RC.
  rewrite (for_loop_closed (w_procs W) _ _
    (fun k => (psum RC k,
       write_list
         (flat_map (fun p => flat_map (fun i => X_writes me ri rdb (psum RC p + i))
                               (range (RC p)))
                   (range k)) x0))).
  - reflexivity.
  - exact Hp.
  - reflexivity.
  - intros p Hpr. cbn [fst snd].
    set (X := write_list _ x0).
    rewrite (for_loop_closed (RC p) _ _
      (fun i => (psum RC p + i, psum RC p * w_nrhs W + i * w_nrhs W,
         write_list (flat_map (fun i => X_writes me ri rdb (psum RC p + i)) (range i)) X))).
    + cbn [fst snd]. rewrite psum_succ by lia. rewrite range_succ by lia.
      rewrite flat_map_app, write_list_app. cbn [flat_map]. rewrite app_nil_r.
      reflexivity.
    + now apply Hrc.
    + rewrite Hrd by exact Hpr. cbn [range]. f_equal. f_equal; lia.
    + intros i Hi. cbn [fst snd].
      rewrite (for_loop_cursor (w_nrhs W)
        (fun j _ => X_BLK D (w_ilsum W me) (w_nrhs W)
                      (LBi (grid_of W me) (BlockNum (w_Glu W) (ri (psum RC p + i))))
                    + (ri (psum RC p + i)
                       - FstBlockC (w_Glu W) (BlockNum (w_Glu W) (ri (psum RC p + i))))
                    + j * SuperSize (w_Glu W) (BlockNum (w_Glu W) (ri (psum RC p + i))))
        (fun _ c => rdb c)).
      cbn [fst snd]. rewrite range_succ by lia.
      rewrite flat_map_app, write_list_app. cbn [flat_map]. rewrite app_nil_r.
      f_equal; [f_equal; lia|].
      unfold X_writes, write_list, x_head, x_cell. cbn [fold_left fst snd].
      f_equal. apply map_ext. intros j. f_equal. f_equal. lia.
Qed.

Lemma diag_owner_range k :
  0 < w_nprow W -> 0 < w_npcol W -> 0 <= k -> 0 <= diag_owner k < w_procs W.
Proof.
  intros Hr Hc Hk. unfold diag_owner, PNUM, PROW, PCOL, w_procs. cbn [nprow npcol grid_of].
  pose proof (Z.rem_bound_pos k (w_nprow W) Hk Hr).
  pose proof (Z.rem_bound_pos k (w_npcol W) Hk Hc). nia.
Qed.

Lemma x_layout_spec :
  x_layout_ok = true ->
  forall r r', 0 <= r < w_n W -> 0 <= r' < w_n W ->
    diag_owner (BlockNum (w_Glu W) r) = diag_owner (BlockNum (w_Glu W) r') ->
    (x_head (diag_owner (BlockNum (w_Glu W) r)) (BlockNum (w_Glu W) r)
     = x_head (diag_owner (BlockNum (w_Glu W) r)) (BlockNum (w_Glu W) r') ->
     BlockNum (w_Glu W) r = BlockNum (w_Glu W) r')
    /\ forall j, 0 <= j < w_nrhs W ->
         x_cell (diag_owner (BlockNum (w_Glu W) r)) r j
         <> x_head (diag_owner (BlockNum (w_Glu W) r)) (BlockNum (w_Glu W) r')
         /\ forall j', 0 <= j' < w_nrhs W ->
              x_cell (diag_owner (BlockNum (w_Glu W) r)) r j
              = x_cell (diag_owner (BlockNum (w_Glu W) r)) r' j' ->
              r = r' /\ j = j'.
Proof.
  intros H r r' Hr Hr' Ho. unfold x_layout_ok in H.
  pose proof (range_all_spec _ _ (range_all_spec _ _ H r Hr) r' Hr') as E.
  cbv zeta beta in E. rewrite <- Ho in E. rewrite Z.eqb_refl in E. cbn [implb] in E.
  apply andb_true_iff in E. destruct E as [E1 E2]. split.
  - intros Hh. rewrite Hh, Z.eqb_refl in E1. cbn [implb] in E1. now apply Z.eqb_eq.
  - intros j Hj. pose proof (range_all_spec _ _ E2 j Hj) as E3. cbv beta in E3.
    apply andb_true_iff in E3. destruct E3 as [E3 E4]. split.
    + intros Hc. rewrite Hc, Z.eqb_refl in E3. discriminate.
    + intros j' Hj' Hc. pose proof (range_all_spec _ _ E4 j' Hj') as E5. cbv beta in E5.
      rewrite Hc, Z.eqb_refl in E5. cbn [implb] in E5.
      apply andb_true_iff in E5. destruct E5 as [E5 E6].
      split; now apply Z.eqb_eq.
Qed.

Section Placement.

Variables B x : Z -> array V.
Variable scr : Z -> pack_state V.
Hypothesis Hvalid : valid_B_to_X = true.

Lemma valid_B_to_X_grid : 0 < w_nprow W /\ 0 < w_npcol W /\ 0 <= w_nrhs W.
Proof.
  unfold valid_B_to_X in Hvalid. rewrite !andb_true_iff in Hvalid.
  destruct Hvalid as [[[[[[H1 H2] H3] _] _] _] _].
  apply Z.ltb_lt in H1. apply Z.ltb_lt in H2. apply Z.leb_le in H3. auto.
Qed.

Lemma valid_B_to_X_procs : 0 < w_procs W.
Proof. destruct valid_B_to_X_grid as [H1 [H2 _]]. unfold w_procs. nia. Qed.

Lemma valid_B_to_X_rows q i :
  0 <= q < w_procs W -> 0 <= i < w_m_loc W q ->
  0 <= w_fst_row W q + i < w_n W /\ w_row_to_proc W (w_fst_row W q + i) = q.
Proof.
  intros Hq Hi. unfold valid_B_to_X in Hvalid. rewrite !andb_true_iff in Hvalid.
  destruct Hvalid as [[[[_ H] _] _] _].
  pose proof (range_all_spec _ _ (range_all_spec _ _ H q Hq) i Hi) as E.
  cbv zeta beta in E. rewrite !andb_true_iff in E. destruct E as [[E1 E2] E3].
  apply Z.leb_le in E1. apply Z.ltb_lt in E2. apply Z.eqb_eq in E3. auto.
Qed.

Lemma valid_B_to_X_perm l :
  0 <= l < w_n W ->
  0 <= perm_of l < w_n W /\ 0 <= BlockNum (w_Glu W) (perm_of l)
  /\ forall l', 0 <= l' < w_n W -> perm_of l = perm_of l' -> l = l'.
Proof.
  intros Hl. unfold valid_B_to_X in Hvalid. rewrite !andb_true_iff in Hvalid.
  destruct Hvalid as [[[_ H] _] _].
  pose proof (range_all_spec _ _ H l Hl) as E.
  cbv beta in E. rewrite !andb_true_iff in E. destruct E as [[[E1 E2] E3] E4].
  apply Z.leb_le in E1. apply Z.ltb_lt in E2. apply Z.leb_le in E3.
  split; [lia|]. split; [exact E3|].
  intros l' Hl' Hp. pose proof (range_all_spec _ _ E4 l' Hl') as E5. cbv beta in E5.
  rewrite Hp, Z.eqb_refl in E5. cbn [implb] in E5. now apply Z.eqb_eq.
Qed.

Lemma valid_B_to_X_tables :
  tables_ok (w_procs W) (w_nrhs W) B_to_X_rows (w_B_to_X_SendCnt W) = true.
Proof.
  unfold valid_B_to_X in Hvalid. rewrite !andb_true_iff in Hvalid.
  now destruct Hvalid as [[_ H] _].
Qed.

Lemma valid_B_to_X_layout : x_layout_ok = true.
Proof.
  unfold valid_B_to_X in Hvalid. rewrite !andb_true_iff in Hvalid.
  now destruct Hvalid as [_ H].
Qed.

Lemma B_to_X_rows_In q it :
  In it (B_to_X_rows q) <->
  exists i, 0 <= i < w_m_loc W q
    /\ it = {| it_dest := diag_owner (BlockNum (w_Glu W) (perm_of (w_fst_row W q + i)));
               it_idx := perm_of (w_fst_row W q + i);
               it_base := i;
               it_stride := w_ldb W q |}.
Proof.
  unfold B_to_X_rows. rewrite in_map_iff. split.
  - intros [i [E Hi]]. exists i. apply range_In in Hi. split; [exact Hi|now symmetry].
  - intros [i [Hi E]]. exists i. split; [now symmetry|now apply range_In].
Qed.

Lemma B_to_X_rows_dest q it :
  0 <= q < w_procs W -> In it (B_to_X_rows q) -> 0 <= it_dest it < w_procs W.
Proof.
  intros Hq Hit. apply B_to_X_rows_In in Hit. destruct Hit as [i [Hi ->]].
  cbn [it_dest]. destruct valid_B_to_X_grid as [H1 [H2 _]].
  destruct (valid_B_to_X_rows q i Hq Hi) as [Hl _].
  destruct (valid_B_to_X_perm _ Hl) as [_ [Hk _]].
  now apply diag_owner_range.
Qed.

(** The buffers of process [q] after its pack loop, and what process
    [me] holds after the two [MPI_Alltoallv]. *)
Definition BX_packed (q : Z) : pack_state V :=
  B_to_X_pack V (grid_of W q) (w_Glu W) (w_perm W) (solve_of W q) (B q)
    (w_m_loc W q) (w_nrhs W) (w_ldb W q) (w_fst_row W q) (scr q).

Definition BX_sends (me : Z) : Z :=
  slice (w_B_to_X_SendCnt W me) (4 * w_procs W) (w_procs W - 1)
  + w_B_to_X_SendCnt W me (w_procs W - 1).

Definition BX_ri (me : Z) : array Z :=
  recv_ibuf_of V (w_procs W) (w_B_to_X_SendCnt W) BX_packed me
    (slice (send_ibuf V (BX_packed me)) (BX_sends me)).

Definition BX_rd (me : Z) : array V :=
  recv_dbuf_of V (w_procs W) (w_B_to_X_SendCnt W) BX_packed me
    (slice (send_dbuf V (BX_packed me)) (BX_sends me * w_nrhs W)).

Definition BX_RC (me : Z) : array Z := RecvCnt_of (w_procs W) (w_B_to_X_SendCnt W) me.

Lemma BX_packed_ok q :
  0 <= q < w_procs W ->
  exists st0, BX_packed q = pack_all V (w_nrhs W) (B q) (B_to_X_rows q) st0
    /\ forall d, 0 <= d < w_procs W ->
         ptr_to_ibuf V st0 d = slice (w_B_to_X_SendCnt W q) (4 * w_procs W) d
         /\ ptr_to_dbuf V st0 d
            = slice (w_B_to_X_SendCnt W q) (4 * w_procs W) d * w_nrhs W.
Proof.
  intros Hq. unfold BX_packed. rewrite B_to_X_pack_rows.
  eexists. split; [reflexivity|].
  intros d Hd.
  destruct (init_ptrs_spec V (w_procs W)
              (fun p => slice (w_B_to_X_SendCnt W q) (4 * w_procs W) p)
              (fun p => slice (w_B_to_X_SendCnt W q) (4 * w_procs W) p * w_nrhs W)
              (scr q)) as [H _].
  now apply H.
Qed.

Lemma BX_received me q r :
  0 <= me < w_procs W -> 0 <= q < w_procs W -> 0 <= r < BX_RC me q ->
  exists i, 0 <= i < w_m_loc W q
    /\ diag_owner (BlockNum (w_Glu W) (perm_of (w_fst_row W q + i))) = me
    /\ BX_ri me (psum (BX_RC me) q + r) = perm_of (w_fst_row W q + i)
    /\ forall j, 0 <= j < w_nrhs W ->
         BX_rd me ((psum (BX_RC me) q + r) * w_nrhs W + j) = B q (i + j * w_ldb W q).
Proof.
  intros Hme Hq Hr.
  destruct valid_B_to_X_grid as [_ [_ Hn]].
  unfold BX_RC in Hr.
  rewrite (RecvCnt_of_spec (w_procs W) (w_nrhs W) B_to_X_rows (w_B_to_X_SendCnt W) me
             valid_B_to_X_tables Hme q Hq) in Hr.
  destruct (received_spec V (w_procs W) (w_nrhs W) B_to_X_rows (w_B_to_X_SendCnt W)
              B BX_packed me
              (slice (send_ibuf V (BX_packed me)) (BX_sends me))
              (slice (send_dbuf V (BX_packed me)) (BX_sends me * w_nrhs W))
              Hn valid_B_to_X_tables B_to_X_rows_dest BX_packed_ok Hme q r Hq Hr)
    as [Ri Rd].
  destruct (to_dest_nth me (B_to_X_rows q) r Hr) as [Hin Hd].
  apply B_to_X_rows_In in Hin. destruct Hin as [i [Hi E]].
  rewrite E in Ri, Rd, Hd. cbn [it_dest it_idx it_base it_stride] in Ri, Rd, Hd.
  exists i. split; [exact Hi|]. split; [exact Hd|]. split; [exact Ri|exact Rd].
Qed.

Lemma BX_sent q i :
  0 <= q < w_procs W -> 0 <= i < w_m_loc W q ->
  exists r, 0 <= r < BX_RC (diag_owner (BlockNum (w_Glu W) (perm_of (w_fst_row W q + i)))) q
    /\ BX_ri (diag_owner (BlockNum (w_Glu W) (perm_of (w_fst_row W q + i))))
         (psum (BX_RC (diag_owner (BlockNum (w_Glu W) (perm_of (w_fst_row W q + i))))) q + r)
       = perm_of (w_fst_row W q + i)
    /\ forall j, 0 <= j < w_nrhs W ->
         BX_rd (diag_owner (BlockNum (w_Glu W) (perm_of (w_fst_row W q + i))))
           ((psum (BX_RC (diag_owner (BlockNum (w_Glu W) (perm_of (w_fst_row W q + i))))) q
             + r) * w_nrhs W + j)
         = B q (i + j * w_ldb W q).
Proof.
  intros Hq Hi.
  set (me := diag_owner (BlockNum (w_Glu W) (perm_of (w_fst_row W q + i)))).
  destruct valid_B_to_X_grid as [H1 [H2 Hn]].
  destruct (valid_B_to_X_rows q i Hq Hi) as [Hl _].
  destruct (valid_B_to_X_perm _ Hl) as [_ [Hk _]].
  assert (Hme : 0 <= me < w_procs W) by now apply diag_owner_range.
  set (it := {| it_dest := me; it_idx := perm_of (w_fst_row W q + i);
                it_base := i; it_stride := w_ldb W q |}).
  assert (Hin : In it (B_to_X_rows q)).
  { apply B_to_X_rows_In. exists i. split; [exact Hi|reflexivity]. }
  destruct (to_dest_find me (B_to_X_rows q) it Hin eq_refl) as [r [Hr En]].
  destruct (received_spec V (w_procs W) (w_nrhs W) B_to_X_rows (w_B_to_X_SendCnt W)
              B BX_packed me
              (slice (send_ibuf V (BX_packed me)) (BX_sends me))
              (slice (send_dbuf V (BX_packed me)) (BX_sends me * w_nrhs W))
              Hn valid_B_to_X_tables B_to_X_rows_dest BX_packed_ok Hme q r Hq Hr)
    as [Ri Rd].
  rewrite En in Ri, Rd. cbn [it it_idx it_base it_stride] in Ri, Rd.
  exists r. split; [|split; [exact Ri|exact Rd]].
  unfold BX_RC.
  rewrite (RecvCnt_of_spec (w_procs W) (w_nrhs W) B_to_X_rows (w_B_to_X_SendCnt W) me
             valid_B_to_X_tables Hme q Hq). exact Hr.
Qed.

Lemma BX_packed_for q i :
  0 <= q < w_procs W -> 0 <= i < w_m_loc W q ->
  exists r,
    0 <= r < w_B_to_X_SendCnt W q
               (diag_owner (BlockNum (w_Glu W) (perm_of (w_fst_row W q + i))))
    /\ send_ibuf V (BX_packed q)
         (slice (w_B_to_X_SendCnt W q) (4 * w_procs W)
            (diag_owner (BlockNum (w_Glu W) (perm_of (w_fst_row W q + i)))) + r)
       = perm_of (w_fst_row W q + i)
    /\ forall j, 0 <= j < w_nrhs W ->
         send_dbuf V (BX_packed q)
           ((slice (w_B_to_X_SendCnt W q) (4 * w_procs W)
               (diag_owner (BlockNum (w_Glu W) (perm_of (w_fst_row W q + i)))) + r)
            * w_nrhs W + j)
         = B q (i + j * w_ldb W q).
Proof.
  intros Hq Hi.
  set (p := diag_owner (BlockNum (w_Glu W) (perm_of (w_fst_row W q + i)))).
  destruct valid_B_to_X_grid as [H1 [H2 Hn]].
  destruct (valid_B_to_X_rows q i Hq Hi) as [Hl _].
  destruct (valid_B_to_X_perm _ Hl) as [_ [Hk _]].
  assert (Hp : 0 <= p < w_procs W) by now apply diag_owner_range.
  set (it := {| it_dest := p; it_idx := perm_of (w_fst_row W q + i);
                it_base := i; it_stride := w_ldb W q |}).
  assert (Hin : In it (B_to_X_rows q)).
  { apply B_to_X_rows_In. exists i. split; [exact Hi|reflexivity]. }
  destruct (to_dest_find p (B_to_X_rows q) it Hin eq_refl) as [r [Hr En]].
  destruct (packed_spec V (w_procs W) (w_nrhs W) B_to_X_rows (w_B_to_X_SendCnt W)
              B BX_packed Hn valid_B_to_X_tables B_to_X_rows_dest BX_packed_ok
              q p r Hq Hp Hr) as [Pi Pd].
  rewrite En in Pi, Pd. cbn [it it_idx it_base it_stride] in Pi, Pd.
  exists r. split; [|split; [exact Pi|exact Pd]].
  destruct (tables_ok_spec _ _ _ _ valid_B_to_X_tables q p Hq Hp) as [E _].
  rewrite E. exact Hr.
Qed.

Lemma B_to_X_result me :
  0 <= me < w_procs W ->
  pdReDistribute_B_to_X V of_int D W B x scr me
  = write_list
      (flat_map (fun p => flat_map (fun i => X_writes me (BX_ri me) (BX_rd me)
                                               (psum (BX_RC me) p + i))
                            (range (BX_RC me p)))
                (range (w_procs W))) (x me).
Proof.
  intros Hme. destruct valid_B_to_X_grid as [_ [_ Hn]].
  pose proof valid_B_to_X_procs as Hp.
  assert (E : pdReDistribute_B_to_X V of_int D W B x scr me
              = B_to_X_unpack V of_int D (grid_of W me) (w_Glu W) (solve_of W me)
                  (w_nrhs W) (w_ilsum W me) (BX_ri me) (BX_rd me) (x me))
    by reflexivity.
  rewrite E. rewrite B_to_X_unpack_writes; [reflexivity|lia|exact Hn| |].
  - intros p Hpr.
    apply (RecvCnt_of_nonneg (w_procs W) (w_nrhs W) B_to_X_rows (w_B_to_X_SendCnt W) me
             valid_B_to_X_tables Hme p Hpr).
  - intros p Hpr.
    destruct (tables_ok_spec _ _ _ _ valid_B_to_X_tables me p Hme Hpr)
      as [_ [_ [_ [_ [_ [E6 E7]]]]]].
    rewrite E7, E6. reflexivity.
Qed.

(** Every row of [B] lands in the [x] of the diagonal process of its
    block, at its place in the block, and the block carries its number
    in the header. *)
Lemma B_to_X_lands q i :
  0 <= q < w_procs W -> 0 <= i < w_m_loc W q ->
  pdReDistribute_B_to_X V of_int D W B x scr
    (diag_owner (BlockNum (w_Glu W) (perm_of (w_fst_row W q + i))))
    (x_head (diag_owner (BlockNum (w_Glu W) (perm_of (w_fst_row W q + i))))
            (BlockNum (w_Glu W) (perm_of (w_fst_row W q + i))))
  = of_int (BlockNum (w_Glu W) (perm_of (w_fst_row W q + i)))
  /\ forall j, 0 <= j < w_nrhs W ->
       pdReDistribute_B_to_X V of_int D W B x scr
         (diag_owner (BlockNum (w_Glu W) (perm_of (w_fst_row W q + i))))
         (x_cell (diag_owner (BlockNum (w_Glu W) (perm_of (w_fst_row W q + i))))
                 (perm_of (w_fst_row W q + i)) j)
       = B q (i + j * w_ldb W q).
Proof.
  intros Hq Hi.
  set (irow := perm_of (w_fst_row W q + i)).
  set (k := BlockNum (w_Glu W) irow).
  set (me := diag_owner k).
  destruct valid_B_to_X_grid as [H1 [H2 Hn]].
  destruct (valid_B_to_X_rows q i Hq Hi) as [Hl Hown].
  destruct (valid_B_to_X_perm _ Hl) as [Hirow [Hk Hinj]].
  fold irow in Hirow, Hk, Hinj. fold k in Hk.
  assert (Hme : 0 <= me < w_procs W) by now apply diag_owner_range.
  rewrite (B_to_X_result me Hme).
  destruct (BX_sent q i Hq Hi) as [r0 [Hr0 [Ri0 Rd0]]].
  fold irow in Hr0, Ri0, Rd0. fold k in Hr0, Ri0, Rd0. fold me in Hr0, Ri0, Rd0.
  (* what any write of the unpack loop looks like *)
  assert (Hw : forall a v,
            In (a, v)
               (flat_map (fun p => flat_map (fun i => X_writes me (BX_ri me) (BX_rd me)
                                                        (psum (BX_RC me) p + i))
                                     (range (BX_RC me p)))
                         (range (w_procs W))) ->
            exists q' i', 0 <= q' < w_procs W /\ 0 <= i' < w_m_loc W q'
              /\ diag_owner (BlockNum (w_Glu W) (perm_of (w_fst_row W q' + i'))) = me
              /\ ((a = x_head me (BlockNum (w_Glu W) (perm_of (w_fst_row W q' + i')))
                   /\ v = of_int (BlockNum (w_Glu W) (perm_of (w_fst_row W q' + i'))))
                  \/ exists j', 0 <= j' < w_nrhs W
                       /\ a = x_cell me (perm_of (w_fst_row W q' + i')) j'
                       /\ v = B q' (i' + j' * w_ldb W q'))).
  { intros a v Hin. apply in_flat_map in Hin. destruct Hin as [q' [Hq' Hin]].
    apply in_flat_map in Hin. destruct Hin as [r' [Hr' Hin]].
    apply range_In in Hq'. apply range_In in Hr'.
    destruct (BX_received me q' r' Hme Hq' Hr') as [i' [Hi' [Ho' [Ri' Rd']]]].
    exists q', i'. split; [exact Hq'|]. split; [exact Hi'|]. split; [exact Ho'|].
    unfold X_writes in Hin. rewrite Ri' in Hin. destruct Hin as [Hh|Hd].
    - left. inversion Hh. split; reflexivity.
    - right. apply in_map_iff in Hd. destruct Hd as [j' [Hd Hj']].
      apply range_In in Hj'. exists j'. split; [exact Hj'|].
      inversion Hd as [[E1 E2]]. split; [reflexivity|]. now apply Rd'. }
  split.
  - apply write_list_consistent.
    + apply in_flat_map. exists q. split; [now apply range_In|].
      apply in_flat_map. exists r0. split; [now apply range_In|].
      unfold X_writes. rewrite Ri0. left. reflexivity.
    + intros v' Hv'. destruct (Hw _ _ Hv') as [q' [i' [Hq' [Hi' [Ho' Hc]]]]].
      destruct (valid_B_to_X_rows q' i' Hq' Hi') as [Hl' _].
      destruct (valid_B_to_X_perm _ Hl') as [Hirow' _].
      set (irow' := perm_of (w_fst_row W q' + i')) in *.
      destruct Hc as [[Ea Ev]|[j' [Hj' [Ea Ev]]]].
      * destruct (x_layout_spec valid_B_to_X_layout irow irow' Hirow Hirow'
                    ltac:(fold k; fold me; now rewrite Ho')) as [Lh _].
        fold k in Lh. fold me in Lh. rewrite Ev. f_equal. symmetry. now apply Lh.
      * exfalso.
        destruct (x_layout_spec valid_B_to_X_layout irow' irow Hirow' Hirow
                    ltac:(rewrite Ho'; reflexivity)) as [_ Lc].
        rewrite Ho' in Lc. destruct (Lc j' Hj') as [Lc1 _]. apply Lc1.
        now symmetry.
  - intros j Hj. apply write_list_consistent.
    + apply in_flat_map. exists q. split; [now apply range_In|].
      apply in_flat_map. exists r0. split; [now apply range_In|].
      unfold X_writes. rewrite Ri0. right.
      apply in_map_iff. exists j. split; [|now apply range_In].
      f_equal. now apply Rd0.
    + intros v' Hv'. destruct (Hw _ _ Hv') as [q' [i' [Hq' [Hi' [Ho' Hc]]]]].
      destruct (valid_B_to_X_rows q' i' Hq' Hi') as [Hl' Hown'].
      destruct (valid_B_to_X_perm _ Hl') as [Hirow' _].
      set (irow' := perm_of (w_fst_row W q' + i')) in *.
      destruct Hc as [[Ea Ev]|[j' [Hj' [Ea Ev]]]].
      * exfalso.
        destruct (x_layout_spec valid_B_to_X_layout irow irow' Hirow Hirow'
                    ltac:(fold k; fold me; now rewrite Ho')) as [_ Lc].
        fold k in Lc. fold me in Lc. destruct (Lc j Hj) as [Lc1 _]. now apply Lc1.
      * destruct (x_layout_spec valid_B_to_X_layout irow irow' Hirow Hirow'
                    ltac:(fold k; fold me; now rewrite Ho')) as [_ Lc].
        fold k in Lc. fold me in Lc. destruct (Lc j Hj) as [_ Lc2].
        destruct (Lc2 j' Hj' Ea) as [Er Ej].
        assert (El : w_fst_row W q + i = w_fst_row W q' + i').
        { apply Hinj; [exact Hl'|]. exact Er. }
        assert (Eq : q' = q) by (rewrite <- Hown', <- El; exact Hown).
        subst q'. assert (i' = i) by lia. subst i' j'. exact Ev.
Qed.

End Placement.

End BtoX.

(* ================================================================== *)
(** * pdReDistribute_X_to_B: where the rows of x go *)
(* ================================================================== *)

Lemma for_loop_flat_map {S T} n (h : Z -> list T) (F : S -> T -> S) s :
  for_loop n (fun i st => fold_left F (h i) st) s
  = fold_left F (flat_map h (range n)) s.
Proof.
  unfold for_loop. generalize (range n). intros l. revert s.
  induction l as [|a l IH]; intros s; [reflexivity|].
  cbn [fold_left flat_map]. rewrite fold_left_app. apply IH.
Qed.

Section XtoB.

Variable V : Type.
Variable D : superlu_defs.
Variable W : world.

(** The number of turns of the loop [for (k = p; k < nsupers; k +=
    num_diag_procs)]. *)
Definition diag_turns (pd : Z) : Z :=
  (nsupers_of (w_Glu W) (w_n W) - pd + w_num_diag_procs W - 1) / w_num_diag_procs W.

(** The rows process [q] packs in the loops of lines 431-458, in order. *)
Definition X_to_B_rows (q : Z) : list packed_row :=
  flat_map (fun pd =>
    if q =? w_diag_procs W pd then
      flat_map (fun t =>
        map (fun i =>
               {| it_dest := w_row_to_proc W
                               (FstBlockC (w_Glu W) (pd + t * w_num_diag_procs W) + i);
                  it_idx := FstBlockC (w_Glu W) (pd + t * w_num_diag_procs W) + i;
                  it_base := X_BLK D (w_ilsum W q) (w_nrhs W)
                               (LBi (grid_of W q) (pd + t * w_num_diag_procs W)) + i;
                  it_stride := SuperSize (w_Glu W) (pd + t * w_num_diag_procs W) |})
            (range (SuperSize (w_Glu W) (pd + t * w_num_diag_procs W))))
        (range (diag_turns pd))
    else [])
    (range (w_num_diag_procs W)).

Lemma X_to_B_pack_rows (x : array V) q st :
  X_to_B_pack V D (grid_of W q) (w_Glu W) (solve_of W q) (w_n W) (w_nrhs W)
    (w_ilsum W q) x st
  = pack_all V (w_nrhs W) x (X_to_B_rows q)
      (for_loop (w_procs W) (fun p st =>
         set_ptrs V p (slice (w_X_to_B_SendCnt W q) (4 * w_procs W) p)
           (slice (w_X_to_B_SendCnt W q) (5 * w_procs W) p) st) st).
Proof.
  unfold X_to_B_pack, pack_all, X_to_B_rows. cbv zeta.
  cbn [iam nprow npcol grid_of num_diag_procs diag_procs row_to_proc X_to_B_SendCnt solve_of].
  fold (w_procs W).
  rewrite <- for_loop_flat_map. apply for_loop_ext. intros pd st1.
  destruct (q =? w_diag_procs W pd); [|reflexivity].
  unfold for_stride. fold (diag_turns pd).
  rewrite <- for_loop_flat_map. apply for_loop_ext. intros t st2.
  set (k := pd + t * w_num_diag_procs W).
  set (F := fun st it => pack_item V (w_nrhs W) x it st).
  set (mk := fun i =>
               {| it_dest := w_row_to_proc W (FstBlockC (w_Glu W) k + i);
                  it_idx := FstBlockC (w_Glu W) k + i;
                  it_base := X_BLK D (w_ilsum W q) (w_nrhs W) (LBi (grid_of W q) k) + i;
                  it_stride := SuperSize (w_Glu W) k |}).
  destruct (Z.le_gt_cases (SuperSize (w_Glu W) k) 0) as [Hn|Hn].
  - rewrite for_loop_nonpos, range_nonpos by lia. reflexivity.
  - rewrite (for_loop_closed (SuperSize (w_Glu W) k) _ _
      (fun i => (FstBlockC (w_Glu W) k + i, fold_left F (map mk (range i)) st2))).
    + reflexivity.
    + lia.
    + cbn [range map fold_left]. f_equal. lia.
    + intros i Hi. cbn [fst snd]. rewrite range_succ by lia.
      rewrite map_app, fold_left_app. cbn [map fold_left].
      f_equal. lia.
Qed.

Lemma X_to_B_unpack_writes m_loc nrhs ldb fst_row ri (rdb : array V) B0 :
  0 <= nrhs ->
  X_to_B_unpack V m_loc nrhs ldb fst_row ri rdb B0
  = write_list
      (flat_map (fun i => map (fun j => (ri i - fst_row + j * ldb, rdb (i * nrhs + j)))
                            (range nrhs))
                (range m_loc)) B0.
Proof.
  intros Hn. unfold X_to_B_unpack.
  destruct (Z.le_gt_cases m_loc 0) as [Hm|Hm].
  - rewrite for_loop_nonpos by lia. rewrite (range_nonpos m_loc) by lia. reflexivity.
  - rewrite (for_loop_closed m_loc _ _
      (fun i => (i * nrhs,
         write_list
           (flat_map (fun i => map (fun j => (ri i - fst_row + j * ldb, rdb (i * nrhs + j)))
                                 (range nrhs))
                     (range i)) B0))).
    + reflexivity.
    + lia.
    + reflexivity.
    + intros i Hi.
      rewrite (for_loop_cursor nrhs (fun j _ => ri i - fst_row + j * ldb) (fun _ c => rdb c)).
      rewrite range_succ by lia. rewrite flat_map_app, write_list_app.
      cbn [flat_map]. rewrite app_nil_r. f_equal. lia.
Qed.

(** The set-up [pdReDistribute_X_to_B] relies on: a mesh and its
    diagonal processes, [row_to_proc] sending every row to the process
    that holds it, the supernode partition read the same way off [xsup]
    and [supno], [diag_procs] listing the diagonal process of block [k]
    at place [k mod num_diag_procs], room for the local rows in [B], as
    many rows received as there are local rows, and the tables of
    [pxgstrs_init] matching the rows. *)
Definition valid_X_to_B : bool :=
  (0 <? w_nprow W) && (0 <? w_npcol W) && (0 <=? w_nrhs W)
  && (0 <? w_num_diag_procs W)
  && range_all (w_n W) (fun r =>
       let q := w_row_to_proc W r in
       let k := BlockNum (w_Glu W) r in
       (0 <=? q) && (q <? w_procs W)
       && (w_fst_row W q <=? r) && (r <? w_fst_row W q + w_m_loc W q)
       && (0 <=? k) && (k <? nsupers_of (w_Glu W) (w_n W))
       && (FstBlockC (w_Glu W) k <=? r) && (r <? FstBlockC (w_Glu W) (k + 1)))
  && range_all (nsupers_of (w_Glu W) (w_n W)) (fun k =>
       (w_diag_procs W (Z.rem k (w_num_diag_procs W)) =? diag_owner W k)
       && range_all (SuperSize (w_Glu W) k) (fun i =>
            (0 <=? FstBlockC (w_Glu W) k + i) && (FstBlockC (w_Glu W) k + i <? w_n W)
            && (BlockNum (w_Glu W) (FstBlockC (w_Glu W) k + i) =? k)))
  && range_all (w_procs W) (fun q =>
       (w_m_loc W q <=? w_ldb W q)
       && (w_m_loc W q =? psum (slice (w_X_to_B_SendCnt W q) (2 * w_procs W)) (w_procs W)))
  && tables_ok (w_procs W) (w_nrhs W) X_to_B_rows (w_X_to_B_SendCnt W).

Section Taking.

Variables B xs : Z -> array V.
Variable scr : Z -> pack_state V.
Hypothesis Hvalid : valid_X_to_B = true.

Lemma valid_X_to_B_grid :
  0 < w_nprow W /\ 0 < w_npcol W /\ 0 <= w_nrhs W /\ 0 < w_num_diag_procs W.
Proof.
  unfold valid_X_to_B in Hvalid. rewrite !andb_true_iff in Hvalid.
  destruct Hvalid as [[[[[[[H1 H2] H3] H4] _] _] _] _].
  apply Z.ltb_lt in H1. apply Z.ltb_lt in H2. apply Z.leb_le in H3.
  apply Z.ltb_lt in H4. auto.
Qed.

Lemma valid_X_to_B_row r :
  0 <= r < w_n W ->
  0 <= w_row_to_proc W r < w_procs W
  /\ w_fst_row W (w_row_to_proc W r) <= r
     < w_fst_row W (w_row_to_proc W r) + w_m_loc W (w_row_to_proc W r)
  /\ 0 <= BlockNum (w_Glu W) r < nsupers_of (w_Glu W) (w_n W)
  /\ FstBlockC (w_Glu W) (BlockNum (w_Glu W) r) <= r
     < FstBlockC (w_Glu W) (BlockNum (w_Glu W) r + 1).
Proof.
  intros Hr. unfold valid_X_to_B in Hvalid. rewrite !andb_true_iff in Hvalid.
  destruct Hvalid as [[[[_ H] _] _] _].
  pose proof (range_all_spec _ _ H r Hr) as E. cbv zeta beta in E.
  rewrite !andb_true_iff in E. rewrite !Z.leb_le, !Z.ltb_lt in E. lia.
Qed.

Lemma valid_X_to_B_block k :
  0 <= k < nsupers_of (w_Glu W) (w_n W) ->
  w_diag_procs W (Z.rem k (w_num_diag_procs W)) = diag_owner W k
  /\ forall i, 0 <= i < SuperSize (w_Glu W) k ->
       0 <= FstBlockC (w_Glu W) k + i < w_n W
       /\ BlockNum (w_Glu W) (FstBlockC (w_Glu W) k + i) = k.
Proof.
  intros Hk. unfold valid_X_to_B in Hvalid. rewrite !andb_true_iff in Hvalid.
  destruct Hvalid as [[[_ H] _] _].
  pose proof (range_all_spec _ _ H k Hk) as E. cbv beta in E.
  apply andb_true_iff in E. destruct E as [E1 E2]. apply Z.eqb_eq in E1.
  split; [exact E1|]. intros i Hi.
  pose proof (range_all_spec _ _ E2 i Hi) as E3. cbv beta in E3.
  rewrite !andb_true_iff in E3. rewrite Z.leb_le, Z.ltb_lt, Z.eqb_eq in E3. lia.
Qed.

Lemma valid_X_to_B_local q :
  0 <= q < w_procs W ->
  w_m_loc W q <= w_ldb W q
  /\ w_m_loc W q = psum (slice (w_X_to_B_SendCnt W q) (2 * w_procs W)) (w_procs W).
Proof.
  intros Hq. unfold valid_X_to_B in Hvalid. rewrite !andb_true_iff in Hvalid.
  destruct Hvalid as [[_ H] _].
  pose proof (range_all_spec _ _ H q Hq) as E. cbv beta in E.
  rewrite andb_true_iff in E. rewrite Z.leb_le, Z.eqb_eq in E. exact E.
Qed.

Lemma valid_X_to_B_tables :
  tables_ok (w_procs W) (w_nrhs W) X_to_B_rows (w_X_to_B_SendCnt W) = true.
Proof.
  unfold valid_X_to_B in Hvalid. rewrite !andb_true_iff in Hvalid.
  now destruct Hvalid as [_ H].
Qed.

Lemma diag_turns_spec pd t :
  0 < w_num_diag_procs W -> 0 <= t ->
  (t < diag_turns pd <->
   pd + t * w_num_diag_procs W < nsupers_of (w_Glu W) (w_n W)).
Proof.
  intros Hd Ht. unfold diag_turns.
  set (nd := w_num_diag_procs W) in *. set (N := nsupers_of (w_Glu W) (w_n W)).
  pose proof (Z.mul_div_le (N - pd + nd - 1) nd Hd) as H1.
  split.
  - intros H. nia.
  - intros H.
    assert (t + 1 <= (N - pd + nd - 1) / nd); [|lia].
    apply Z.div_le_lower_bound; [exact Hd|nia].
Qed.

Lemma X_to_B_rows_In q it :
  In it (X_to_B_rows q) ->
  exists k i, 0 <= k < nsupers_of (w_Glu W) (w_n W)
    /\ 0 <= i < SuperSize (w_Glu W) k
    /\ q = diag_owner W k
    /\ it = {| it_dest := w_row_to_proc W (FstBlockC (w_Glu W) k + i);
               it_idx := FstBlockC (w_Glu W) k + i;
               it_base := X_BLK D (w_ilsum W q) (w_nrhs W) (LBi (grid_of W q) k) + i;
               it_stride := SuperSize (w_Glu W) k |}.
Proof.
  intros Hin. destruct valid_X_to_B_grid as [_ [_ [_ Hd]]].
  unfold X_to_B_rows in Hin. apply in_flat_map in Hin. destruct Hin as [pd [Hpd Hin]].
  apply range_In in Hpd.
  destruct (Z.eqb_spec q (w_diag_procs W pd)) as [Eq|_]; [|destruct Hin].
  apply in_flat_map in Hin. destruct Hin as [t [Ht Hin]]. apply range_In in Ht.
  apply in_map_iff in Hin. destruct Hin as [i [E Hi]]. apply range_In in Hi.
  set (k := pd + t * w_num_diag_procs W) in *.
  assert (Hk : 0 <= k < nsupers_of (w_Glu W) (w_n W)).
  { split; [unfold k; nia|]. apply diag_turns_spec; lia. }
  exists k, i. split; [exact Hk|]. split; [exact Hi|]. split; [|now symmetry].
  destruct (valid_X_to_B_block k Hk) as [Ed _]. rewrite <- Ed, Eq. f_equal.
  unfold k. rewrite Z.rem_add by nia. symmetry. apply Z.rem_small. lia.
Qed.

Lemma X_to_B_rows_has k i :
  0 <= k < nsupers_of (w_Glu W) (w_n W) -> 0 <= i < SuperSize (w_Glu W) k ->
  In {| it_dest := w_row_to_proc W (FstBlockC (w_Glu W) k + i);
        it_idx := FstBlockC (w_Glu W) k + i;
        it_base := X_BLK D (w_ilsum W (diag_owner W k)) (w_nrhs W)
                     (LBi (grid_of W (diag_owner W k)) k) + i;
        it_stride := SuperSize (w_Glu W) k |}
     (X_to_B_rows (diag_owner W k)).
Proof.
  intros Hk Hi. destruct valid_X_to_B_grid as [_ [_ [_ Hd]]].
  destruct (valid_X_to_B_block k Hk) as [Ed _].
  set (nd := w_num_diag_procs W) in *.
  assert (Hrem : Z.rem k nd = k mod nd) by (apply Z.rem_mod_nonneg; lia).
  pose proof (Z.mod_pos_bound k nd Hd) as Hb.
  pose proof (Z.div_mod k nd ltac:(lia)) as Hdm.
  assert (Hq : 0 <= k / nd) by (apply Z.div_pos; lia).
  assert (Ek : k mod nd + k / nd * nd = k) by lia.
  unfold X_to_B_rows. apply in_flat_map. exists (k mod nd).
  split; [apply range_In; exact Hb|]. fold nd.
  rewrite <- Hrem at 1. rewrite Ed, Z.eqb_refl.
  apply in_flat_map. exists (k / nd). split.
  - apply range_In. split; [exact Hq|]. apply diag_turns_spec; [exact Hd|exact Hq|].
    fold nd. lia.
  - rewrite Ek. apply in_map_iff. exists i. split; [reflexivity|now apply range_In].
Qed.

Lemma X_to_B_rows_dest q it :
  0 <= q < w_procs W -> In it (X_to_B_rows q) -> 0 <= it_dest it < w_procs W.
Proof.
  intros Hq Hit. destruct (X_to_B_rows_In q it Hit) as [k [i [Hk [Hi [_ ->]]]]].
  cbn [it_dest]. destruct (valid_X_to_B_block k Hk) as [_ Hb].
  destruct (Hb i Hi) as [Hr _]. now destruct (valid_X_to_B_row _ Hr) as [H _].
Qed.

(** The buffers of process [q] after its pack loops, and what process
    [me] holds after the two [MPI_Alltoallv]. *)
Definition XB_packed (q : Z) : pack_state V :=
  X_to_B_pack V D (grid_of W q) (w_Glu W) (solve_of W q) (w_n W) (w_nrhs W)
    (w_ilsum W q) (xs q) (scr q).

Definition XB_sends (me : Z) : Z :=
  slice (w_X_to_B_SendCnt W me) (4 * w_procs W) (w_procs W - 1)
  + w_X_to_B_SendCnt W me (w_procs W - 1).

Definition XB_ri (me : Z) : array Z :=
  recv_ibuf_of V (w_procs W) (w_X_to_B_SendCnt W) XB_packed me
    (slice (send_ibuf V (XB_packed me)) (XB_sends me)).

Definition XB_rd (me : Z) : array V :=
  recv_dbuf_of V (w_procs W) (w_X_to_B_SendCnt W) XB_packed me
    (slice (send_dbuf V (XB_packed me)) (XB_sends me * w_nrhs W)).

Definition XB_RC (me : Z) : array Z := RecvCnt_of (w_procs W) (w_X_to_B_SendCnt W) me.

Lemma XB_packed_ok q :
  0 <= q < w_procs W ->
  exists st0, XB_packed q = pack_all V (w_nrhs W) (xs q) (X_to_B_rows q) st0
    /\ forall d, 0 <= d < w_procs W ->
         ptr_to_ibuf V st0 d = slice (w_X_to_B_SendCnt W q) (4 * w_procs W) d
         /\ ptr_to_dbuf V st0 d
            = slice (w_X_to_B_SendCnt W q) (4 * w_procs W) d * w_nrhs W.
Proof.
  intros Hq. unfold XB_packed. rewrite X_to_B_pack_rows.
  eexists. split; [reflexivity|].
  intros d Hd.
  destruct (init_ptrs_spec V (w_procs W)
              (fun p => slice (w_X_to_B_SendCnt W q) (4 * w_procs W) p)
              (fun p => slice (w_X_to_B_SendCnt W q) (5 * w_procs W) p)
              (scr q)) as [H _].
  destruct (H d Hd) as [H1 H2]. split; [exact H1|]. rewrite H2.
  now destruct (tables_ok_spec _ _ _ _ valid_X_to_B_tables q d Hq Hd)
    as [_ [_ [_ [_ [E _]]]]].
Qed.

Lemma XB_received me q r :
  0 <= me < w_procs W -> 0 <= q < w_procs W -> 0 <= r < XB_RC me q ->
  exists irow, 0 <= irow < w_n W
    /\ w_row_to_proc W irow = me
    /\ q = diag_owner W (BlockNum (w_Glu W) irow)
    /\ XB_ri me (psum (XB_RC me) q + r) = irow
    /\ forall j, 0 <= j < w_nrhs W ->
         XB_rd me ((psum (XB_RC me) q + r) * w_nrhs W + j)
         = xs q (x_cell D W q irow j).
Proof.
  intros Hme Hq Hr.
  destruct valid_X_to_B_grid as [_ [_ [Hn _]]].
  unfold XB_RC in Hr.
  rewrite (RecvCnt_of_spec (w_procs W) (w_nrhs W) X_to_B_rows (w_X_to_B_SendCnt W) me
             valid_X_to_B_tables Hme q Hq) in Hr.
  destruct (received_spec V (w_procs W) (w_nrhs W) X_to_B_rows (w_X_to_B_SendCnt W)
              xs XB_packed me
              (slice (send_ibuf V (XB_packed me)) (XB_sends me))
              (slice (send_dbuf V (XB_packed me)) (XB_sends me * w_nrhs W))
              Hn valid_X_to_B_tables X_to_B_rows_dest XB_packed_ok Hme q r Hq Hr)
    as [Ri Rd].
  destruct (to_dest_nth me (X_to_B_rows q) r Hr) as [Hin Hd].
  destruct (X_to_B_rows_In q _ Hin) as [k [i [Hk [Hi [Eq E]]]]].
  rewrite E in Ri, Rd, Hd. cbn [it_dest it_idx it_base it_stride] in Ri, Rd, Hd.
  destruct (valid_X_to_B_block k Hk) as [_ Hb]. destruct (Hb i Hi) as [Hrow Hsup].
  exists (FstBlockC (w_Glu W) k + i).
  split; [exact Hrow|]. split; [exact Hd|]. split; [now rewrite Hsup|].
  split; [exact Ri|]. intros j Hj.
  etransitivity; [exact (Rd j Hj)|]. f_equal.
  unfold x_cell. rewrite Hsup. lia.
Qed.

Lemma XB_sent irow :
  0 <= irow < w_n W ->
  exists r,
    0 <= r < XB_RC (w_row_to_proc W irow) (diag_owner W (BlockNum (w_Glu W) irow))
    /\ XB_ri (w_row_to_proc W irow)
         (psum (XB_RC (w_row_to_proc W irow)) (diag_owner W (BlockNum (w_Glu W) irow)) + r)
       = irow
    /\ forall j, 0 <= j < w_nrhs W ->
         XB_rd (w_row_to_proc W irow)
           ((psum (XB_RC (w_row_to_proc W irow))
                  (diag_owner W (BlockNum (w_Glu W) irow)) + r) * w_nrhs W + j)
         = xs (diag_owner W (BlockNum (w_Glu W) irow))
              (x_cell D W (diag_owner W (BlockNum (w_Glu W) irow)) irow j).
Proof.
  intros Hrow.
  destruct valid_X_to_B_grid as [H1 [H2 [Hn _]]].
  destruct (valid_X_to_B_row irow Hrow) as [Hme [_ [Hk Hin]]].
  set (me := w_row_to_proc W irow) in *.
  set (k := BlockNum (w_Glu W) irow) in *.
  set (q := diag_owner W k).
  assert (Hq : 0 <= q < w_procs W) by (apply diag_owner_range; lia).
  assert (Hi : 0 <= irow - FstBlockC (w_Glu W) k < SuperSize (w_Glu W) k).
  { unfold SuperSize, FstBlockC in *. lia. }
  pose proof (X_to_B_rows_has k (irow - FstBlockC (w_Glu W) k) Hk Hi) as Hhas.
  fold q in Hhas.
  replace (FstBlockC (w_Glu W) k + (irow - FstBlockC (w_Glu W) k)) with irow in Hhas by lia.
  fold me in Hhas.
  match type of Hhas with In ?it _ =>
    destruct (to_dest_find me (X_to_B_rows q) it Hhas eq_refl) as [r [Hr En]]
  end.
  destruct (received_spec V (w_procs W) (w_nrhs W) X_to_B_rows (w_X_to_B_SendCnt W)
              xs XB_packed me
              (slice (send_ibuf V (XB_packed me)) (XB_sends me))
              (slice (send_dbuf V (XB_packed me)) (XB_sends me * w_nrhs W))
              Hn valid_X_to_B_tables X_to_B_rows_dest XB_packed_ok Hme q r Hq Hr)
    as [Ri Rd].
  rewrite En in Ri, Rd. cbn [it_idx it_base it_stride] in Ri, Rd.
  exists r. split; [|split; [exact Ri|]].
  - unfold XB_RC.
    rewrite (RecvCnt_of_spec (w_procs W) (w_nrhs W) X_to_B_rows (w_X_to_B_SendCnt W) me
               valid_X_to_B_tables Hme q Hq). exact Hr.
  - intros j Hj. etransitivity; [exact (Rd j Hj)|].
    f_equal; unfold x_cell; fold k; lia.
Qed.

(** Every row of [B] is filled from the [x] of the diagonal process of
    its block: row [irow] of the matrix, on the process that holds it,
    receives the values at the place of [irow] in the block. *)
Lemma X_to_B_takes irow j :
  0 <= irow < w_n W -> 0 <= j < w_nrhs W ->
  pdReDistribute_X_to_B V D W B xs scr (w_row_to_proc W irow)
    (irow - w_fst_row W (w_row_to_proc W irow) + j * w_ldb W (w_row_to_proc W irow))
  = xs (diag_owner W (BlockNum (w_Glu W) irow))
       (x_cell D W (diag_owner W (BlockNum (w_Glu W) irow)) irow j).
Proof.
  intros Hrow Hj.
  destruct valid_X_to_B_grid as [H1 [H2 [Hn _]]].
  destruct (valid_X_to_B_row irow Hrow) as [Hme [Hloc [Hk _]]].
  set (me := w_row_to_proc W irow) in *.
  set (q := diag_owner W (BlockNum (w_Glu W) irow)).
  assert (Hq : 0 <= q < w_procs W) by (apply diag_owner_range; lia).
  destruct (valid_X_to_B_local me Hme) as [Hldb Htot0].
  assert (Htot : w_m_loc W me = psum (XB_RC me) (w_procs W)) by exact Htot0.
  clear Htot0.
  assert (Hnn : forall p, 0 <= p < w_procs W -> 0 <= XB_RC me p).
  { intros p Hp.
    apply (RecvCnt_of_nonneg (w_procs W) (w_nrhs W) X_to_B_rows (w_X_to_B_SendCnt W) me
             valid_X_to_B_tables Hme p Hp). }
  assert (E : pdReDistribute_X_to_B V D W B xs scr me
              = X_to_B_unpack V (w_m_loc W me) (w_nrhs W) (w_ldb W me) (w_fst_row W me)
                  (XB_ri me) (XB_rd me) (B me)) by reflexivity.
  rewrite E. rewrite X_to_B_unpack_writes by exact Hn.
  destruct (XB_sent irow Hrow) as [r [Hr [Ri Rd]]].
  fold me in Hr, Ri, Rd. fold q in Hr, Ri, Rd.
  apply write_list_consistent.
  - apply in_flat_map. exists (psum (XB_RC me) q + r). split.
    + apply range_In. rewrite Htot.
      pose proof (psum_mono (XB_RC me) (w_procs W) 0 q Hnn ltac:(lia) ltac:(lia) ltac:(lia)).
      pose proof (psum_mono (XB_RC me) (w_procs W) (q + 1) (w_procs W) Hnn
                    ltac:(lia) ltac:(lia) ltac:(lia)) as Hm.
      rewrite psum_succ in Hm by lia. rewrite psum_0 in H. lia.
    + apply in_map_iff. exists j. split; [|now apply range_In].
      rewrite Ri, (Rd j Hj). reflexivity.
  - intros v' Hv'. apply in_flat_map in Hv'. destruct Hv' as [i' [Hi' Hv']].
    apply in_map_iff in Hv'. destruct Hv' as [j' [Hv' Hj']].
    apply range_In in Hi'. apply range_In in Hj'.
    rewrite Htot in Hi'.
    destruct (psum_find (XB_RC me) (w_procs W) i' Hnn ltac:(lia) Hi') as [q' [Hq' Hb']].
    destruct (XB_received me q' (i' - psum (XB_RC me) q') Hme Hq' ltac:(lia))
      as [irow' [Hrow' [Eme' [Eq' [Ri' Rd']]]]].
    replace (psum (XB_RC me) q' + (i' - psum (XB_RC me) q')) with i' in Ri', Rd' by lia.
    destruct (valid_X_to_B_row irow' Hrow') as [_ [Hloc' _]]. rewrite Eme' in Hloc'.
    injection Hv' as Ea Ev. rewrite Ri' in Ea.
    destruct (scaled_inj j' j (w_ldb W me) (irow' - w_fst_row W me)
                (irow - w_fst_row W me) ltac:(lia) ltac:(lia) ltac:(lia)) as [Ej Er].
    assert (Hsame : irow' = irow) by lia.
    rewrite <- Ev, (Rd' j' Hj'), Ej, Eq', Hsame. reflexivity.
Qed.

End Taking.

End XtoB.

(** The two routines one after the other, with [x] left as the first
    one filled it: row [l] of [B] comes back as row [perm_c[perm_r[l]]]. *)
Lemma round_trip_row V (of_int : Z -> V) D W (B x : Z -> array V)
    (scr scr' : Z -> pack_state V) q i j :
  valid_B_to_X D W = true -> valid_X_to_B D W = true ->
  0 <= q < w_procs W -> 0 <= i < w_m_loc W q -> 0 <= j < w_nrhs W ->
  pdReDistribute_X_to_B V D W B (pdReDistribute_B_to_X V of_int D W B x scr) scr'
    (w_row_to_proc W (perm_of W (w_fst_row W q + i)))
    (perm_of W (w_fst_row W q + i)
     - w_fst_row W (w_row_to_proc W (perm_of W (w_fst_row W q + i)))
     + j * w_ldb W (w_row_to_proc W (perm_of W (w_fst_row W q + i))))
  = B q (i + j * w_ldb W q).
Proof.
  intros HvB HvX Hq Hi Hj.
  destruct (valid_B_to_X_rows D W HvB q i Hq Hi) as [Hl _].
  destruct (valid_B_to_X_perm D W HvB _ Hl) as [Hirow _].
  rewrite (X_to_B_takes V D W B _ scr' HvX _ j Hirow Hj).
  destruct (B_to_X_lands V of_int D W B x scr HvB q i Hq Hi) as [_ Hd].
  now apply Hd.
Qed.

(* ================================================================== *)
(** * The redistribution on a 2 x 1 mesh *)
(* ================================================================== *)

(** Four rows in two supernodes of size 2, two right-hand sides.
    Process 0 holds rows 0-2 of [B] and is the diagonal process of block
    0; process 1 holds row 3 and is the diagonal process of block 1.
    [perm_r] is the cycle 0 -> 1 -> 2 -> 3 -> 0 and [perm_c] the
    identity.  The tables are what [pxgstrs_init] computes for this
    distribution. *)
Definition rt_world : world :=
  {| w_nprow := 2; w_npcol := 1;
     w_Glu := {| xsup := tab 0 [0; 2; 4]; supno := tab 0 [0; 0; 1; 1] |};
     w_perm := {| perm_r := tab 0 [1; 2; 3; 0]; perm_c := tab 0 [0; 1; 2; 3] |};
     w_n := 4; w_nrhs := 2;
     w_row_to_proc := tab 0 [0; 0; 0; 1];
     w_num_diag_procs := 2;
     w_diag_procs := tab 0 [0; 1];
     w_m_loc := tab 0 [3; 1];
     w_fst_row := tab 0 [0; 3];
     w_ldb := tab 0 [4; 2];
     w_ilsum := fun _ => tab 0 [0; 2];
     w_B_to_X_SendCnt := fun q =>
       if q =? 0 then tab 0 [1; 2;  2; 4;  1; 1;  2; 2;  0; 1;  0; 2;  0; 1;  0; 2]
       else tab 0 [1; 0;  2; 0;  2; 0;  4; 0;  0; 1;  0; 2;  0; 2;  0; 4];
     w_X_to_B_SendCnt := fun q =>
       if q =? 0 then tab 0 [2; 0;  4; 0;  2; 1;  4; 2;  0; 2;  0; 4;  0; 2;  0; 4]
       else tab 0 [1; 1;  2; 2;  0; 1;  0; 2;  0; 1;  0; 2;  0; 0;  0; 0] |}.

(** [B] on entry: entry (row, right-hand side) of the matrix is
    [10 * (rhs + 1) + row]. *)
Definition rt_B (q : Z) : array Z :=
  if q =? 0 then tab 0 [10; 11; 12; 0; 20; 21; 22; 0] else tab 0 [13; 0; 23; 0].

Definition rt_x (q : Z) : array Z := fun _ => 0.

Definition rt_scr (q : Z) : pack_state Z :=
  {| ptr_to_ibuf := fun _ => 0; ptr_to_dbuf := fun _ => 0;
     send_ibuf := fun _ => -7; send_dbuf := fun _ => -7 |}.

Definition rt_x' : Z -> array Z :=
  pdReDistribute_B_to_X Z (fun k => k) D0 rt_world rt_B rt_x rt_scr.

Definition rt_B' : Z -> array Z :=
  pdReDistribute_X_to_B Z D0 rt_world rt_B rt_x' rt_scr.


(* ================================================================== *)
(** * The redistribution: placement and round trip *)
(* ================================================================== *)

(** C4: in [pdReDistribute_B_to_X], for the local row [i] of process
    [q], global row [l = fst_row + i], the index that travels is
    [irow = perm_c[perm_r[l]]]; with [k] the supernode of [irow], the row
    is packed in the part of the send buffers kept for the diagonal
    process [p = PNUM(PROW(k), PCOL(k))]; and on return the [x] of [p]
    holds the value for right-hand side [j] in the block of [k], at
    [X_BLK(LBi(k)) + (irow - FstBlockC(k)) + j * SuperSize(k)], and [k] in
    the header word of the block. *)
Theorem C4_B_to_X_placement (V : Type) (of_int : Z -> V) (D : superlu_defs)
    (W : world) (B x : Z -> array V) (scr : Z -> pack_state V) (q i : Z) :
  valid_B_to_X D W = true ->
  0 <= q < w_procs W -> 0 <= i < w_m_loc W q ->
  let g := grid_of W q in
  let l := w_fst_row W q + i in
  let irow := perm_c (w_perm W) (perm_r (w_perm W) l) in
  let k := BlockNum (w_Glu W) irow in
  let p := PNUM g (PROW g k) (PCOL g k) in
  let xl := X_BLK D (w_ilsum W p) (w_nrhs W) (LBi (grid_of W p) k) in
  let sent := B_to_X_pack V g (w_Glu W) (w_perm W) (solve_of W q) (B q)
                (w_m_loc W q) (w_nrhs W) (w_ldb W q) (w_fst_row W q) (scr q) in
  let sdispls := slice (w_B_to_X_SendCnt W q) (4 * w_procs W) in
  let xp := pdReDistribute_B_to_X V of_int D W B x scr p in
  (exists r, 0 <= r < w_B_to_X_SendCnt W q p
     /\ send_ibuf V sent (sdispls p + r) = irow
     /\ forall j, 0 <= j < w_nrhs W ->
          send_dbuf V sent ((sdispls p + r) * w_nrhs W + j) = B q (i + j * w_ldb W q))
  /\ xp (xl - XK_H D) = of_int k
  /\ forall j, 0 <= j < w_nrhs W ->
       xp (xl + (irow - FstBlockC (w_Glu W) k) + j * SuperSize (w_Glu W) k)
       = B q (i + j * w_ldb W q).
Proof.
  intros Hv Hq Hi. cbv zeta. split.
  - exact (BX_packed_for V D W B scr Hv q i Hq Hi).
  - exact (B_to_X_lands V of_int D W B x scr Hv q i Hq Hi).
Qed.

(** C4 on the 2 x 1 mesh: row 1 of process 0 travels as row 2, which
    lies in block 1, to process 1, and lands at the head of that block. *)
Lemma C4_witness :
  rt_x' 1 0 = 1 /\ rt_x' 1 2 = rt_B 0 1 /\ rt_x' 1 4 = rt_B 0 5.
Proof.
  assert (Hv : valid_B_to_X D0 rt_world = true) by (vm_compute; reflexivity).
  assert (Hq : 0 <= 0 < w_procs rt_world) by (vm_compute; split; [discriminate|reflexivity]).
  assert (Hi : 0 <= 1 < w_m_loc rt_world 0) by (vm_compute; split; [discriminate|reflexivity]).
  pose proof (C4_B_to_X_placement Z (fun k => k) D0 rt_world rt_B rt_x rt_scr 0 1
                Hv Hq Hi) as H.
  cbv zeta in H. destruct H as [_ [Hh Hd]].
  split; [exact Hh|]. split.
  - exact (Hd 0 ltac:(vm_compute; split; [discriminate|reflexivity])).
  - exact (Hd 1 ltac:(vm_compute; split; [discriminate|reflexivity])).
Defined.




(* ================================================================== *)
(** * More on the two redistributions *)
(* ================================================================== *)

(** X1: [pdReDistribute_X_to_B] fills row [irow] of the matrix, on the
    process that [row_to_proc] names for it and at the local place
    [irow - fst_row], with the values that the diagonal process of the
    block of [irow] holds for that row in its [x]. *)
Theorem X1_X_to_B_placement (V : Type) (D : superlu_defs) (W : world)
    (B xs : Z -> array V) (scr : Z -> pack_state V) (irow j : Z) :
  valid_X_to_B D W = true ->
  0 <= irow < w_n W -> 0 <= j < w_nrhs W ->
  let g := grid_of W 0 in
  let k := BlockNum (w_Glu W) irow in
  let p := PNUM g (PROW g k) (PCOL g k) in
  let q := w_row_to_proc W irow in
  pdReDistribute_X_to_B V D W B xs scr q (irow - w_fst_row W q + j * w_ldb W q)
  = xs p (X_BLK D (w_ilsum W p) (w_nrhs W) (LBi (grid_of W p) k)
          + (irow - FstBlockC (w_Glu W) k) + j * SuperSize (w_Glu W) k).
Proof.
  intros Hv Hrow Hj. cbv zeta.
  exact (X_to_B_takes V D W B xs scr Hv irow j Hrow Hj).
Qed.

(** X1 on the 2 x 1 mesh of the round-trip example: row 2 of the
    matrix, second right-hand side, comes from the [x] of process 1 and
    lands in [B] on process 0. *)
Lemma X1_witness : rt_B' 0 6 = rt_x' 1 4.
Proof.
  assert (Hv : valid_X_to_B D0 rt_world = true) by (vm_compute; reflexivity).
  assert (Hr : 0 <= 2 < w_n rt_world) by (vm_compute; split; [discriminate|reflexivity]).
  assert (Hj : 0 <= 1 < w_nrhs rt_world) by (vm_compute; split; [discriminate|reflexivity]).
  exact (X1_X_to_B_placement Z D0 rt_world rt_B rt_x' rt_scr 2 1 Hv Hr Hj).
Defined.

(** X2: [pdReDistribute_X_to_B] writes [B] only inside the window of
    the local rows: an entry of the array that is not [B[i + j*ldb]] for
    some [0 <= i < m_loc] and [0 <= j < nrhs] (the padding below the local
    rows when [ldb > m_loc], and whatever lies beyond) is left as it
    was. *)
Theorem X2_X_to_B_window (V : Type) (D : superlu_defs) (W : world)
    (B xs : Z -> array V) (scr : Z -> pack_state V) (me a : Z) :
  valid_X_to_B D W = true ->
  0 <= me < w_procs W ->
  (forall i j, 0 <= i < w_m_loc W me -> 0 <= j < w_nrhs W ->
     a <> i + j * w_ldb W me) ->
  pdReDistribute_X_to_B V D W B xs scr me a = B me a.
Proof.
  intros Hv Hme Hout.
  destruct (valid_X_to_B_grid D W Hv) as [_ [_ [Hn _]]].
  destruct (valid_X_to_B_local D W Hv me Hme) as [_ Htot0].
  assert (Htot : w_m_loc W me = psum (XB_RC W me) (w_procs W)) by exact Htot0.
  assert (Hnn : forall p, 0 <= p < w_procs W -> 0 <= XB_RC W me p).
  { intros p Hp.
    apply (RecvCnt_of_nonneg (w_procs W) (w_nrhs W) (X_to_B_rows D W)
             (w_X_to_B_SendCnt W) me (valid_X_to_B_tables D W Hv) Hme p Hp). }
  assert (E : pdReDistribute_X_to_B V D W B xs scr me
              = X_to_B_unpack V (w_m_loc W me) (w_nrhs W) (w_ldb W me) (w_fst_row W me)
                  (XB_ri V D W xs scr me) (XB_rd V D W xs scr me) (B me))
    by reflexivity.
  rewrite E, X_to_B_unpack_writes by exact Hn.
  apply write_list_notin. intros v Hin.
  apply in_flat_map in Hin. destruct Hin as [i' [Hi' Hin]].
  apply in_map_iff in Hin. destruct Hin as [j' [Hin Hj']].
  apply range_In in Hi'. apply range_In in Hj'.
  injection Hin as Ea _.
  assert (Hi2 : 0 <= i' < psum (XB_RC W me) (w_procs W)) by lia.
  destruct (psum_find (XB_RC W me) (w_procs W) i' Hnn ltac:(lia) Hi2) as [q' [Hq' Hb']].
  destruct (XB_received V D W xs scr Hv me q' (i' - psum (XB_RC W me) q') Hme Hq'
              ltac:(lia)) as [irow' [Hrow' [Eme' [_ [Ri' _]]]]].
  replace (psum (XB_RC W me) q' + (i' - psum (XB_RC W me) q')) with i' in Ri' by lia.
  destruct (valid_X_to_B_row D W Hv irow' Hrow') as [_ [Hloc' _]]. rewrite Eme' in Hloc'.
  apply (Hout (irow' - w_fst_row W me) j'); [lia|exact Hj'|].
  rewrite <- Ea, Ri'. reflexivity.
Qed.

(** X2 on that mesh: process 0 has 3 local rows and [ldb = 4], so cell
    3 of its [B] is padding and keeps its value. *)
Lemma X2_witness : rt_B' 0 3 = rt_B 0 3.
Proof.
  assert (Hv : valid_X_to_B D0 rt_world = true) by (vm_compute; reflexivity).
  assert (Hme : 0 <= 0 < w_procs rt_world)
    by (vm_compute; split; [discriminate|reflexivity]).
  apply (X2_X_to_B_window Z D0 rt_world rt_B rt_x' rt_scr 0 3 Hv Hme).
  intros i j Hi Hj.
  change (w_m_loc rt_world 0) with 3 in Hi. change (w_nrhs rt_world) with 2 in Hj.
  change (w_ldb rt_world 0) with 4. lia.
Defined.

(** X3: [pdReDistribute_B_to_X] writes the [x] of a process only in the
    blocks of the rows it receives: a cell that is neither the header
    cell nor a data cell of a row sent to the process keeps its value.
    In particular the [x] of a process to which no row is sent is left
    as it was. *)
Theorem X3_B_to_X_frame (V : Type) (of_int : Z -> V) (D : superlu_defs) (W : world)
    (B x : Z -> array V) (scr : Z -> pack_state V) (me a : Z) :
  valid_B_to_X D W = true ->
  0 <= me < w_procs W ->
  (forall q i, 0 <= q < w_procs W -> 0 <= i < w_m_loc W q ->
     let g := grid_of W q in
     let irow := perm_c (w_perm W) (perm_r (w_perm W) (w_fst_row W q + i)) in
     let k := BlockNum (w_Glu W) irow in
     let xl := X_BLK D (w_ilsum W me) (w_nrhs W) (LBi (grid_of W me) k) in
     PNUM g (PROW g k) (PCOL g k) = me ->
     a <> xl - XK_H D
     /\ forall j, 0 <= j < w_nrhs W ->
          a <> xl + (irow - FstBlockC (w_Glu W) k) + j * SuperSize (w_Glu W) k) ->
  pdReDistribute_B_to_X V of_int D W B x scr me a = x me a.
Proof.
  intros Hv Hme Hout.
  rewrite (B_to_X_result V of_int D W B x scr Hv me Hme).
  apply write_list_notin. intros v Hin.
  apply in_flat_map in Hin. destruct Hin as [q' [Hq' Hin]].
  apply in_flat_map in Hin. destruct Hin as [r' [Hr' Hin]].
  apply range_In in Hq'. apply range_In in Hr'.
  destruct (BX_received V D W B scr Hv me q' r' Hme Hq' Hr') as [i' [Hi' [Ho' [Ri' _]]]].
  destruct (Hout q' i' Hq' Hi' Ho') as [Hh Hd].
  unfold X_writes in Hin. rewrite Ri' in Hin. destruct Hin as [Hin|Hin].
  - injection Hin as Ea _. apply Hh. now symmetry.
  - apply in_map_iff in Hin. destruct Hin as [j' [Hin Hj']]. apply range_In in Hj'.
    injection Hin as Ea _. apply (Hd j' Hj'). now symmetry.
Qed.

(** X3 on that mesh: the second word of the header of block 0 in the
    [x] of process 0 is no header cell and no data cell, and keeps its
    value. *)
Lemma X3_witness : rt_x' 0 1 = rt_x 0 1.
Proof.
  assert (Hv : valid_B_to_X D0 rt_world = true) by (vm_compute; reflexivity).
  assert (Hme : 0 <= 0 < w_procs rt_world)
    by (vm_compute; split; [discriminate|reflexivity]).
  apply (X3_B_to_X_frame Z (fun k => k) D0 rt_world rt_B rt_x rt_scr 0 1 Hv Hme).
  intros q i Hq Hi. cbv zeta. intros _.
  change (w_procs rt_world) with 2 in Hq.
  assert (Hq' : q = 0 \/ q = 1) by lia.
  destruct Hq' as [-> | ->].
  - change (w_m_loc rt_world 0) with 3 in Hi.
    assert (Hi' : i = 0 \/ i = 1 \/ i = 2) by lia.
    destruct Hi' as [-> | [-> | ->]]; (split; [discriminate|]);
      intros j Hj; change (w_nrhs rt_world) with 2 in Hj;
      (assert (Hj' : j = 0 \/ j = 1) by lia); destruct Hj' as [-> | ->]; discriminate.
  - change (w_m_loc rt_world 1) with 1 in Hi.
    assert (i = 0) by lia. subst i. split; [discriminate|].
    intros j Hj; change (w_nrhs rt_world) with 2 in Hj;
      (assert (Hj' : j = 0 \/ j = 1) by lia); destruct Hj' as [-> | ->]; discriminate.
Defined.

(** X4: the two routines in the other order.  After
    [pdReDistribute_X_to_B] and then [pdReDistribute_B_to_X] on the [B]
    it produced, the values that [x] held for row [l] of the matrix are
    found in the place of row [perm_c[perm_r[l]]], on the diagonal process
    of the block of that row. *)
Theorem X4_X_to_B_then_B_to_X (V : Type) (of_int : Z -> V) (D : superlu_defs)
    (W : world) (B xs x0 : Z -> array V) (scr scr' : Z -> pack_state V) (q i j : Z) :
  valid_B_to_X D W = true -> valid_X_to_B D W = true ->
  0 <= q < w_procs W -> 0 <= i < w_m_loc W q -> 0 <= j < w_nrhs W ->
  let g := grid_of W 0 in
  let l := w_fst_row W q + i in
  let irow := perm_c (w_perm W) (perm_r (w_perm W) l) in
  let k := BlockNum (w_Glu W) irow in
  let p := PNUM g (PROW g k) (PCOL g k) in
  let k0 := BlockNum (w_Glu W) l in
  let p0 := PNUM g (PROW g k0) (PCOL g k0) in
  let B' := pdReDistribute_X_to_B V D W B xs scr in
  let x' := pdReDistribute_B_to_X V of_int D W B' x0 scr' in
  x' p (X_BLK D (w_ilsum W p) (w_nrhs W) (LBi (grid_of W p) k)
        + (irow - FstBlockC (w_Glu W) k) + j * SuperSize (w_Glu W) k)
  = xs p0 (X_BLK D (w_ilsum W p0) (w_nrhs W) (LBi (grid_of W p0) k0)
           + (l - FstBlockC (w_Glu W) k0) + j * SuperSize (w_Glu W) k0).
Proof.
  intros HvB HvX Hq Hi Hj. cbv zeta.
  destruct (B_to_X_lands V of_int D W (pdReDistribute_X_to_B V D W B xs scr) x0 scr'
              HvB q i Hq Hi) as [_ Hd].
  etransitivity; [exact (Hd j Hj)|].
  destruct (valid_B_to_X_rows D W HvB q i Hq Hi) as [Hl Hown].
  pose proof (X_to_B_takes V D W B xs scr HvX (w_fst_row W q + i) j Hl Hj) as H.
  rewrite Hown in H.
  replace (w_fst_row W q + i - w_fst_row W q) with i in H by lia.
  exact H.
Qed.

Definition rt_x'' : Z -> array Z :=
  pdReDistribute_B_to_X Z (fun k => k) D0 rt_world rt_B' rt_x rt_scr.

(** X4 on that mesh: the values [x] held for row 0 are found in the
    place of row 1 = perm_c[perm_r[0]]. *)
Lemma X4_witness : rt_x'' 0 3 = rt_x' 0 2.
Proof.
  assert (HvB : valid_B_to_X D0 rt_world = true) by (vm_compute; reflexivity).
  assert (HvX : valid_X_to_B D0 rt_world = true) by (vm_compute; reflexivity).
  assert (Hq : 0 <= 0 < w_procs rt_world)
    by (vm_compute; split; [discriminate|reflexivity]).
  assert (Hi : 0 <= 0 < w_m_loc rt_world 0)
    by (vm_compute; split; [discriminate|reflexivity]).
  assert (Hj : 0 <= 0 < w_nrhs rt_world)
    by (vm_compute; split; [discriminate|reflexivity]).
  exact (X4_X_to_B_then_B_to_X Z (fun k => k) D0 rt_world rt_B rt_x' rt_x rt_scr rt_scr
           0 0 0 HvB HvX Hq Hi Hj).
Defined.

Lemma sumZ_plus l f h :
  sumZ l (fun p => f p + h p) = sumZ l f + sumZ l h.
Proof. unfold sumZ. induction l as [|x l IH]; simpl; lia. Qed.

Lemma sumZ_delta n d :
  0 <= n ->
  sumZ (range n) (fun p => if d =? p then 1 else 0)
  = if (0 <=? d) && (d <? n) then 1 else 0.
Proof.
  intros Hn. pattern n. apply natlike_ind; [| |exact Hn].
  - rewrite range_nonpos by lia. rewrite sumZ_nil.
    destruct (Z.leb_spec 0 d), (Z.ltb_spec d 0); simpl; try reflexivity; lia.
  - intros y Hy IH. unfold Z.succ. rewrite range_succ by lia.
    rewrite sumZ_app, sumZ_single, IH.
    destruct (Z.leb_spec 0 d), (Z.ltb_spec d y), (Z.ltb_spec d (y + 1)),
      (Z.eqb_spec d y); simpl; try reflexivity; lia.
Qed.

(** The rows of a list, counted by destination, add up to the list. *)
Lemma sum_cnt_dest procs its :
  0 <= procs ->
  (forall it, In it its -> 0 <= it_dest it < procs) ->
  sumZ (range procs) (fun p => cnt_dest p its) = Z.of_nat (length its).
Proof.
  intros Hp. induction its as [|it its IH]; intros Hd.
  - rewrite (sumZ_ext _ _ (fun _ => 0)) by reflexivity.
    cbn [length]. clear. induction (range procs) as [|x l IH]; [reflexivity|].
    unfold sumZ in *. cbn [fold_right]. lia.
  - rewrite (sumZ_ext _ _ (fun p => (if it_dest it =? p then 1 else 0) + cnt_dest p its)).
    + rewrite sumZ_plus, sumZ_delta by exact Hp.
      rewrite IH by (intros i Hi; apply Hd; now right).
      destruct (Hd it ltac:(now left)) as [H1 H2].
      destruct (Z.leb_spec 0 (it_dest it)); [|lia].
      destruct (Z.ltb_spec (it_dest it) procs); [|lia].
      cbn [andb length]. lia.
    + intros p _. change (it :: its) with ([it] ++ its).
      rewrite cnt_dest_app, cnt_dest_single. reflexivity.
Qed.

(** X5: when the pack loop of [pdReDistribute_B_to_X] is over, the part
    of the send buffers kept for each process is filled to the brim:
    [ptr_to_ibuf[p]] stands at [sdispls[p] + SendCnt[p]] and
    [ptr_to_dbuf[p]] at [nrhs] times that.  The "total number of sends"
    [sdispls[procs-1] + SendCnt[procs-1]], the place where [recv_ibuf]
    starts, is the number of local rows. *)
Theorem X5_B_to_X_pack_fills (V : Type) (D : superlu_defs) (W : world)
    (B : Z -> array V) (scr : Z -> pack_state V) (q : Z) :
  valid_B_to_X D W = true ->
  0 <= q < w_procs W ->
  let procs := w_procs W in
  let SendCnt := w_B_to_X_SendCnt W q in
  let sdispls := slice (w_B_to_X_SendCnt W q) (4 * procs) in
  let sent := B_to_X_pack V (grid_of W q) (w_Glu W) (w_perm W) (solve_of W q) (B q)
                (w_m_loc W q) (w_nrhs W) (w_ldb W q) (w_fst_row W q) (scr q) in
  (forall p, 0 <= p < procs ->
     ptr_to_ibuf V sent p = sdispls p + SendCnt p
     /\ ptr_to_dbuf V sent p = (sdispls p + SendCnt p) * w_nrhs W)
  /\ sdispls (procs - 1) + SendCnt (procs - 1) = Z.max 0 (w_m_loc W q).
Proof.
  intros Hv Hq. cbv zeta.
  destruct (valid_B_to_X_grid D W Hv) as [_ [_ Hn]].
  pose proof (valid_B_to_X_procs D W Hv) as Hprocs.
  pose proof (valid_B_to_X_tables D W Hv) as Htbl.
  set (tbl := w_B_to_X_SendCnt W q).
  assert (Hsc : forall p, 0 <= p < w_procs W -> tbl p = cnt_dest p (B_to_X_rows W q)).
  { intros p Hp. now destruct (tables_ok_spec _ _ _ _ Htbl q p Hq Hp) as [E1 _]. }
  assert (Hsd : forall p, 0 <= p < w_procs W ->
                  slice tbl (4 * w_procs W) p = psum tbl p).
  { intros p Hp.
    now destruct (tables_ok_spec _ _ _ _ Htbl q p Hq Hp) as [_ [_ [_ [E1 _]]]]. }
  split.
  - destruct (BX_packed_ok V W B scr q Hq) as [st0 [E Hinit]].
    change (B_to_X_pack V (grid_of W q) (w_Glu W) (w_perm W) (solve_of W q) (B q)
              (w_m_loc W q) (w_nrhs W) (w_ldb W q) (w_fst_row W q) (scr q))
      with (BX_packed V W B scr q).
    rewrite E.
    destruct (pack_all_spec V (w_nrhs W) (B q) (w_procs W) (slice tbl (4 * w_procs W)) tbl
                (B_to_X_rows W q) st0) as [Hptr _].
    + exact Hn.
    + intros it Hit. now apply (B_to_X_rows_dest D W Hv q).
    + intros p Hp. rewrite Hsc by exact Hp. lia.
    + intros p p' Hp Hp'. rewrite !Hsd by lia.
      apply (psum_disjoint tbl (w_procs W)); try lia.
      intros i Hi. rewrite Hsc by exact Hi. apply cnt_dest_nonneg.
    + exact Hinit.
    + intros p Hp. rewrite (Hsc p Hp). now apply Hptr.
  - rewrite Hsd by lia. rewrite <- psum_succ by lia.
    replace (w_procs W - 1 + 1) with (w_procs W) by lia.
    unfold psum.
    rewrite (sumZ_ext _ _ (fun p => cnt_dest p (B_to_X_rows W q)))
      by (intros p Hp; apply Hsc; now apply range_In).
    rewrite sum_cnt_dest; [|lia|intros it Hit; now apply (B_to_X_rows_dest D W Hv q)].
    unfold B_to_X_rows. rewrite length_map, range_length. lia.
Qed.

(** X5 on that mesh: process 0 packs two rows for process 1, from
    place 1 of the send buffer on. *)
Lemma X5_witness :
  ptr_to_ibuf Z
    (B_to_X_pack Z (grid_of rt_world 0) (w_Glu rt_world) (w_perm rt_world)
       (solve_of rt_world 0) (rt_B 0) 3 2 4 0 (rt_scr 0)) 1
  = 1 + 2.
Proof.
  assert (Hv : valid_B_to_X D0 rt_world = true) by (vm_compute; reflexivity).
  assert (Hq : 0 <= 0 < w_procs rt_world)
    by (vm_compute; split; [discriminate|reflexivity]).
  pose proof (X5_B_to_X_pack_fills Z D0 rt_world rt_B rt_scr 0 Hv Hq) as H.
  cbv zeta in H. destruct H as [H _].
  destruct (H 1 ltac:(vm_compute; split; [discriminate|reflexivity])) as [H1 _].
  exact H1.
Defined.

(* ================================================================== *)
(** * More on pdCompute_Diag_Inv *)
(* ================================================================== *)

Lemma for_range_upd {A} lo hi (f : Z -> Z) (h : Z -> A) (a : array A) :
  for_range lo hi (fun i a => upd a (f i) (h i)) a
  = write_list (map (fun t => (f (lo + t), h (lo + t))) (range (hi - lo))) a.
Proof.
  unfold for_range.
  exact (for_loop_upd (hi - lo) (fun t => f (lo + t)) (fun t => h (lo + t)) a).
Qed.

Section DiagSplit.

Variable V : Type.
Variable one : V.
Variables knsupc nsupr : Z.
Variable lusup : array V.

(** The writes of one turn of the loop over [j] (lines 634-645), into
    [Linv] and into [Uinv]. *)
Definition Linv_writes (j : Z) : list (Z * V) :=
  (j * knsupc + j, one)
  :: map (fun t => (j * knsupc + (j + 1 + t), lusup (j * nsupr + (j + 1 + t))))
         (range (knsupc - (j + 1))).

Definition Uinv_writes (j : Z) : list (Z * V) :=
  map (fun t => (j * knsupc + (0 + t), lusup (j * nsupr + (0 + t))))
      (range (j + 1 - 0)).

Lemma split_diag_block_writes (LU : array V * array V) :
  split_diag_block V one knsupc nsupr lusup LU
  = (write_list (flat_map Linv_writes (range knsupc)) (fst LU),
     write_list (flat_map Uinv_writes (range knsupc)) (snd LU)).
Proof.
  unfold split_diag_block.
  destruct (Z.le_gt_cases knsupc 0) as [Hn|Hn].
  - rewrite for_loop_nonpos by lia. rewrite (range_nonpos knsupc) by lia.
    destruct LU; reflexivity.
  - rewrite (for_loop_closed knsupc _ _
      (fun k => (write_list (flat_map Linv_writes (range k)) (fst LU),
                 write_list (flat_map Uinv_writes (range k)) (snd LU)))).
    + reflexivity.
    + lia.
    + destruct LU; reflexivity.
    + intros j Hj. cbn [fst snd]. rewrite !for_range_upd.
      rewrite range_succ by lia. rewrite !flat_map_app, !write_list_app.
      cbn [flat_map]. rewrite !app_nil_r. reflexivity.
Qed.

Lemma Linv_writes_In j a v :
  0 <= j < knsupc -> In (a, v) (Linv_writes j) ->
  exists i, j <= i < knsupc /\ a = j * knsupc + i
            /\ v = (if i =? j then one else lusup (j * nsupr + i)).
Proof.
  intros Hj [Hin|Hin].
  - injection Hin as <- <-. exists j. rewrite Z.eqb_refl.
    split; [lia|]. split; reflexivity.
  - apply in_map_iff in Hin. destruct Hin as [t [Hin Ht]]. apply range_In in Ht.
    injection Hin as <- <-. exists (j + 1 + t).
    split; [lia|]. split; [reflexivity|].
    destruct (Z.eqb_spec (j + 1 + t) j); [lia|reflexivity].
Qed.

Lemma Uinv_writes_In j a v :
  In (a, v) (Uinv_writes j) ->
  exists i, 0 <= i <= j /\ a = j * knsupc + i /\ v = lusup (j * nsupr + i).
Proof.
  intros Hin. apply in_map_iff in Hin. destruct Hin as [t [Hin Ht]].
  apply range_In in Ht. injection Hin as <- <-. exists (0 + t).
  split; [lia|]. split; reflexivity.
Qed.

(** X6: what lines 634-645 of [pdCompute_Diag_Inv] hand to the two
    calls of [dtrtri_].  In the [knsupc] x [knsupc] block, stored by
    columns, [Linv] gets ones on the diagonal and the entries of [lusup]
    below it, [Uinv] gets the entries of [lusup] on and above the
    diagonal; the part of [Linv] above the diagonal and the part of
    [Uinv] below it are not written (they keep what the arrays held), and
    nothing is written outside the block. *)
Theorem X6_split_diag_block (LU : array V * array V) (j i : Z) :
  0 <= j < knsupc -> 0 <= i < knsupc ->
  fst (split_diag_block V one knsupc nsupr lusup LU) (j * knsupc + i)
  = (if i =? j then one
     else if j <? i then lusup (j * nsupr + i) else fst LU (j * knsupc + i))
  /\ snd (split_diag_block V one knsupc nsupr lusup LU) (j * knsupc + i)
     = (if i <=? j then lusup (j * nsupr + i) else snd LU (j * knsupc + i))
  /\ (forall a, a < 0 \/ knsupc * knsupc <= a ->
        fst (split_diag_block V one knsupc nsupr lusup LU) a = fst LU a
        /\ snd (split_diag_block V one knsupc nsupr lusup LU) a = snd LU a).
Proof.
  intros Hj Hi. rewrite split_diag_block_writes. cbn [fst snd].
  assert (HL : forall a v, In (a, v) (flat_map Linv_writes (range knsupc)) ->
             exists j' i', 0 <= j' < knsupc /\ j' <= i' < knsupc
               /\ a = j' * knsupc + i'
               /\ v = (if i' =? j' then one else lusup (j' * nsupr + i'))).
  { intros a v Hin. apply in_flat_map in Hin. destruct Hin as [j' [Hj' Hin]].
    apply range_In in Hj'. destruct (Linv_writes_In j' a v Hj' Hin) as [i' H].
    exists j', i'. tauto. }
  assert (HU : forall a v, In (a, v) (flat_map Uinv_writes (range knsupc)) ->
             exists j' i', 0 <= j' < knsupc /\ 0 <= i' <= j'
               /\ a = j' * knsupc + i' /\ v = lusup (j' * nsupr + i')).
  { intros a v Hin. apply in_flat_map in Hin. destruct Hin as [j' [Hj' Hin]].
    apply range_In in Hj'. destruct (Uinv_writes_In j' a v Hin) as [i' H].
    exists j', i'. tauto. }
  split; [|split].
  - destruct (Z.eqb_spec i j) as [Eij|Nij]; [|destruct (Z.ltb_spec j i) as [Lt|Ge]].
    + subst i. apply write_list_consistent.
      * apply in_flat_map. exists j. split; [now apply range_In|]. now left.
      * intros v' Hv'. destruct (HL _ _ Hv') as [j' [i' [Hj' [Hi' [Ea Ev]]]]].
        destruct (scaled_inj j j' knsupc j i' ltac:(lia) ltac:(lia) Ea) as [<- <-].
        now rewrite Z.eqb_refl in Ev.
    + apply write_list_consistent.
      * apply in_flat_map. exists j. split; [now apply range_In|]. right.
        apply in_map_iff. exists (i - (j + 1)). split; [|apply range_In; lia].
        f_equal; f_equal; lia.
      * intros v' Hv'. destruct (HL _ _ Hv') as [j' [i' [Hj' [Hi' [Ea Ev]]]]].
        destruct (scaled_inj j j' knsupc i i' ltac:(lia) ltac:(lia) Ea) as [<- <-].
        destruct (Z.eqb_spec i j); [lia|exact Ev].
    + apply write_list_notin. intros v Hv.
      destruct (HL _ _ Hv) as [j' [i' [Hj' [Hi' [Ea Ev]]]]].
      destruct (scaled_inj j j' knsupc i i' ltac:(lia) ltac:(lia) Ea) as [<- <-]. lia.
  - destruct (Z.leb_spec i j) as [Le|Gt].
    + apply write_list_consistent.
      * apply in_flat_map. exists j. split; [now apply range_In|].
        apply in_map_iff. exists i. split; [|apply range_In; lia]. reflexivity.
      * intros v' Hv'. destruct (HU _ _ Hv') as [j' [i' [Hj' [Hi' [Ea Ev]]]]].
        destruct (scaled_inj j j' knsupc i i' ltac:(lia) ltac:(lia) Ea) as [<- <-].
        exact Ev.
    + apply write_list_notin. intros v Hv.
      destruct (HU _ _ Hv) as [j' [i' [Hj' [Hi' [Ea Ev]]]]].
      destruct (scaled_inj j j' knsupc i i' ltac:(lia) ltac:(lia) Ea) as [<- <-]. lia.
  - intros a Ha. split; apply write_list_notin; intros v Hv.
    + destruct (HL _ _ Hv) as [j' [i' [Hj' [Hi' [Ea Ev]]]]]. nia.
    + destruct (HU _ _ Hv) as [j' [i' [Hj' [Hi' [Ea Ev]]]]]. nia.
Qed.

End DiagSplit.

(** X6 on a 2 x 2 block held with leading dimension 3: the cell above
    the diagonal of [Linv] keeps the 7 it held, and the same cell of
    [Uinv] takes [lusup[3]]. *)
Lemma X6_witness :
  fst (split_diag_block Z 1 2 3 (tab 0 [10; 11; 12; 13; 14; 15])
         (fun _ => 7, fun _ => 7)) 2 = 7
  /\ snd (split_diag_block Z 1 2 3 (tab 0 [10; 11; 12; 13; 14; 15])
            (fun _ => 7, fun _ => 7)) 2 = 13.
Proof.
  destruct (X6_split_diag_block Z 1 2 3 (tab 0 [10; 11; 12; 13; 14; 15])
              (fun _ => 7, fun _ => 7) 1 0 ltac:(lia) ltac:(lia)) as [H1 [H2 _]].
  split; [exact H1|exact H2].
Defined.

Section DiagFrame.

Variable V : Type.
Variable one : V.
Variable dtrtri_ : string -> string -> Z -> array V -> Z -> array V * Z.

(** Block [k] has its diagonal on this process. *)
Definition diag_on (g : gridinfo_t) (k : Z) : bool :=
  (MYROW g (iam g) =? PROW g k) && (MYCOL g (iam g) =? PCOL g k).

Lemma diag_inv_block_frame g G F k st q :
  (diag_on g k = true -> LBj g k <> q) ->
  Linv_bc_ptr (diag_inv_block V one dtrtri_ g G F k st) q = Linv_bc_ptr st q
  /\ Uinv_bc_ptr (diag_inv_block V one dtrtri_ g G F k st) q = Uinv_bc_ptr st q.
Proof.
  intros H. unfold diag_inv_block. unfold diag_on in H.
  destruct (MYROW g (iam g) =? PROW g k); [|split; reflexivity].
  destruct (MYCOL g (iam g) =? PCOL g k); [|split; reflexivity].
  specialize (H eq_refl).
  destruct (split_diag_block _ _ _ _ _ _) as [L U].
  destruct (dtrtri_ "L" "U" _ L _) as [L' i1].
  destruct (dtrtri_ "U" "N" _ U _) as [U' i2]. cbn [Linv_bc_ptr Uinv_bc_ptr].
  destruct (Z.eqb_spec q (LBj g k)); [congruence|split; reflexivity].
Qed.

Lemma diag_inv_block_inv g G F k st :
  Llu_inv (diag_inv_block V one dtrtri_ g G F k st) = Llu_inv st.
Proof.
  unfold diag_inv_block.
  destruct (_ =? _); [|reflexivity].
  destruct (_ =? _); [|reflexivity].
  destruct (split_diag_block _ _ _ _ _ _) as [L U].
  destruct (dtrtri_ "L" "U" _ L _) as [L' i1].
  destruct (dtrtri_ "U" "N" _ U _) as [U' i2]. reflexivity.
Qed.

(** X7: [pdCompute_Diag_Inv] sets [Llu->inv] to 1 whatever the input,
    and of [Llu->Linv_bc_ptr] and [Llu->Uinv_bc_ptr] it touches only the
    local block columns of the supernodes whose diagonal block is on
    this process: a block column [q] that is the [LBj] of no such
    supernode is left as it was. *)
Theorem X7_diag_inv_frame (n : Z) (g : gridinfo_t) (G : Glu_persist_t)
    (F : diag_factor V) (st : diag_state V) (q : Z) :
  (forall k, 0 <= k < nsupers_of G n -> diag_on g k = true -> LBj g k <> q) ->
  Llu_inv (pdCompute_Diag_Inv one dtrtri_ n g G F st) = 1
  /\ Linv_bc_ptr (pdCompute_Diag_Inv one dtrtri_ n g G F st) q = Linv_bc_ptr st q
  /\ Uinv_bc_ptr (pdCompute_Diag_Inv one dtrtri_ n g G F st) q = Uinv_bc_ptr st q.
Proof.
  intros Hq. unfold pdCompute_Diag_Inv.
  set (st0 := {| Llu_inv := 1; Linv_bc_ptr := Linv_bc_ptr st;
                 Uinv_bc_ptr := Uinv_bc_ptr st; INFO := INFO st;
                 info_cell := info_cell st |}).
  split.
  - unfold for_loop. generalize (range (nsupers_of G n)). intros l.
    assert (H : forall s, Llu_inv
              (fold_left (fun s i => diag_inv_block V one dtrtri_ g G F i s) l s)
              = Llu_inv s).
    { induction l as [|k l IH]; intros s; [reflexivity|]. cbn [fold_left].
      rewrite IH. apply diag_inv_block_inv. }
    rewrite H. reflexivity.
  - destruct (Z.le_gt_cases (nsupers_of G n) 0) as [Hn|Hn].
    + rewrite for_loop_nonpos by lia. split; reflexivity.
    + apply (for_loop_inv (fun (i : Z) (s : diag_state V) =>
               Linv_bc_ptr s q = Linv_bc_ptr st q /\ Uinv_bc_ptr s q = Uinv_bc_ptr st q));
        [lia|split; reflexivity|].
      intros k s Hk [A B].
      destruct (diag_inv_block_frame g G F k s q (Hq k Hk)) as [A' B'].
      split; congruence.
Qed.

End DiagFrame.

(** X7 on the 1 x 1 mesh with one supernode: the flag is set and block
    column 1, which holds no diagonal block, keeps its contents. *)
Lemma X7_witness :
  Llu_inv (pdCompute_Diag_Inv 1 (dtrtri_info_path (fun _ _ _ A _ => A)) 1
             singular_grid singular_Glu singular_factor singular_start) = 1
  /\ Linv_bc_ptr (pdCompute_Diag_Inv 1 (dtrtri_info_path (fun _ _ _ A _ => A)) 1
                    singular_grid singular_Glu singular_factor singular_start) 1
     = Linv_bc_ptr singular_start 1
  /\ Uinv_bc_ptr (pdCompute_Diag_Inv 1 (dtrtri_info_path (fun _ _ _ A _ => A)) 1
                    singular_grid singular_Glu singular_factor singular_start) 1
     = Uinv_bc_ptr singular_start 1.
Proof.
  apply (X7_diag_inv_frame Z 1 (dtrtri_info_path (fun _ _ _ A _ => A)) 1
           singular_grid singular_Glu singular_factor singular_start 1).
  intros k Hk _. change (0 <= k < 1) in Hk. assert (E : k = 0) by lia.
  subst k. vm_compute. discriminate.
Defined.

(* ================================================================== *)
(** * More on the two service loops of pdgstrs *)
(* ================================================================== *)

Section ForwardAccounting.

Variable D : superlu_defs.
Variable g : gridinfo_t.
Variable G : Glu_persist_t.
Variable Llu : LocalLU_t.
Variables nsupers nrhs maxrecvsz fmod frecv : Z.
Variable dlsum_fmod_inv :
  bufsrc -> Z -> Z -> Z -> Z -> Z -> Z -> pdgstrs_state -> pdgstrs_state.

Local Abbreviation loopF :=
  (lsolve_loop D g G Llu nsupers nrhs maxrecvsz fmod frecv dlsum_fmod_inv).
Local Abbreviation recvF :=
  (lsolve_recv D g G Llu nsupers nrhs maxrecvsz fmod frecv dlsum_fmod_inv).

Lemma lsum_not_x m : is_lsum_msg nsupers m = true -> is_x_msg nsupers m = false.
Proof.
  intros H. destruct (is_x_msg nsupers m) eqn:E; [|reflexivity].
  rewrite (x_lsum_exclusive nsupers m E) in H. discriminate.
Qed.

Lemma lsolve_recv_counts m s :
  nfrecvx (recvF m s) = nfrecvx s - count_x nsupers [m]
  /\ nfrecvmod (recvF m s) = nfrecvmod s - count_lsum nsupers [m].
Proof.
  destruct (lsolve_recv_counters D g G Llu nsupers nrhs maxrecvsz fmod frecv
              dlsum_fmod_inv m s) as [Hx Hl].
  rewrite Hx, Hl. unfold count_x, count_lsum. cbn [filter].
  destruct (is_lsum_msg nsupers m) eqn:El.
  - rewrite (lsum_not_x m El). cbn. split; lia.
  - destruct (is_x_msg nsupers m); cbn; split; lia.
Qed.

(** X8: the forward service loop on any stream of messages, announced
    or not.  The loop takes a prefix [used] of the stream and leaves the
    rest; [nfrecvx] has gone down by the number of messages of [used]
    whose tag is below [nsupers], [nfrecvmod] by the number whose tag is
    in [nsupers, 2 nsupers), and a message with any other tag is taken
    without a change to either counter.  The loop ends only with both
    counters at zero; otherwise it has taken every message and waits in
    [MPI_Recv] with a counter that is not zero. *)
Theorem X8_forward_loop_accounts (msgs : list message) (s : lsolve_state) :
  let r := loopF msgs s in
  exists used,
    msgs = used ++ snd r
    /\ nfrecvx (snd (fst r)) = nfrecvx s - count_x nsupers used
    /\ nfrecvmod (snd (fst r)) = nfrecvmod s - count_lsum nsupers used
    /\ match fst (fst r) with
       | Finished => nfrecvx (snd (fst r)) = 0 /\ nfrecvmod (snd (fst r)) = 0
       | Blocked => snd r = []
                    /\ (nfrecvx (snd (fst r)) <> 0 \/ nfrecvmod (snd (fst r)) <> 0)
       end.
Proof.
  cbv zeta. revert s.
  induction msgs as [|m ms IH]; intros s.
  - cbn [lsolve_loop]. destruct (lsolve_pending s) eqn:Hp; cbn [fst snd].
    + exists []. split; [reflexivity|]. split; [cbn; lia|]. split; [cbn; lia|].
      split; [reflexivity|]. now apply lsolve_pending_true.
    + exists []. split; [reflexivity|]. split; [cbn; lia|]. split; [cbn; lia|].
      unfold lsolve_pending in Hp. apply orb_false_elim in Hp. destruct Hp as [A B].
      apply negb_false_iff in A, B. apply Z.eqb_eq in A, B. now split.
  - cbn [lsolve_loop]. destruct (lsolve_pending s) eqn:Hp; cbn [fst snd].
    + destruct (IH (recvF m s)) as [used [Hu [Hx [Hl Hst]]]].
      exists (m :: used). split; [cbn [app]; now f_equal|].
      destruct (lsolve_recv_counts m s) as [Cx Cl].
      rewrite count_x_cons, count_lsum_cons.
      unfold count_x, count_lsum in Cx, Cl. cbn [filter] in Cx, Cl.
      split; [rewrite Hx, Cx; destruct (is_x_msg nsupers m); cbn [length]; lia|].
      split; [rewrite Hl, Cl; destruct (is_lsum_msg nsupers m); cbn [length]; lia|].
      exact Hst.
    + exists []. split; [reflexivity|]. split; [cbn; lia|]. split; [cbn; lia|].
      unfold lsolve_pending in Hp. apply orb_false_elim in Hp. destruct Hp as [A B].
      apply negb_false_iff in A, B. apply Z.eqb_eq in A, B. now split.
Qed.

Lemma lsolve_loop_negative msgs : forall s,
  nfrecvx s < 0 \/ nfrecvmod s < 0 ->
  exists s', loopF msgs s = (Blocked, s', []).
Proof.
  induction msgs as [|m ms IH]; intros s Hneg.
  - cbn [lsolve_loop].
    assert (Hp : lsolve_pending s = true) by (apply lsolve_pending_true; lia).
    rewrite Hp. now exists s.
  - cbn [lsolve_loop].
    assert (Hp : lsolve_pending s = true) by (apply lsolve_pending_true; lia).
    rewrite Hp. apply IH.
    destruct (lsolve_recv_counts m s) as [Cx Cl].
    pose proof (count_x_nonneg nsupers [m]).
    pose proof (count_lsum_nonneg nsupers [m]). lia.
Qed.


End ForwardAccounting.


Section BackwardAccounting.

Variable D : superlu_defs.
Variable g : gridinfo_t.
Variable Llu : LocalLU_t.
Variables nsupers nrhs bmod brecv Urbs : Z.
Variable dlsum_bmod_inv : bufsrc -> Z -> Z -> Z -> pdgstrs_state -> pdgstrs_state.

Local Abbreviation loopB := (usolve_loop D g Llu nrhs bmod brecv Urbs dlsum_bmod_inv).
Local Abbreviation recvB := (usolve_recv D g Llu nrhs bmod brecv Urbs dlsum_bmod_inv).

(** The two cases of the [switch] on the tag, in its order. *)
Definition is_Xk_msg (m : message) : bool := MPI_TAG m =? Xk D.
Definition is_LSUM_msg (m : message) : bool :=
  negb (MPI_TAG m =? Xk D) && (MPI_TAG m =? LSUM D).

Definition count_Xk (msgs : list message) : Z :=
  Z.of_nat (length (filter is_Xk_msg msgs)).
Definition count_LSUM (msgs : list message) : Z :=
  Z.of_nat (length (filter is_LSUM_msg msgs)).

Lemma usolve_recv_counts m s :
  nbrecvx (recvB m s) = nbrecvx s - (if is_Xk_msg m then 1 else 0)
  /\ nbrecvmod (recvB m s) = nbrecvmod s - (if is_LSUM_msg m then 1 else 0)
  /\ nroot (recvB m s) = nroot s.
Proof.
  unfold usolve_recv, is_Xk_msg, is_LSUM_msg.
  destruct (MPI_TAG m =? Xk D); cbn [negb andb nbrecvx nbrecvmod nroot];
    [repeat split; lia|].
  destruct (MPI_TAG m =? LSUM D); cbn [nbrecvx nbrecvmod nroot]; repeat split; lia.
Qed.

Lemma usolve_pending_false s :
  usolve_pending s = false -> nbrecvx s = 0 /\ nbrecvmod s = 0.
Proof.
  unfold usolve_pending. intros Hp. apply orb_false_elim in Hp. destruct Hp as [A B].
  apply negb_false_iff in A, B. apply Z.eqb_eq in A, B. now split.
Qed.

Lemma usolve_pending_true s :
  usolve_pending s = true -> nbrecvx s <> 0 \/ nbrecvmod s <> 0.
Proof.
  unfold usolve_pending. intros Hp. apply orb_true_iff in Hp.
  destruct Hp as [A|A]; apply negb_true_iff in A; apply Z.eqb_neq in A; tauto.
Qed.

(** X10: the backward service loop on any stream of messages.  It takes
    a prefix [used] of the stream; [nbrecvx] has gone down by the number
    of messages of [used] with the tag [Xk], [nbrecvmod] by the number
    with the tag [LSUM], [nroot] is not touched, and a message with any
    other tag is taken and dropped (the [switch] has no [default] outside
    the debug build).  The loop ends only with both counters at zero;
    otherwise it has taken every message and waits in [MPI_Recv]. *)
Theorem X10_backward_loop_accounts (msgs : list message) (s : usolve_state) :
  let r := loopB msgs s in
  exists used,
    msgs = used ++ snd r
    /\ nbrecvx (snd (fst r)) = nbrecvx s - count_Xk used
    /\ nbrecvmod (snd (fst r)) = nbrecvmod s - count_LSUM used
    /\ nroot (snd (fst r)) = nroot s
    /\ match fst (fst r) with
       | Finished => nbrecvx (snd (fst r)) = 0 /\ nbrecvmod (snd (fst r)) = 0
       | Blocked => snd r = []
                    /\ (nbrecvx (snd (fst r)) <> 0 \/ nbrecvmod (snd (fst r)) <> 0)
       end.
Proof.
  cbv zeta. revert s.
  induction msgs as [|m ms IH]; intros s.
  - cbn [usolve_loop]. destruct (usolve_pending s) eqn:Hp; cbn [fst snd].
    + exists []. split; [reflexivity|]. split; [cbn; lia|]. split; [cbn; lia|].
      split; [reflexivity|]. split; [reflexivity|]. now apply usolve_pending_true.
    + exists []. split; [reflexivity|]. split; [cbn; lia|]. split; [cbn; lia|].
      split; [reflexivity|]. now apply usolve_pending_false.
  - cbn [usolve_loop]. destruct (usolve_pending s) eqn:Hp; cbn [fst snd].
    + destruct (IH (recvB m s)) as [used [Hu [Hx [Hl [Hr Hst]]]]].
      exists (m :: used). split; [cbn [app]; now f_equal|].
      destruct (usolve_recv_counts m s) as [Cx [Cl Cr]].
      unfold count_Xk, count_LSUM in *. cbn [filter].
      split; [rewrite Hx, Cx; destruct (is_Xk_msg m); cbn [length]; lia|].
      split; [rewrite Hl, Cl; destruct (is_LSUM_msg m); cbn [length]; lia|].
      split; [congruence|exact Hst].
    + exists []. split; [reflexivity|]. split; [cbn; lia|]. split; [cbn; lia|].
      split; [reflexivity|]. now apply usolve_pending_false.
Qed.

Local Abbreviation rootsB :=
  (usolve_roots D g Llu nsupers nrhs bmod brecv Urbs dlsum_bmod_inv).


End BackwardAccounting.


(* ================================================================== *)
(** * More on the set-up of the two sweeps *)
(* ================================================================== *)

Lemma filter_range_succ (c : Z -> bool) n :
  0 <= n -> filter c (range (n + 1)) = filter c (range n) ++ (if c n then [n] else []).
Proof.
  intros H. rewrite range_succ, filter_app by lia. cbn [filter].
  destruct (c n); reflexivity.
Qed.

Lemma countZ_nonneg l c : 0 <= countZ l c.
Proof. unfold countZ. lia. Qed.

Section Leaves.

Variable g : gridinfo_t.
Variable Llu : LocalLU_t.
Variables nsupers fmod frecv LRTree_active leafsups : Z.
Variable p0 : pdgstrs_state.

(** The global number of the block whose local row number is [lk]. *)
Definition leaf_gb (lk : Z) : Z := MYROW g (iam g) + lk * nprow g.

(** Local block row [lk] is a leaf: it has no reduction tree, its
    diagonal block exists and is on this process, and [fmod[lk]] is 0. *)
Definition is_leaf (lk : Z) : bool :=
  negb (not_null (LRtree_ptr Llu lk))
  && (leaf_gb lk <? nsupers)
  && (MYCOL g (iam g) =? PCOL g (leaf_gb lk))
  && (ps_load p0 fmod lk =? 0).

Definition tree_count (lk : Z) : Z :=
  if not_null (LRtree_ptr Llu lk) then RdTree_GetDestCount (LRtree_ptr Llu lk) else 0.

(** X12: what the loop of lines 1112-1139 computes.  [nfrecvmod], the
    number of LSUM messages the forward loop will wait for, is the sum of
    the destination counts of the reduction trees of the process, and
    [frecv[lk]] holds the count of tree [lk]; [nleaf] is the number of
    leaves, and [leafsups[0 .. nleaf)] lists their global block numbers
    in increasing order of the local number; [fmod] is only read. *)
Theorem X12_collect_leaves :
  frecv <> fmod -> LRTree_active <> fmod -> leafsups <> fmod ->
  leafsups <> frecv -> LRTree_active <> frecv -> LRTree_active <> leafsups ->
  let nsupers_i := CEILING nsupers (nprow g) in
  let r := collect_leaves g Llu nsupers fmod frecv LRTree_active leafsups p0 in
  fst (fst r) = sumZ (range nsupers_i) tree_count
  /\ snd (fst r) = countZ (range nsupers_i) is_leaf
  /\ map (ps_load (snd r) leafsups) (range (snd (fst r)))
     = map leaf_gb (filter is_leaf (range nsupers_i))
  /\ (forall lk, ps_load (snd r) fmod lk = ps_load p0 fmod lk)
  /\ (forall lk, 0 <= lk < nsupers_i -> LRtree_ptr Llu lk <> None ->
        ps_load (snd r) frecv lk = RdTree_GetDestCount (LRtree_ptr Llu lk)).
Proof.
  intros N1 N2 N3 N4 N5 N6. cbv zeta. unfold collect_leaves.
  set (nsi := CEILING nsupers (nprow g)).
  destruct (Z.le_gt_cases nsi 0) as [Hn|Hn].
  { rewrite for_loop_nonpos by lia. rewrite (range_nonpos nsi) by lia. cbn.
    repeat split; try reflexivity. intros lk Hlk. lia. }
  apply (for_loop_inv (fun (i : Z) (st : Z * Z * pdgstrs_state) =>
     fst (fst st) = sumZ (range i) tree_count
     /\ snd (fst st) = countZ (range i) is_leaf
     /\ map (ps_load (snd st) leafsups) (range (snd (fst st)))
        = map leaf_gb (filter is_leaf (range i))
     /\ (forall lk, ps_load (snd st) fmod lk = ps_load p0 fmod lk)
     /\ (forall lk, 0 <= lk < i -> LRtree_ptr Llu lk <> None ->
           ps_load (snd st) frecv lk = RdTree_GetDestCount (LRtree_ptr Llu lk))));
    [lia| |].
  { cbn. repeat split; try reflexivity. intros lk Hlk. lia. }
  intros i [[nfm nl] p] Hi [A [B [C [E F]]]]. cbn [fst snd] in A, B, C, E, F.
  rewrite (filter_range_succ is_leaf i), map_app by lia.
  rewrite (range_succ i), sumZ_app, countZ_app, sumZ_single, countZ_single by lia.
  unfold tree_count at 2. unfold is_leaf at 2 4. fold (leaf_gb i).
  destruct (not_null (LRtree_ptr Llu i)) eqn:Ht; cbn [negb andb fst snd].
  - rewrite ps_load_store, !Z.eqb_refl. cbn [andb].
    split; [lia|]. split; [lia|]. cbn [map]. rewrite app_nil_r.
    split; [rewrite <- C; apply map_ext; intros jj; rewrite ps_load_store;
            destruct (Z.eqb_spec leafsups frecv); [contradiction|reflexivity]|].
    split.
    + intros lk. rewrite ps_load_store.
      destruct (Z.eqb_spec fmod frecv); [congruence|apply E].
    + intros lk Hlk Hnn. rewrite ps_load_store, Z.eqb_refl. cbn [andb].
      destruct (Z.eqb_spec lk i) as [->|Hne]; [reflexivity|]. apply F; [lia|exact Hnn].
  - destruct (leaf_gb i <? nsupers); cbn [andb fst snd];
      [|cbn [map]; rewrite app_nil_r; repeat split; try lia; try assumption;
        intros lk Hlk Hnn; destruct (Z.eq_dec lk i) as [->|Hne];
        [unfold not_null in Ht; destruct (LRtree_ptr Llu i); congruence
        |apply F; [lia|exact Hnn]]].
    destruct (MYCOL g (iam g) =? PCOL g (leaf_gb i)); cbn [andb fst snd];
      [|cbn [map]; rewrite app_nil_r; repeat split; try lia; try assumption;
        intros lk Hlk Hnn; destruct (Z.eq_dec lk i) as [->|Hne];
        [unfold not_null in Ht; destruct (LRtree_ptr Llu i); congruence
        |apply F; [lia|exact Hnn]]].
    assert (Ef : ps_load (ps_store p LRTree_active i 2) fmod i = ps_load p0 fmod i).
    { rewrite ps_load_store. destruct (Z.eqb_spec fmod LRTree_active); [congruence|apply E]. }
    rewrite Ef.
    assert (Fr : forall lk, 0 <= lk < i + 1 -> LRtree_ptr Llu lk <> None ->
               ps_load p frecv lk = RdTree_GetDestCount (LRtree_ptr Llu lk)).
    { intros lk Hlk Hnn. destruct (Z.eq_dec lk i) as [->|Hne];
        [unfold not_null in Ht; destruct (LRtree_ptr Llu i); congruence
        |apply F; [lia|exact Hnn]]. }
    destruct (ps_load p0 fmod i =? 0); cbn [fst snd map].
    + split; [lia|]. split; [lia|].
      pose proof (countZ_nonneg (range i) is_leaf) as Hnl.
      split; [|split].
      * rewrite (range_succ nl), map_app by lia. cbn [map]. f_equal.
        -- rewrite <- C. apply map_ext_in. intros jj Hjj. apply range_In in Hjj.
           rewrite !ps_load_store, Z.eqb_refl. cbn [andb].
           destruct (Z.eqb_spec jj nl); [lia|].
           destruct (Z.eqb_spec leafsups LRTree_active); [congruence|reflexivity].
        -- rewrite ps_load_store, !Z.eqb_refl. reflexivity.
      * intros lk. rewrite !ps_load_store.
        destruct (Z.eqb_spec fmod leafsups); [congruence|].
        destruct (Z.eqb_spec fmod LRTree_active); [congruence|]. apply E.
      * intros lk Hlk Hnn. rewrite !ps_load_store.
        destruct (Z.eqb_spec frecv leafsups); [congruence|].
        destruct (Z.eqb_spec frecv LRTree_active); [congruence|]. now apply Fr.
    + rewrite app_nil_r. split; [lia|]. split; [lia|]. split; [|split].
      * rewrite <- C. apply map_ext. intros jj. rewrite ps_load_store.
        destruct (Z.eqb_spec leafsups LRTree_active); [congruence|reflexivity].
      * intros lk. rewrite ps_load_store.
        destruct (Z.eqb_spec fmod LRTree_active); [congruence|]. apply E.
      * intros lk Hlk Hnn. rewrite ps_load_store.
        destruct (Z.eqb_spec frecv LRTree_active); [congruence|]. now apply Fr.
Qed.

End Leaves.

(** X12 on process 1 of the 3 x 1 mesh, with [fmod[0] = 0]: its block
    row 0 is the leaf, global block 1. *)
Lemma X12_witness :
  let r := collect_leaves fwd_grid fwd_Llu 3 5 6 7 8
             (mk_state (mk_mem [[]; [1]; [0]; [0]; []; [0]; [0]; [0]; [0]]) 6) in
  fst (fst r) = 0 /\ snd (fst r) = 1 /\ ps_load (snd r) 8 0 = 1.
Proof.
  cbv zeta.
  destruct (X12_collect_leaves fwd_grid fwd_Llu 3 5 6 7 8
              (mk_state (mk_mem [[]; [1]; [0]; [0]; []; [0]; [0]; [0]; [0]]) 6)
              ltac:(lia) ltac:(lia) ltac:(lia) ltac:(lia) ltac:(lia) ltac:(lia))
    as [A [B [C _]]].
  split; [exact A|]. split; [exact B|].
  exact (f_equal (fun l => nth 0 l 0) C).
Defined.

(* ================================================================== *)
(** * The column view of U (lines 1759-1816) *)
(* ================================================================== *)

(** A block of U as the two passes over [Ufstnz_br_ptr] meet it: its
    local block row, the position of its descriptor in the index array
    of the row, the position of its values, and its global block
    column. *)
Record Ublock : Type :=
  { u_row : Z; u_indpos : Z; u_valpos : Z; u_col : Z }.

(** One cell of [Ucb_indptr[lb]]: the struct [Ucb_indptr_t] with its
    fields [lbnum] and [indpos]. *)
Record Ucb_indptr_t : Type := { lbnum : Z; indpos : Z }.

(** The storage of the second pass: the integer store (for [Urbs1], the
    second half of the block of [Urbs]) and the arrays behind
    [Ucb_indptr[lb]] and [Ucb_valptr[lb]]. *)
Record Ucb_state : Type :=
  { ucb_ps : pdgstrs_state;
    Ucb_indptr : Z -> array Ucb_indptr_t;
    Ucb_valptr : Z -> array Z }.

Section ColumnView.

Variable D : superlu_defs.
Variable g : gridinfo_t.
Variable G : Glu_persist_t.
Variable Llu : LocalLU_t.
Variable nsupers : Z.

(** Lines 1800-1816: the vertical lists.  [Urbs1 = Urbs + nub] counts
    the cells of each list filled so far. *)
Definition fill_Ucb (Urbs nub : Z) (st : Ucb_state) : Ucb_state :=
  let nlb := CEILING nsupers (nprow g) in
  for_loop nlb (fun lk st =>
    match Ufstnz_br_ptr Llu lk with
    | Some usub =>
        snd (for_loop (usub 0) (fun _ (c : Z * Z * Ucb_state) =>
               let i := fst (fst c) in
               let j := snd (fst c) in
               let st := snd c in
               let k := usub i in
               let ljb := LBj g k in
               let t := ps_load (ucb_ps st) Urbs (nub + ljb) in
               let st :=
                 {| ucb_ps := ps_store (ucb_ps st) Urbs (nub + ljb) (t + 1);
                    Ucb_indptr := fun q =>
                      if q =? ljb
                      then upd (Ucb_indptr st q) t {| lbnum := lk; indpos := i |}
                      else Ucb_indptr st q;
                    Ucb_valptr := fun q =>
                      if q =? ljb then upd (Ucb_valptr st q) t j
                      else Ucb_valptr st q |} in
               (i + UB_DESCRIPTOR D + SuperSize G k, j + usub (i + 1), st))
             (BR_HEADER D, 0, st))
    | None => st
    end) st.

(** The blocks of one block row in the order the cursor [i] meets them:
    [n] blocks from position [i] of the index array, the values of the
    first of them at position [j]. *)
Fixpoint usub_walk (lk : Z) (usub : array Z) (n : nat) (i j : Z) : list Ublock :=
  match n with
  | O => []
  | S n =>
      {| u_row := lk; u_indpos := i; u_valpos := j; u_col := usub i |}
      :: usub_walk lk usub n (i + UB_DESCRIPTOR D + SuperSize G (usub i))
                   (j + usub (i + 1))
  end.

Definition row_walk (lk : Z) : list Ublock :=
  match Ufstnz_br_ptr Llu lk with
  | Some usub => usub_walk lk usub (Z.to_nat (usub 0)) (BR_HEADER D) 0
  | None => []
  end.

(** Every block of the local part of U, block row after block row. *)
Definition U_walk : list Ublock :=
  flat_map row_walk (range (CEILING nsupers (nprow g))).

(** The blocks of local block column [lb], in that order. *)
Definition U_column (lb : Z) : list Ublock :=
  filter (fun b => LBj g (u_col b) =? lb) U_walk.

Definition count_step (Urbs : Z) (p : pdgstrs_state) (b : Ublock) : pdgstrs_state :=
  ps_store p Urbs (LBj g (u_col b)) (ps_load p Urbs (LBj g (u_col b)) + 1).

Definition fill_step (Urbs nub : Z) (st : Ucb_state) (b : Ublock) : Ucb_state :=
  let ljb := LBj g (u_col b) in
  let t := ps_load (ucb_ps st) Urbs (nub + ljb) in
  {| ucb_ps := ps_store (ucb_ps st) Urbs (nub + ljb) (t + 1);
     Ucb_indptr := fun q =>
       if q =? ljb
       then upd (Ucb_indptr st q) t {| lbnum := u_row b; indpos := u_indpos b |}
       else Ucb_indptr st q;
     Ucb_valptr := fun q =>
       if q =? ljb then upd (Ucb_valptr st q) t (u_valpos b)
       else Ucb_valptr st q |}.

Lemma count_Urbs_walk Urbs p :
  count_Urbs D g G Llu nsupers Urbs p = fold_left (count_step Urbs) U_walk p.
Proof.
  unfold count_Urbs, U_walk.
  rewrite <- (for_loop_flat_map _ row_walk (count_step Urbs)).
  apply for_loop_ext. intros lk q. unfold row_walk.
  destruct (Ufstnz_br_ptr Llu lk) as [usub|]; [|reflexivity].
  unfold for_loop. rewrite <- (range_length (usub 0)).
  generalize (range (usub 0)). intros l.
  generalize (BR_HEADER D). generalize 0. revert q.
  induction l as [|x l IH]; intros q j i; [reflexivity|].
  cbn [fold_left length usub_walk fst snd].
  rewrite (IH _ (j + usub (i + 1))). reflexivity.
Qed.

Lemma fill_Ucb_walk Urbs nub st :
  fill_Ucb Urbs nub st = fold_left (fill_step Urbs nub) U_walk st.
Proof.
  unfold fill_Ucb, U_walk.
  rewrite <- (for_loop_flat_map _ row_walk (fill_step Urbs nub)).
  apply for_loop_ext. intros lk q. unfold row_walk.
  destruct (Ufstnz_br_ptr Llu lk) as [usub|]; [|reflexivity].
  unfold for_loop. rewrite <- (range_length (usub 0)).
  generalize (range (usub 0)). intros l.
  generalize (BR_HEADER D). generalize 0. revert q.
  induction l as [|x l IH]; intros q j i; [reflexivity|].
  cbn [fold_left length usub_walk fst snd].
  rewrite (IH _ (j + usub (i + 1))). reflexivity.
Qed.

Definition in_column (lb : Z) (b : Ublock) : bool := LBj g (u_col b) =? lb.

Lemma count_steps_load Urbs (l : list Ublock) : forall p,
  (forall lb, ps_load (fold_left (count_step Urbs) l p) Urbs lb
              = ps_load p Urbs lb + Z.of_nat (length (filter (in_column lb) l)))
  /\ (forall q i, q <> Urbs ->
        ps_load (fold_left (count_step Urbs) l p) q i = ps_load p q i).
Proof.
  induction l as [|b l IH]; intros p.
  - split; [intros lb; cbn; lia|reflexivity].
  - cbn [fold_left filter]. destruct (IH (count_step Urbs p b)) as [A B]. split.
    + intros lb. rewrite A. unfold count_step. rewrite ps_load_store, Z.eqb_refl.
      cbn [andb]. change (in_column lb b) with (LBj g (u_col b) =? lb).
      destruct (Z.eqb_spec lb (LBj g (u_col b))) as [->|Hne].
      * rewrite Z.eqb_refl. cbn [length]. lia.
      * destruct (Z.eqb_spec (LBj g (u_col b)) lb); [congruence|]. lia.
    + intros q i Hq. rewrite B by exact Hq. unfold count_step. rewrite ps_load_store.
      destruct (Z.eqb_spec q Urbs); [contradiction|reflexivity].
Qed.

(** X13: the first pass over the index arrays of U (lines 1773-1787)
    makes [Urbs] the histogram of the block columns: [Urbs[lb]] grows by
    the number of blocks of U, over all local block rows, whose local
    block column is [lb], and no other block of the store is written. *)
Theorem X13_Urbs_counts_columns (Urbs : Z) (p : pdgstrs_state) (lb : Z) :
  ps_load (count_Urbs D g G Llu nsupers Urbs p) Urbs lb
  = ps_load p Urbs lb + Z.of_nat (length (U_column lb))
  /\ (forall q i, q <> Urbs ->
        ps_load (count_Urbs D g G Llu nsupers Urbs p) q i = ps_load p q i).
Proof.
  rewrite count_Urbs_walk.
  destruct (count_steps_load Urbs U_walk p) as [A B].
  split; [apply A|exact B].
Qed.

Lemma filter_snoc {A} (c : A -> bool) l x :
  filter c (l ++ [x]) = filter c l ++ (if c x then [x] else []).
Proof. rewrite filter_app. cbn [filter]. destruct (c x); reflexivity. Qed.

Lemma fill_steps_spec Urbs nub (st0 : Ucb_state) (l : list Ublock) :
  Forall (fun b => 0 <= LBj g (u_col b)) l ->
  (forall lb, 0 <= lb -> ps_load (ucb_ps st0) Urbs (nub + lb) = 0) ->
  let st := fold_left (fill_step Urbs nub) l st0 in
  (forall lb, 0 <= lb ->
     ps_load (ucb_ps st) Urbs (nub + lb) = Z.of_nat (length (filter (in_column lb) l)))
  /\ (forall i, i < nub -> ps_load (ucb_ps st) Urbs i = ps_load (ucb_ps st0) Urbs i)
  /\ (forall lb t b, nth_error (filter (in_column lb) l) t = Some b ->
        Ucb_indptr st lb (Z.of_nat t) = {| lbnum := u_row b; indpos := u_indpos b |}
        /\ Ucb_valptr st lb (Z.of_nat t) = u_valpos b).
Proof.
  intros Hl H0. cbv zeta. induction l as [|b l IH] using rev_ind.
  - cbn. split; [intros lb Hlb; now apply H0|]. split; [reflexivity|].
    intros lb t b H. destruct t; discriminate.
  - apply Forall_app in Hl. destruct Hl as [Hl Hb].
    inversion Hb as [|? ? Hb0 _]; subst.
    destruct (IH Hl) as [A [B C]]. clear IH.
    rewrite fold_left_app. cbn [fold_left].
    set (st := fold_left (fill_step Urbs nub) l st0) in *.
    unfold fill_step. cbn [ucb_ps Ucb_indptr Ucb_valptr].
    rewrite (A (LBj g (u_col b)) Hb0).
    split; [|split].
    + intros lb Hlb. rewrite ps_load_store, Z.eqb_refl, filter_snoc, length_app.
      cbn [andb]. change (in_column lb b) with (LBj g (u_col b) =? lb).
      destruct (Z.eqb_spec (nub + lb) (nub + LBj g (u_col b))) as [E|Hne].
      * assert (E' : lb = LBj g (u_col b)) by lia. subst lb.
        rewrite Z.eqb_refl. cbn [length]. lia.
      * destruct (Z.eqb_spec (LBj g (u_col b)) lb) as [E|_]; [subst lb; lia|].
        rewrite A by exact Hlb. cbn [length]. lia.
    + intros i Hi. rewrite ps_load_store, Z.eqb_refl. cbn [andb].
      destruct (Z.eqb_spec i (nub + LBj g (u_col b))); [lia|]. now apply B.
    + intros lb t b' Hnth. rewrite filter_snoc in Hnth.
      change (in_column lb b) with (LBj g (u_col b) =? lb) in Hnth.
      destruct (Z.eqb_spec lb (LBj g (u_col b))) as [->|Hne].
      * rewrite Z.eqb_refl in Hnth.
        destruct (Nat.lt_ge_cases t (length (filter (in_column (LBj g (u_col b))) l)))
          as [Hlt|Hge].
        -- rewrite nth_error_app1 in Hnth by exact Hlt.
           destruct (C _ _ _ Hnth) as [C1 C2].
           rewrite !upd_other by lia. now split.
        -- rewrite nth_error_app2 in Hnth by exact Hge.
           destruct (t - length (filter (in_column (LBj g (u_col b))) l))%nat
             as [|t'] eqn:Et; [|destruct t'; discriminate].
           injection Hnth as <-.
           assert (Et' : t = length (filter (in_column (LBj g (u_col b))) l)) by lia.
           rewrite <- Et'. rewrite !upd_same. now split.
      * destruct (Z.eqb_spec (LBj g (u_col b)) lb) as [E|_]; [congruence|].
        rewrite app_nil_r in Hnth. now apply C.
Qed.

(** Every block column number met in the index arrays of U is the
    number of a supernode. *)
Definition U_columns_ok : bool :=
  forallb (fun b => (0 <=? u_col b) && (u_col b <? nsupers)) U_walk.

(** X14: the two passes of lines 1759-1816 together, on the fresh
    zero-filled [Urbs].  When every block column number in the index
    arrays of U is the number of a supernode, then for each local block
    column [lb] both halves of [Urbs] end as the number of blocks of U in
    that column ([Urbs1[lb] = Urbs[lb]]: the second pass fills exactly
    the cells the first pass counted), and cell [t] of the vertical list
    of [lb] holds the block row and the index position of the [t]-th
    such block, in the order of the block rows, with the position of its
    values in [Ucb_valptr]. *)
Theorem X14_vertical_lists (p : pdgstrs_state)
    (ind0 : Z -> array Ucb_indptr_t) (val0 : Z -> array Z) (lb : Z) :
  0 < npcol g -> U_columns_ok = true ->
  0 <= lb < CEILING nsupers (npcol g) ->
  let nub := CEILING nsupers (npcol g) in
  let Urbs := fst (ps_calloc p) in
  let p1 := count_Urbs D g G Llu nsupers Urbs (snd (ps_calloc p)) in
  let st := fill_Ucb Urbs nub {| ucb_ps := p1; Ucb_indptr := ind0;
                                 Ucb_valptr := val0 |} in
  ps_load (ucb_ps st) Urbs lb = Z.of_nat (length (U_column lb))
  /\ ps_load (ucb_ps st) Urbs (nub + lb) = Z.of_nat (length (U_column lb))
  /\ (forall t b, nth_error (U_column lb) t = Some b ->
        Ucb_indptr st lb (Z.of_nat t) = {| lbnum := u_row b; indpos := u_indpos b |}
        /\ Ucb_valptr st lb (Z.of_nat t) = u_valpos b).
Proof.
  intros Hpc Hok Hlb. cbv zeta.
  set (nub := CEILING nsupers (npcol g)) in *.
  assert (Hw : Forall (fun b => 0 <= LBj g (u_col b) < nub) U_walk).
  { apply Forall_forall. intros b Hb. unfold U_columns_ok in Hok.
    rewrite forallb_forall in Hok. specialize (Hok b Hb).
    apply andb_true_iff in Hok. destruct Hok as [H1 H2].
    apply Z.leb_le in H1. apply Z.ltb_lt in H2. unfold LBj. split.
    - apply Z.quot_pos; lia.
    - apply quot_lt_CEILING; lia. }
  set (Urbs := fst (ps_calloc p)). set (pc := snd (ps_calloc p)).
  assert (Hz : forall i, ps_load pc Urbs i = 0).
  { intros i. unfold pc, Urbs, ps_calloc, intCalloc_dist, ps_load, load. cbn.
    now rewrite Z.eqb_refl. }
  rewrite fill_Ucb_walk.
  destruct (count_steps_load Urbs U_walk pc) as [A _].
  rewrite <- count_Urbs_walk in A.
  set (p1 := count_Urbs D g G Llu nsupers Urbs pc) in *.
  assert (Hnone : forall i, nub <= i -> filter (in_column i) U_walk = []).
  { intros i Hi. clear -Hw Hi. induction Hw as [|b l Hb _ IH]; [reflexivity|].
    cbn [filter]. unfold in_column at 1.
    destruct (Z.eqb_spec (LBj g (u_col b)) i); [lia|exact IH]. }
  assert (Hw0 : Forall (fun b => 0 <= LBj g (u_col b)) U_walk).
  { eapply Forall_impl; [|exact Hw]. cbn. intros b Hb. lia. }
  destruct (fill_steps_spec Urbs nub
              {| ucb_ps := p1; Ucb_indptr := ind0; Ucb_valptr := val0 |}
              U_walk Hw0) as [F1 [F2 F3]].
  { intros i Hi. cbn [ucb_ps]. rewrite A, Hz, (Hnone (nub + i)) by lia. reflexivity. }
  cbv zeta in F1, F2, F3. cbn [ucb_ps] in F2.
  split; [|split].
  - rewrite F2 by lia. rewrite A, Hz. reflexivity.
  - apply F1. lia.
  - intros t b H. now apply F3.
Qed.

End ColumnView.

(** A 1 x 1 mesh with two supernodes of size 1 and a full upper
    triangle: block row 0 holds U(0,0) and U(0,1), block row 1 holds
    U(1,1). *)
Definition ucb_Glu : Glu_persist_t :=
  {| xsup := tab 0 [0; 1; 2]; supno := tab 0 [0; 1] |}.
Definition ucb_Llu : LocalLU_t :=
  {| Llu_fmod := 1; Llu_bmod := 2; Llu_mod_bit := 3;
     Llu_nfrecvx := 0; Llu_nbrecvx := 0;
     Lrowind_bc_ptr := fun _ => None;
     LBtree_ptr := fun _ => None;
     LRtree_ptr := fun _ => None;
     Ufstnz_br_ptr := fun lk =>
       if lk =? 0 then Some (tab 0 [2; 8; 2; 0; 1; 0; 1; 1; 1])
       else if lk =? 1 then Some (tab 0 [1; 5; 1; 1; 1; 1]) else None;
     bsendx_plist := fun _ _ => -1;
     Llu_ilsum := tab 0 [0; 1; 2] |}.

(** X14 on that process: column 1 has two blocks, and the second cell
    of its vertical list points at block row 1, index position 3. *)
Lemma X14_witness :
  let Urbs := fst (ps_calloc (mk_state (mk_mem [[]]) 0)) in
  let p1 := count_Urbs D0 singular_grid ucb_Glu ucb_Llu 2 Urbs
              (snd (ps_calloc (mk_state (mk_mem [[]]) 0))) in
  let st := fill_Ucb D0 singular_grid ucb_Glu ucb_Llu 2 Urbs 2
              {| ucb_ps := p1;
                 Ucb_indptr := fun _ _ => {| lbnum := 0; indpos := 0 |};
                 Ucb_valptr := fun _ _ => 0 |} in
  ps_load (ucb_ps st) Urbs 1 = 2
  /\ ps_load (ucb_ps st) Urbs (2 + 1) = 2
  /\ Ucb_indptr st 1 1 = {| lbnum := 1; indpos := 3 |}.
Proof.
  cbv zeta.
  destruct (X14_vertical_lists D0 singular_grid ucb_Glu ucb_Llu 2
              (mk_state (mk_mem [[]]) 0)
              (fun _ _ => {| lbnum := 0; indpos := 0 |}) (fun _ _ => 0) 1
              ltac:(reflexivity) ltac:(reflexivity) ltac:(vm_compute; split; [discriminate|reflexivity]))
    as [A [B C]].
  split; [exact A|]. split; [exact B|].
  exact (proj1 (C 1%nat {| u_row := 1; u_indpos := 3; u_valpos := 0; u_col := 1 |}
                  eq_refl)).
Defined.

(* ================================================================== *)
(** * Every send of the backward sweep is waited for *)
(* ================================================================== *)

Definition is_isend (e : event) : bool :=
  match e with EvIsend _ _ _ => true | _ => false end.

(** The number of [MPI_Isend] calls in a trace. *)
Definition isends (tr : list event) : Z := Z.of_nat (length (filter is_isend tr)).

(** The sends posted so far that have no request slot of [send_req]
    below [Llu->SolveMsgSent]. *)
Definition unslotted (p : pdgstrs_state) : Z :=
  isends (trace p) - Llu_SolveMsgSent p.

Lemma isends_app tr1 tr2 : isends (tr1 ++ tr2) = isends tr1 + isends tr2.
Proof. unfold isends. rewrite filter_app, length_app. lia. Qed.

Lemma unslotted_same p p' :
  trace p' = trace p -> Llu_SolveMsgSent p' = Llu_SolveMsgSent p ->
  unslotted p' = unslotted p.
Proof. unfold unslotted. intros -> ->. reflexivity. Qed.

Lemma unslotted_log p e : is_isend e = false -> unslotted (ps_log p e) = unslotted p.
Proof.
  intros H. unfold unslotted, ps_log. cbn [trace Llu_SolveMsgSent].
  rewrite isends_app. unfold isends at 2. cbn [filter]. rewrite H. cbn. lia.
Qed.

Lemma unslotted_store p b i v : unslotted (ps_store p b i v) = unslotted p.
Proof. reflexivity. Qed.

Lemma unslotted_free p b : unslotted (ps_free p b) = unslotted p.
Proof. reflexivity. Qed.

Lemma unslotted_malloc p : unslotted (malloc_state p) = unslotted p.
Proof. reflexivity. Qed.

Lemma unslotted_calloc p : unslotted (calloc_state p) = unslotted p.
Proof. reflexivity. Qed.

Lemma unslotted_for_loop {S} (proj : S -> pdgstrs_state) n (body : Z -> S -> S) s :
  (forall i t, unslotted (proj (body i t)) = unslotted (proj t)) ->
  unslotted (proj (for_loop n body s)) = unslotted (proj s).
Proof.
  intros H. unfold for_loop. generalize (range n). intros l. revert s.
  induction l as [|x l IH]; intros s; [reflexivity|].
  cbn [fold_left]. rewrite IH. apply H.
Qed.

Section SendWait.

Variable D : superlu_defs.
Variable g : gridinfo_t.
Variable G : Glu_persist_t.
Variable Llu : LocalLU_t.
Variable sp_ienv3 : Z.
Variable dlsum_fmod_inv :
  bufsrc -> Z -> Z -> Z -> Z -> Z -> Z -> pdgstrs_state -> pdgstrs_state.
Variable dlsum_bmod_inv : bufsrc -> Z -> Z -> Z -> pdgstrs_state -> pdgstrs_state.

(** What is assumed of the two helpers of pdgstrs_lsum.c: each
    [MPI_Isend] they post takes the next slot of [send_req], as the
    sends of [pdgstrs] itself do ([&send_req[Llu->SolveMsgSent++]]). *)
Hypothesis Hf : forall xk knsupc k fmod nb lptr luptr p,
  unslotted (dlsum_fmod_inv xk knsupc k fmod nb lptr luptr p) = unslotted p.
Hypothesis Hb : forall xk k bmod Urbs p,
  unslotted (dlsum_bmod_inv xk k bmod Urbs p) = unslotted p.

Lemma alloc_fmod_frecv_unslotted nsupers p :
  unslotted (snd (alloc_fmod_frecv g Llu nsupers p)) = unslotted p.
Proof.
  unfold alloc_fmod_frecv. rewrite (ps_malloc_eq p). cbv beta iota.
  match goal with |- context [ps_calloc ?q] => rewrite (ps_calloc_eq q) end.
  cbv beta iota zeta. cbn [snd].
  apply eq_trans with (unslotted (for_loop (CEILING nsupers (nprow g))
     (fun i p0 => ps_store p0 (brk (heap p)) i (ps_load p0 (Llu_fmod Llu) i))
     (malloc_state p))).
  - apply unslotted_same; reflexivity.
  - rewrite (unslotted_for_loop (fun p => p)); [reflexivity|]. reflexivity.
Qed.

Lemma collect_leaves_unslotted nsupers fmod frecv act leafsups p :
  unslotted (snd (collect_leaves g Llu nsupers fmod frecv act leafsups p)) = unslotted p.
Proof.
  unfold collect_leaves.
  rewrite (unslotted_for_loop (fun st : Z * Z * pdgstrs_state => snd st));
    [reflexivity|].
  intros i [[a c] t]. cbn [snd].
  destruct (not_null _); [reflexivity|].
  destruct (_ <? _); [|reflexivity].
  destruct (_ =? _); [|reflexivity].
  destruct (_ =? _); reflexivity.
Qed.

Lemma solve_leaves_unslotted nrhs fmod leafsups nleaf p :
  unslotted (solve_leaves D g G Llu nrhs dlsum_fmod_inv fmod leafsups nleaf p)
  = unslotted p.
Proof.
  unfold solve_leaves. rewrite (unslotted_for_loop (fun p => p)); [reflexivity|].
  intros i t. cbv zeta. rewrite Hf.
  destruct (not_null _); rewrite ?unslotted_log by reflexivity; reflexivity.
Qed.

Lemma lsolve_recv_unslotted nsupers nrhs maxrecvsz fmod frecv m s :
  unslotted (ps (lsolve_recv D g G Llu nsupers nrhs maxrecvsz fmod frecv
                   dlsum_fmod_inv m s)) = unslotted (ps s).
Proof.
  unfold lsolve_recv.
  destruct (MPI_TAG m <? nsupers).
  - unfold lsolve_recv_x. cbn [ps].
    destruct (Lrowind_bc_ptr Llu (LBj g (hdr m))); rewrite ?Hf;
      destruct (_ >? 0); rewrite ?unslotted_log by reflexivity; reflexivity.
  - destruct (_ && _); [|reflexivity].
    unfold lsolve_recv_lsum. cbn [ps].
    destruct (RdTree_IsRoot _).
    + unfold lsolve_lsum_root. destruct (_ && _); [|reflexivity].
      rewrite Hf. destruct (not_null _); rewrite ?unslotted_log by reflexivity;
        reflexivity.
    + unfold lsolve_lsum_inner. destruct (_ && _); [|reflexivity].
      rewrite unslotted_log by reflexivity. reflexivity.
Qed.

Lemma lsolve_loop_unslotted nsupers nrhs maxrecvsz fmod frecv msgs : forall s,
  unslotted (ps (snd (fst (lsolve_loop D g G Llu nsupers nrhs maxrecvsz fmod frecv
                             dlsum_fmod_inv msgs s)))) = unslotted (ps s).
Proof.
  induction msgs as [|m ms IH]; intros s; cbn [lsolve_loop];
    destruct (lsolve_pending s); try reflexivity.
  rewrite IH. apply lsolve_recv_unslotted.
Qed.

Lemma lsolve_wait_sends_unslotted nsupers p :
  unslotted (lsolve_wait_sends g Llu nsupers p) = unslotted p.
Proof.
  unfold lsolve_wait_sends. rewrite unslotted_log by reflexivity.
  rewrite (unslotted_for_loop (fun p => p));
    [|intros i t; destruct (not_null _); rewrite ?unslotted_log by reflexivity;
      reflexivity].
  rewrite (unslotted_for_loop (fun p => p));
    [|intros i t; destruct (not_null _); rewrite ?unslotted_log by reflexivity;
      reflexivity].
  reflexivity.
Qed.

Lemma alloc_bmod_brecv_unslotted nsupers p :
  unslotted (snd (alloc_bmod_brecv g Llu nsupers p)) = unslotted p.
Proof.
  unfold alloc_bmod_brecv. rewrite (ps_malloc_eq p). cbv beta iota.
  match goal with |- context [ps_malloc ?q] => rewrite (ps_malloc_eq q) end.
  cbv beta iota zeta. cbn [snd].
  apply eq_trans with (unslotted (for_loop (CEILING nsupers (nprow g))
     (fun i p0 => ps_store p0 (brk (heap p)) i (ps_load p0 (Llu_bmod Llu) i))
     (malloc_state p))).
  - apply unslotted_same; reflexivity.
  - rewrite (unslotted_for_loop (fun p => p)); [reflexivity|]. reflexivity.
Qed.

Lemma brecv_prepass_unslotted nsupers bmod brecv peers p :
  unslotted (snd (brecv_prepass g Llu nsupers bmod brecv peers p)) = unslotted p.
Proof.
  unfold brecv_prepass.
  destruct (count_brecv _ _ _ _ _) as [a c]. cbn [snd].
  unfold allreduce_brecv.
  rewrite (unslotted_for_loop (fun p => p)); [|reflexivity].
  rewrite unslotted_log by reflexivity.
  unfold set_mod_bit.
  rewrite (unslotted_for_loop (fun p => p));
    [|intros i t; destruct (_ =? _); [|reflexivity];
      destruct (_ && _); reflexivity].
  rewrite (unslotted_for_loop (fun p => p)); reflexivity.
Qed.

Lemma count_Urbs_unslotted nsupers Urbs p :
  unslotted (count_Urbs D g G Llu nsupers Urbs p) = unslotted p.
Proof.
  unfold count_Urbs. rewrite (unslotted_for_loop (fun p => p)); [reflexivity|].
  intros lk t. destruct (Ufstnz_br_ptr Llu lk) as [usub|]; [|reflexivity].
  rewrite (unslotted_for_loop (fun st : Z * pdgstrs_state => snd st));
    reflexivity.
Qed.

Lemma bsend_x_unslotted lk kcol ii p :
  unslotted (bsend_x D g Llu lk kcol ii p) = unslotted p.
Proof.
  unfold bsend_x. rewrite (unslotted_for_loop (fun p => p)); [reflexivity|].
  intros pr t. destruct (negb _); [|reflexivity].
  unfold unslotted, ps_next_req, ps_log. cbn [trace Llu_SolveMsgSent].
  rewrite isends_app. unfold isends at 2. cbn. lia.
Qed.

Lemma usolve_block_unslotted nrhs bmod Urbs k lk p :
  unslotted (usolve_block D g Llu nrhs bmod Urbs dlsum_bmod_inv k lk p) = unslotted p.
Proof.
  unfold usolve_block. cbv zeta.
  destruct (negb _); rewrite ?Hb, bsend_x_unslotted, unslotted_log by reflexivity;
    reflexivity.
Qed.

Lemma usolve_roots_unslotted nsupers nrhs bmod brecv Urbs u :
  unslotted (ups (usolve_roots D g Llu nsupers nrhs bmod brecv Urbs dlsum_bmod_inv u))
  = unslotted (ups u).
Proof.
  unfold usolve_roots. rewrite (unslotted_for_loop ups); [reflexivity|].
  intros i t. destruct (negb _); [|reflexivity].
  destruct (_ && _); [|reflexivity].
  destruct (_ && _); [|reflexivity].
  cbn [ups]. apply usolve_block_unslotted.
Qed.

Lemma usolve_recv_unslotted nrhs bmod brecv Urbs m u :
  unslotted (ups (usolve_recv D g Llu nrhs bmod brecv Urbs dlsum_bmod_inv m u))
  = unslotted (ups u).
Proof.
  unfold usolve_recv.
  destruct (MPI_TAG m =? Xk D); cbn [ups].
  - rewrite Hb. now rewrite unslotted_log.
  - destruct (MPI_TAG m =? LSUM D); cbn [ups].
    + destruct (_ && _); rewrite ?usolve_block_unslotted, unslotted_store;
        now rewrite unslotted_log.
    + now rewrite unslotted_log.
Qed.

Lemma usolve_loop_unslotted nrhs bmod brecv Urbs msgs : forall u,
  unslotted (ups (snd (fst (usolve_loop D g Llu nrhs bmod brecv Urbs dlsum_bmod_inv
                              msgs u)))) = unslotted (ups u).
Proof.
  induction msgs as [|m ms IH]; intros u; cbn [usolve_loop];
    destruct (usolve_pending u); try reflexivity.
  rewrite IH. apply usolve_recv_unslotted.
Qed.

Lemma wait_loop_trace n p :
  trace (for_loop n (fun i p => ps_log p (EvWait i)) p) = trace p ++ map EvWait (range n)
  /\ Llu_SolveMsgSent (for_loop n (fun i p => ps_log p (EvWait i)) p)
     = Llu_SolveMsgSent p.
Proof.
  unfold for_loop. generalize (range n). intros l. revert p.
  induction l as [|x l IH]; intros p; cbn [fold_left map].
  - now rewrite app_nil_r.
  - destruct (IH (ps_log p (EvWait x))) as [A B]. rewrite A, B.
    cbn [ps_log trace Llu_SolveMsgSent]. now rewrite <- app_assoc.
Qed.

Lemma release_all_trace Urbs bmod brecv p :
  trace (release_all Urbs bmod brecv p)
  = trace p ++ map EvWait (range (Llu_SolveMsgSent p)) ++ [EvBarrier]
  /\ Llu_SolveMsgSent (release_all Urbs bmod brecv p) = Llu_SolveMsgSent p.
Proof.
  unfold release_all. cbn [ps_log trace Llu_SolveMsgSent].
  match goal with
  | |- context [for_loop ?n ?f ?q] => destruct (wait_loop_trace n q) as [A B]
  end.
  rewrite A, B. split; [now rewrite <- app_assoc|reflexivity].
Qed.

Lemma pdgstrs_entry_isends iam_indet n nrhs s p :
  pdgstrs_entry iam_indet n nrhs s = Proceeds p -> isends (trace p) = isends (trace s).
Proof.
  unfold pdgstrs_entry. cbn. destruct (negb _); [discriminate|].
  intros H. injection H as <-. cbn [trace]. rewrite !isends_app.
  destruct (iam_indet =? 0); cbn; lia.
Qed.


End SendWait.

(** The model of [dlsum_fmod_inv] posts no send. *)
Lemma dlsum_fmod_inv_model_unslotted D g G Llu nrhs fuel :
  forall xk knsupc k fmodp nb lptr luptr p,
  unslotted (dlsum_fmod_inv_model D g G Llu nrhs fuel xk knsupc k fmodp nb lptr luptr p)
  = unslotted p.
Proof.
  induction fuel as [|fuel IH]; intros xk knsupc k fmodp nb lptr luptr p;
    [reflexivity|].
  cbn [dlsum_fmod_inv_model].
  rewrite (unslotted_for_loop (fun st : Z * pdgstrs_state => snd st));
    [reflexivity|].
  intros i [lp t]. cbn [fst snd].
  destruct (_ =? 0); [|reflexivity].
  destruct (negb _).
  - destruct (_ =? 0); [|reflexivity]. now rewrite unslotted_log.
  - destruct (_ =? 0); [|reflexivity]. rewrite IH.
    destruct (not_null _); rewrite ?unslotted_log by reflexivity; reflexivity.
Qed.

(** Process 1 of the 2 x 1 mesh through a whole call: it receives X[0],
    solves block 1 in both sweeps, and sends X[1] to process 0. *)
Definition bwd_call : loop_status * pdgstrs_state :=
  pdgstrs D0 bwd_grid red_Glu bwd_Llu 1
    (dlsum_fmod_inv_model D0 bwd_grid red_Glu bwd_Llu 1 3) bwd_dlsum 0 2 1
    [ {| MPI_TAG := 0; hdr := 0 |} ] [] [] call_start.


(* ================================================================== *)
(** * The counters bmod and brecv along the backward service loop *)
(* ================================================================== *)

Section BackwardCounters.

Variable D : superlu_defs.
Variable g : gridinfo_t.
Variable Llu : LocalLU_t.
Variables nrhs bmod brecv Urbs : Z.
Variable dlsum_bmod_inv : bufsrc -> Z -> Z -> Z -> pdgstrs_state -> pdgstrs_state.

Local Abbreviation recvB := (usolve_recv D g Llu nrhs bmod brecv Urbs dlsum_bmod_inv).
Local Abbreviation blockB := (usolve_block D g Llu nrhs bmod Urbs dlsum_bmod_inv).

(** Any run of iterations of the body of the backward loop, whatever
    the loop condition. *)
Definition usolve_run (msgs : list message) (u : usolve_state) : usolve_state :=
  fold_left (fun u m => recvB m u) msgs u.

(** The LSUM messages among [msgs] that are for local block row [lk]. *)
Definition blsum_msgs_for (lk : Z) (msgs : list message) : Z :=
  Z.of_nat (length (filter (fun m => is_LSUM_msg D m && (LBi g (hdr m) =? lk)) msgs)).

(** The test of line 2023, evaluated as the code does, with the
    decrement [--brecv[lk]] in it: the diagonal solve of the block fires
    in this iteration. *)
Definition usolve_fires (m : message) (u : usolve_state) : bool :=
  let lk := LBi g (hdr m) in
  let p := ps_log (ups u) EvRecvU in
  let p := ps_store p brecv lk (ps_load p brecv lk - 1) in
  is_LSUM_msg D m && ((ps_load p brecv lk =? 0) && (ps_load p bmod lk =? 0)).

(** What is assumed of the absent [dlsum_bmod_inv]: of the integer
    store it writes only the block [bmod] it is handed, and it never
    raises an entry of it. *)
Definition dlsum_bmod_frame : Prop :=
  forall xk k p q i, q <> bmod ->
    ps_load (dlsum_bmod_inv xk k bmod Urbs p) q i = ps_load p q i.
Definition dlsum_bmod_nonincreasing : Prop :=
  forall xk k p i,
    ps_load (dlsum_bmod_inv xk k bmod Urbs p) bmod i <= ps_load p bmod i.

Section Assumed.

Hypothesis bmod_brecv : bmod <> brecv.
Hypothesis Hframe : dlsum_bmod_frame.
Hypothesis Hmono : dlsum_bmod_nonincreasing.

Lemma usolve_block_counters k lk p i :
  ps_load (blockB k lk p) bmod i <= (if i =? lk then -1 else ps_load p bmod i)
  /\ ps_load (blockB k lk p) brecv i = ps_load p brecv i.
Proof.
  unfold usolve_block. cbv zeta.
  set (p1 := bsend_x D g Llu (LBj g k) (PCOL g k)
               (X_BLK D (Llu_ilsum Llu) nrhs lk)
               (ps_log (ps_store p bmod lk (-1)) (EvSolve k))).
  assert (E1 : forall q j, ps_load p1 q j
               = if (q =? bmod) && (j =? lk) then -1 else ps_load p q j).
  { intros q j. unfold p1. rewrite bsend_x_load, ps_load_log, ps_load_store.
    reflexivity. }
  assert (Eb : ps_load p1 bmod i = if i =? lk then -1 else ps_load p bmod i).
  { rewrite E1, Z.eqb_refl. reflexivity. }
  assert (Er : ps_load p1 brecv i = ps_load p brecv i).
  { rewrite E1. destruct (Z.eqb_spec brecv bmod); [congruence|reflexivity]. }
  destruct (negb _).
  - split.
    + rewrite <- Eb. apply Hmono.
    + rewrite Hframe by congruence. exact Er.
  - split; [rewrite Eb; lia|exact Er].
Qed.

Lemma usolve_recv_counters m u i :
  ps_load (ups (recvB m u)) bmod i <= ps_load (ups u) bmod i
  /\ ps_load (ups (recvB m u)) brecv i
     = ps_load (ups u) brecv i
       - (if is_LSUM_msg D m && (LBi g (hdr m) =? i) then 1 else 0)
  /\ (usolve_fires m u = true -> ps_load (ups (recvB m u)) bmod (LBi g (hdr m)) <= -1).
Proof.
  unfold usolve_recv, usolve_fires, is_LSUM_msg. cbv zeta.
  destruct (MPI_TAG m =? Xk D); cbn [negb andb ups].
  { split; [|split; [|discriminate]].
    - etransitivity; [apply Hmono|]. rewrite ps_load_log. lia.
    - rewrite Hframe by congruence. rewrite ps_load_log. lia. }
  destruct (MPI_TAG m =? LSUM D); cbn [andb ups];
    [|split; [rewrite ps_load_log; lia|split; [rewrite ps_load_log; lia|discriminate]]].
  set (lk := LBi g (hdr m)).
  set (p0 := ps_log (ups u) EvRecvU).
  set (p1 := ps_store p0 brecv lk (ps_load p0 brecv lk - 1)).
  assert (Eb : forall j, ps_load p1 bmod j = ps_load (ups u) bmod j).
  { intros j. unfold p1. rewrite ps_load_store.
    destruct (Z.eqb_spec bmod brecv); [congruence|reflexivity]. }
  assert (Er : ps_load p1 brecv i
               = ps_load (ups u) brecv i - (if lk =? i then 1 else 0)).
  { unfold p1. rewrite ps_load_store, Z.eqb_refl. cbn [andb].
    rewrite (Z.eqb_sym lk i).
    destruct (Z.eqb_spec i lk) as [->|Hne]; [reflexivity|].
    unfold p0. rewrite ps_load_log. lia. }
  destruct ((ps_load p1 brecv lk =? 0) && (ps_load p1 bmod lk =? 0)) eqn:Hfire.
  - destruct (usolve_block_counters (hdr m) lk p1 i) as [A B].
    destruct (usolve_block_counters (hdr m) lk p1 lk) as [A' _].
    rewrite Z.eqb_refl in A'.
    apply andb_true_iff in Hfire. destruct Hfire as [_ Hz]. apply Z.eqb_eq in Hz.
    split; [|split; [rewrite B; exact Er|intros _; exact A']].
    etransitivity; [exact A|].
    destruct (Z.eqb_spec i lk) as [->|Hne]; [rewrite <- Eb; lia|rewrite Eb; lia].
  - split; [rewrite Eb; lia|]. split; [exact Er|discriminate].
Qed.

Lemma usolve_run_counters msgs : forall u i,
  ps_load (ups (usolve_run msgs u)) bmod i <= ps_load (ups u) bmod i
  /\ ps_load (ups (usolve_run msgs u)) brecv i
     = ps_load (ups u) brecv i - blsum_msgs_for i msgs.
Proof.
  unfold usolve_run, blsum_msgs_for.
  induction msgs as [|m ms IH]; intros u i; cbn [fold_left filter].
  - cbn. split; lia.
  - destruct (IH (recvB m u) i) as [A B].
    destruct (usolve_recv_counters m u i) as [A' [B' _]].
    split; [lia|]. rewrite B, B'.
    destruct (is_LSUM_msg D m && (LBi g (hdr m) =? i)); cbn [length]; lia.
Qed.

End Assumed.

End BackwardCounters.

Section BackwardSingleSolve.

Variable D : superlu_defs.
Variable g : gridinfo_t.
Variable Llu : LocalLU_t.
Variables nrhs bmod brecv Urbs : Z.
Variable dlsum_bmod_inv : bufsrc -> Z -> Z -> Z -> pdgstrs_state -> pdgstrs_state.

Local Abbreviation recvB := (usolve_recv D g Llu nrhs bmod brecv Urbs dlsum_bmod_inv).
Local Abbreviation runB := (usolve_run D g Llu nrhs bmod brecv Urbs dlsum_bmod_inv).
Local Abbreviation firesB := (usolve_fires D g bmod brecv).


End BackwardSingleSolve.

(** Process 1 of the 2 x 1 mesh awaiting one partial sum for its block
    row 0 (block 1): blocks 5 and 6 of the store are [bmod] and [brecv]. *)
Definition bwd_wait : usolve_state :=
  {| nbrecvx := 0; nbrecvmod := 1; nroot := 0;
     ups := mk_state (mk_mem [[]; [1]; [0]; [0]; []; [0]; [1]; [0; 0]]) 0 |}.
Definition bwd_lsum : message := {| MPI_TAG := 23; hdr := 1 |}.


(* ================================================================== *)
(** * The map from the rows of L to lsum (lines 988-1047) *)
(* ================================================================== *)

Lemma psum_nonpos f n : n <= 0 -> psum f n = 0.
Proof. intros H. unfold psum. now rewrite range_nonpos. Qed.

Lemma psum_const c n : 0 <= n -> psum (fun _ => c) n = n * c.
Proof.
  intros Hn. pattern n. apply natlike_ind; [| |exact Hn].
  - reflexivity.
  - intros y Hy IH. unfold Z.succ. rewrite psum_succ, IH by lia. lia.
Qed.

Lemma psum_ext f f' n :
  (forall i, 0 <= i < n -> f i = f' i) -> psum f n = psum f' n.
Proof.
  intros H. unfold psum. apply sumZ_ext. intros x Hx. apply H. now apply range_In.
Qed.

(** A loop that threads a cursor: turn [i] writes the list [ws i c],
    placed from the cursor [c] on, and moves the cursor by [L i]. *)
Lemma for_loop_cursor_lists {A} n (L : Z -> Z) (ws : Z -> Z -> list (Z * A))
    (st : Z * array A) :
  for_loop n (fun i st => (fst st + L i, write_list (ws i (fst st)) (snd st))) st
  = (fst st + psum L n,
     write_list (flat_map (fun i => ws i (fst st + psum L i)) (range n)) (snd st)).
Proof.
  destruct st as [c0 a0]. cbn [fst snd].
  destruct (Z.le_gt_cases n 0) as [Hn|Hn].
  - rewrite for_loop_nonpos, range_nonpos, psum_nonpos by lia. cbn. f_equal. lia.
  - assert (G : forall k, 0 <= k ->
      for_loop k (fun i st => (fst st + L i, write_list (ws i (fst st)) (snd st)))
        (c0, a0)
      = (c0 + psum L k,
         write_list (flat_map (fun i => ws i (c0 + psum L i)) (range k)) a0)).
    { intros k Hk. pattern k. apply natlike_ind; [| |exact Hk].
      - rewrite for_loop_nonpos, range_nonpos, psum_nonpos by lia. cbn. f_equal. lia.
      - intros y Hy IH. unfold Z.succ. rewrite for_loop_succ, IH by lia.
        cbn [fst snd]. rewrite psum_succ, range_succ, flat_map_app, write_list_app by lia.
        cbn [flat_map]. rewrite app_nil_r. f_equal. lia. }
    apply G. lia.
Qed.

Section RowsToLsum.

Variable D : superlu_defs.
Variable g : gridinfo_t.
Variable G : Glu_persist_t.
Variable Llu : LocalLU_t.
(** [Llu->Lindval_loc_bc_ptr], which the record [LocalLU_t] above does
    not carry. *)
Variable Lindval_loc_bc_ptr : Z -> array Z.
Variables nsupers nrhs : Z.

(** Lines 1023-1042: the three nested loops that fill
    [Llu->Lrowind_bc_2_lsum[ljb]], with the cursor [idx_r]. *)
Definition fill_2_lsum (ljb : Z) (lsub : array Z) (nlb_nodiag idx_i : Z)
    (tbl : array Z) : Z * array Z :=
  let idx_r := 0 in
  for_loop nrhs (fun j (st : Z * array Z) =>
    for_loop nlb_nodiag (fun lb (st : Z * array Z) =>
      let lptr1_tmp := Lindval_loc_bc_ptr ljb (lb + idx_i) in
      let ik := lsub lptr1_tmp in
      let iknsupc := SuperSize G ik in
      let nbrow := lsub (lptr1_tmp + 1) in
      let lk := LBi g ik in
      let il := LSUM_BLK D (Llu_ilsum Llu) nrhs lk in
      let rel := xsup G ik in
      for_loop nbrow (fun ii (st : Z * array Z) =>
        let irow := lsub (lptr1_tmp + LB_DESCRIPTOR D + ii) - rel in
        (fst st + 1, upd (snd st) (fst st) (il + irow + j * iknsupc))) st) st)
    (idx_r, tbl).

(** Lines 1000-1018: the number of off-diagonal blocks of block column
    [ljb], the place of the first of them in [Lindval_loc_bc_ptr[ljb]],
    and the number [m] of their rows as the header of the index array
    gives it ([m * nrhs] cells are allocated). *)
Definition offdiag_blocks (ljb : Z) (lsub : array Z) : Z * Z * Z :=
  let myrow := MYROW g (iam g) in
  let mycol := MYCOL g (iam g) in
  let jb := mycol + ljb * npcol g in
  let knsupc := SuperSize G jb in
  let krow := PROW g jb in
  let nrbl := lsub 0 in
  if myrow =? krow
  then (nrbl - 1, nrbl - 1 + 2, lsub 1 - knsupc)
  else (nrbl, nrbl, lsub 1).

(** Lines 997-1046.  [fresh ljb] is the content of the block that
    [intMalloc_dist] hands out for column [ljb]. *)
Definition build_Lrowind_bc_2_lsum (fresh : Z -> array Z) (tbl : Z -> array Z)
  : Z -> array Z :=
  let nsupers_j := CEILING nsupers (npcol g) in
  for_loop nsupers_j (fun ljb tbl =>
    match Lrowind_bc_ptr Llu ljb with
    | Some lsub =>
        let '(nlb_nodiag, idx_i, m) := offdiag_blocks ljb lsub in
        if nlb_nodiag >? 0
        then fun q => if q =? ljb
                      then snd (fill_2_lsum ljb lsub nlb_nodiag idx_i (fresh ljb))
                      else tbl q
        else tbl
    | None => tbl
    end) tbl.

Section Column.

Variable ljb : Z.
Variable lsub : array Z.
Variables nlb_nodiag idx_i : Z.

(** Block [lb] of the column: where its descriptor starts in [lsub],
    its global block row, and the number of its rows. *)
Definition blk_ptr (lb : Z) : Z := Lindval_loc_bc_ptr ljb (lb + idx_i).
Definition blk_row (lb : Z) : Z := lsub (blk_ptr lb).
Definition blk_nbrow (lb : Z) : Z := lsub (blk_ptr lb + 1).

(** The position in [lsum] of row [ii] of block [lb], for right-hand
    side [j]. *)
Definition lsum_pos (j lb ii : Z) : Z :=
  LSUM_BLK D (Llu_ilsum Llu) nrhs (LBi g (blk_row lb))
  + (lsub (blk_ptr lb + LB_DESCRIPTOR D + ii) - xsup G (blk_row lb))
  + j * SuperSize G (blk_row lb).

Definition fill_writes : list (Z * Z) :=
  let L := fun lb => Z.max 0 (blk_nbrow lb) in
  let M := psum L nlb_nodiag in
  flat_map (fun j =>
    flat_map (fun lb =>
      map (fun ii => (0 + psum (fun _ => M) j + psum L lb + ii, lsum_pos j lb ii))
          (range (blk_nbrow lb)))
      (range nlb_nodiag))
    (range nrhs).

Lemma fill_2_lsum_writes tbl :
  fill_2_lsum ljb lsub nlb_nodiag idx_i tbl
  = (0 + psum (fun _ => psum (fun lb => Z.max 0 (blk_nbrow lb)) nlb_nodiag) nrhs,
     write_list fill_writes tbl).
Proof.
  unfold fill_2_lsum, fill_writes. cbv zeta.
  set (L := fun lb => Z.max 0 (blk_nbrow lb)).
  set (M := psum L nlb_nodiag).
  set (wsI := fun (j lb c : Z) =>
                map (fun ii => (c + ii, lsum_pos j lb ii)) (range (blk_nbrow lb))).
  set (wsJ := fun (j c : Z) =>
                flat_map (fun lb => wsI j lb (c + psum L lb)) (range nlb_nodiag)).
  rewrite (for_loop_ext nrhs _
             (fun j (st : Z * array Z) =>
                (fst st + (fun _ => M) j, write_list (wsJ j (fst st)) (snd st)))).
  - rewrite for_loop_cursor_lists. cbn [fst snd]. reflexivity.
  - intros j st.
    rewrite (for_loop_ext nlb_nodiag _
               (fun lb (st : Z * array Z) =>
                  (fst st + L lb, write_list (wsI j lb (fst st)) (snd st)))).
    + rewrite for_loop_cursor_lists. reflexivity.
    + intros lb [c a]. cbn [fst snd].
      exact (for_loop_cursor (blk_nbrow lb) (fun _ c => c)
               (fun ii _ => lsum_pos j lb ii) c a).
Qed.

Hypothesis Hrows : forall lb, 0 <= lb < nlb_nodiag -> 0 <= blk_nbrow lb.

Lemma offs_inj lb ii lb' ii' :
  0 <= lb < nlb_nodiag -> 0 <= ii < blk_nbrow lb ->
  0 <= lb' < nlb_nodiag -> 0 <= ii' < blk_nbrow lb' ->
  psum blk_nbrow lb + ii = psum blk_nbrow lb' + ii' -> lb = lb' /\ ii = ii'.
Proof.
  intros Hlb Hii Hlb' Hii' E.
  destruct (Z.lt_trichotomy lb lb') as [Hlt|[->|Hgt]].
  - pose proof (psum_disjoint blk_nbrow nlb_nodiag lb lb' Hrows). lia.
  - split; [reflexivity|lia].
  - pose proof (psum_disjoint blk_nbrow nlb_nodiag lb' lb Hrows). lia.
Qed.

Lemma offs_range lb ii :
  0 <= lb < nlb_nodiag -> 0 <= ii < blk_nbrow lb ->
  0 <= psum blk_nbrow lb + ii < psum blk_nbrow nlb_nodiag.
Proof.
  intros Hlb Hii.
  pose proof (psum_mono blk_nbrow nlb_nodiag 0 lb Hrows).
  pose proof (psum_mono blk_nbrow nlb_nodiag (lb + 1) nlb_nodiag Hrows).
  rewrite psum_succ in * by lia. rewrite psum_0 in *. lia.
Qed.

Lemma fill_writes_In a v :
  In (a, v) fill_writes <->
  exists j lb ii, 0 <= j < nrhs /\ 0 <= lb < nlb_nodiag /\ 0 <= ii < blk_nbrow lb
    /\ a = j * psum blk_nbrow nlb_nodiag + psum blk_nbrow lb + ii
    /\ v = lsum_pos j lb ii.
Proof.
  unfold fill_writes. cbv zeta.
  assert (EL : forall n, n <= nlb_nodiag ->
             psum (fun lb => Z.max 0 (blk_nbrow lb)) n = psum blk_nbrow n).
  { intros n Hn. apply psum_ext. intros i Hi. specialize (Hrows i). lia. }
  rewrite (EL nlb_nodiag) by lia.
  split.
  - intros H. apply in_flat_map in H. destruct H as [j [Hj H]].
    apply in_flat_map in H. destruct H as [lb [Hlb H]].
    apply in_map_iff in H. destruct H as [ii [E Hii]].
    apply range_In in Hj, Hlb, Hii. injection E as <- <-.
    exists j, lb, ii. rewrite psum_const, (EL lb) by lia.
    repeat split; lia.
  - intros [j [lb [ii [Hj [Hlb [Hii [-> ->]]]]]]].
    apply in_flat_map. exists j. split; [now apply range_In|].
    apply in_flat_map. exists lb. split; [now apply range_In|].
    apply in_map_iff. exists ii. split; [|now apply range_In].
    rewrite psum_const, (EL lb) by lia. f_equal; lia.
Qed.

End Column.

(** X17: the content of [Llu->Lrowind_bc_2_lsum].  For a local block
    column [ljb] with off-diagonal blocks, whose blocks have no negative
    row count, the table of the column lists, for each right-hand side
    [j], each off-diagonal block [lb] in the order of
    [Lindval_loc_bc_ptr[ljb]] and each row [ii] of the block, the
    position of that row in [lsum]: cell [j*M + (rows of the blocks
    before lb) + ii], with [M] the number of rows of all the blocks,
    holds [LSUM_BLK(LBi(ik)) + (row - xsup[ik]) + j*SuperSize(ik)].
    [nrhs * M] cells are written, from cell 0 on and without a gap, and
    no cell beyond them. *)
Theorem X17_rows_to_lsum (fresh tbl : Z -> array Z) (ljb : Z) (lsub : array Z) :
  let nlb_nodiag := fst (fst (offdiag_blocks ljb lsub)) in
  let idx_i := snd (fst (offdiag_blocks ljb lsub)) in
  let M := psum (blk_nbrow ljb lsub idx_i) nlb_nodiag in
  0 <= ljb < CEILING nsupers (npcol g) ->
  Lrowind_bc_ptr Llu ljb = Some lsub ->
  0 < nlb_nodiag ->
  (forall lb, 0 <= lb < nlb_nodiag -> 0 <= blk_nbrow ljb lsub idx_i lb) ->
  (forall j lb ii,
     0 <= j < nrhs -> 0 <= lb < nlb_nodiag -> 0 <= ii < blk_nbrow ljb lsub idx_i lb ->
     build_Lrowind_bc_2_lsum fresh tbl ljb
       (j * M + psum (blk_nbrow ljb lsub idx_i) lb + ii)
     = lsum_pos ljb lsub idx_i j lb ii)
  /\ (forall a, a < 0 \/ Z.max 0 nrhs * M <= a ->
        build_Lrowind_bc_2_lsum fresh tbl ljb a = fresh ljb a).
Proof.
  intros nlb idx M Hljb Hsub Hpos Hrows.
  assert (Hcol : build_Lrowind_bc_2_lsum fresh tbl ljb
                 = snd (fill_2_lsum ljb lsub nlb idx (fresh ljb))).
  { unfold build_Lrowind_bc_2_lsum. cbv zeta.
    apply (for_loop_inv (fun (n : Z) (t : Z -> array Z) =>
             ljb < n -> t ljb = snd (fill_2_lsum ljb lsub nlb idx (fresh ljb))));
      [lia|intros; lia| |lia].
    intros i t Hi IH Hlt.
    destruct (Z.eq_dec i ljb) as [->|Hne].
    - rewrite Hsub. unfold nlb, idx in *.
      destruct (offdiag_blocks ljb lsub) as [[a b] c]. cbn [fst snd] in *.
      destruct (Z.gtb_spec a 0); [|lia]. now rewrite Z.eqb_refl.
    - assert (Hl : ljb < i) by lia. specialize (IH Hl).
      destruct (Lrowind_bc_ptr Llu i) as [lsub'|]; [|exact IH].
      destruct (offdiag_blocks i lsub') as [[a b] c].
      destruct (a >? 0); [|exact IH].
      destruct (Z.eqb_spec ljb i); [congruence|exact IH]. }
  rewrite Hcol, fill_2_lsum_writes. cbn [snd].
  pose proof (psum_mono (blk_nbrow ljb lsub idx) nlb 0 nlb Hrows) as HM.
  rewrite psum_0 in HM. fold M in HM.
  split.
  - intros j lb ii Hj Hlb Hii.
    apply write_list_consistent.
    + apply (fill_writes_In ljb lsub nlb idx Hrows). exists j, lb, ii.
      fold M. repeat split; try lia.
    + intros v' Hv'.
      apply (fill_writes_In ljb lsub nlb idx Hrows) in Hv'.
      destruct Hv' as [j' [lb' [ii' [Hj' [Hlb' [Hii' [Ea Ev]]]]]]]. fold M in Ea.
      pose proof (offs_range ljb lsub nlb idx Hrows lb ii Hlb Hii) as R1.
      pose proof (offs_range ljb lsub nlb idx Hrows lb' ii' Hlb' Hii') as R2.
      fold M in R1, R2.
      destruct (scaled_inj j j' M (psum (blk_nbrow ljb lsub idx) lb + ii)
                  (psum (blk_nbrow ljb lsub idx) lb' + ii') R1 R2 ltac:(lia))
        as [<- E2].
      destruct (offs_inj ljb lsub nlb idx Hrows lb ii lb' ii' Hlb Hii Hlb' Hii' E2)
        as [<- <-].
      exact Ev.
  - intros a Ha. apply write_list_notin. intros v Hv.
    apply (fill_writes_In ljb lsub nlb idx Hrows) in Hv.
    destruct Hv as [j [lb [ii [Hj [Hlb [Hii [Ea Ev]]]]]]]. fold M in Ea.
    pose proof (offs_range ljb lsub nlb idx Hrows lb ii Hlb Hii) as R1.
    fold M in R1. nia.
Qed.

End RowsToLsum.

(** A 1 x 1 mesh with three supernodes of size 1 and a full first
    column of L: the diagonal block and the blocks of rows 1 and 2. *)
Definition l2l_Llu : LocalLU_t :=
  {| Llu_fmod := 1; Llu_bmod := 2; Llu_mod_bit := 3;
     Llu_nfrecvx := 0; Llu_nbrecvx := 0;
     Lrowind_bc_ptr := fun lk =>
       if lk =? 0 then Some (tab 0 [3; 3; 0; 1; 0; 1; 1; 1; 2; 1; 2]) else None;
     LBtree_ptr := fun _ => None;
     LRtree_ptr := fun _ => None;
     Ufstnz_br_ptr := fun _ => None;
     bsendx_plist := fun _ _ => -1;
     Llu_ilsum := tab 0 [0; 1; 2; 3] |}.
Definition l2l_Lindval : Z -> array Z := fun _ => tab 0 [0; 1; 2; 2; 5; 8; 0; 1; 2].

(** X17 on column 0 with two right-hand sides: the cell of the second
    right-hand side for the row of block 2 holds its place in [lsum]. *)
Lemma X17_witness :
  build_Lrowind_bc_2_lsum D0 singular_grid fwd_Glu l2l_Llu l2l_Lindval 3 2
    (fun _ _ => 0) (fun _ _ => 0) 0 3 = 11.
Proof.
  destruct (X17_rows_to_lsum D0 singular_grid fwd_Glu l2l_Llu l2l_Lindval 3 2
              (fun _ _ => 0) (fun _ _ => 0) 0
              (tab 0 [3; 3; 0; 1; 0; 1; 1; 1; 2; 1; 2])) as [H _].
  - vm_compute. split; [discriminate|reflexivity].
  - reflexivity.
  - reflexivity.
  - intros lb Hlb. change (0 <= lb < 2) in Hlb.
    assert (E : lb = 0 \/ lb = 1) by lia.
    destruct E as [-> | ->]; vm_compute; discriminate.
  - exact (H 1 1 0 ltac:(lia) ltac:(vm_compute; split; [discriminate|reflexivity])
             ltac:(vm_compute; split; [discriminate|reflexivity])).
Defined.
